(** * sd_mecha.merge_methods: numerical merge operators

    A shallow embedding of [sd_mecha/merge_methods/__init__.py].

    Numbers.  A tensor element is a [num]: a rational, one of the two
    infinities, or NaN; the two signed zeros are one value.  The infinities
    and NaN follow the IEEE-754 rules the source relies on ([nan_to_num],
    [isnan], [isfinite], [clamp]).  Hyperparameters ([Hyper]) are finite
    Python floats, modelled as canonical rationals [Qc].

    Two layers.  The operators of the first part compute on the rationals
    without rounding; they carry the results that do not depend on rounding:
    control flow, raised errors, sign logic, the propagation of NaN and of
    the infinities, comparisons, selections and 0/1 masks.  The module [Fp]
    gives the operators whose results do depend on it ([weighted_sum],
    [ratio_to_region], [tensor_sum], [filter_top_k], [clamp], the geometric
    median) with every arithmetic result rounded to its floating-point
    format, and the binary64 and binary32 roundings themselves.

    Library primitives that have no rational closed form (the Euclidean norm,
    [sin], [arccos], [tan], [exp], [sqrt], the FFT, the random generator) are
    Section variables; the module [Prims] gives executable stand-ins used to
    run the model on concrete inputs. *)

From Stdlib Require Import ZArith QArith Qcanon Qround Qpower Lqa Lia List Bool.
From Stdlib Require Import Permutation Sorted.
Import ListNotations.

Set Implicit Arguments.

(* ------------------------------------------------------------------ *)
(** ** Rationals: boolean comparisons and Python scalar conversions *)

Module PyFloat.

Open Scope Qc_scope.

Definition Qcltb (x y : Qc) : bool :=
match x ?= y with Lt => true | _ => false end.

Definition Qcleb (x y : Qc) : bool :=
match x ?= y with Gt => false | _ => true end.

Definition Qceqb (x y : Qc) : bool :=
match x ?= y with Eq => true | _ => false end.

Definition ofZ (z : Z) : Qc := Q2Qc (inject_Z z).
Definition ofnat (n : nat) : Qc := ofZ (Z.of_nat n).

Definition Qcmax (x y : Qc) : Qc := if Qcltb x y then y else x.
Definition Qcmin (x y : Qc) : Qc := if Qcltb y x then y else x.
Definition Qcabs' (x : Qc) : Qc := if Qcltb x 0 then - x else x.

(** [int(x)]: truncation toward zero. *)
Definition pyint (x : Qc) : Z := Z.quot (Qnum x) (Zpos (Qden x)).

(** [math.floor(x)]. *)
Definition pyfloor (x : Qc) : Z := Qfloor x.

(** [round(x)]: nearest integer, ties to the even one. *)
Definition pyround (x : Qc) : Z :=
let f := Qfloor x in
let r := x - ofZ f in
match Qccompare r (Q2Qc (1 # 2)) with
| Lt => f
| Gt => (f + 1)%Z
| Eq => if Z.even f then f else (f + 1)%Z
end.

(** [x // y] on floats, for [y <> 0]. *)
Definition floordiv (x y : Qc) : Qc := ofZ (pyfloor (x / y)).

(** [x % y] on floats, for [y <> 0]: the result has the sign of [y]. *)
Definition pymod (x y : Qc) : Qc := x - y * floordiv x y.

(** [math.fmod(x, 1.0)]: the result has the sign of [x]. *)
Definition fmod1 (x : Qc) : Qc := x - ofZ (pyint x).

End PyFloat.
Export PyFloat.

(* ------------------------------------------------------------------ *)
(** ** Extended numbers *)

Module Num.

Open Scope Qc_scope.

Inductive num : Type :=
| Fin (q : Qc)
| PInf
| NInf
| NaN.

Definition nzero : num := Fin 0.
Definition none : num := Fin 1.

Definition isnan (x : num) : bool :=
match x with NaN => true | _ => false end.

Definition isfinite (x : num) : bool :=
match x with Fin _ => true | _ => false end.

Definition nopp (x : num) : num :=
match x with
| Fin q => Fin (- q)
| PInf => NInf
| NInf => PInf
| NaN => NaN
end.

Definition nabs (x : num) : num :=
match x with
| Fin q => Fin (Qcabs' q)
| PInf | NInf => PInf
| NaN => NaN
end.

Definition nadd (x y : num) : num :=
match x, y with
| NaN, _ | _, NaN => NaN
| Fin p, Fin q => Fin (p + q)
| PInf, NInf | NInf, PInf => NaN
| PInf, _ | _, PInf => PInf
| NInf, _ | _, NInf => NInf
end.

Definition nsub (x y : num) : num := nadd x (nopp y).

(** An infinity scaled by a finite factor: the sign follows the factor and
  zero times infinity is NaN. *)
Definition scale_inf (pos : bool) (q : Qc) : num :=
match q ?= 0 with
| Eq => NaN
| Gt => if pos then PInf else NInf
| Lt => if pos then NInf else PInf
end.

Definition nmul (x y : num) : num :=
match x, y with
| NaN, _ | _, NaN => NaN
| Fin p, Fin q => Fin (p * q)
| Fin p, PInf | PInf, Fin p => scale_inf true p
| Fin p, NInf | NInf, Fin p => scale_inf false p
| PInf, PInf | NInf, NInf => PInf
| PInf, NInf | NInf, PInf => NInf
end.

(** Division of tensors and numpy arrays never raises: a zero divisor gives
  an infinity, or NaN for [0/0]. *)
Definition ndiv (x y : num) : num :=
match x, y with
| NaN, _ | _, NaN => NaN
| Fin p, Fin q =>
    if Qceqb q 0 then
      match p ?= 0 with Eq => NaN | Gt => PInf | Lt => NInf end
    else Fin (p / q)
| Fin _, PInf | Fin _, NInf => Fin 0
| PInf, Fin q => if Qcltb q 0 then NInf else PInf
| NInf, Fin q => if Qcltb q 0 then PInf else NInf
| _, _ => NaN
end.

(** Comparisons: every comparison with NaN is false. *)
Definition nltb (x y : num) : bool :=
match x, y with
| Fin p, Fin q => Qcltb p q
| Fin _, PInf | NInf, Fin _ | NInf, PInf => true
| _, _ => false
end.

Definition nleb (x y : num) : bool :=
match x, y with
| Fin p, Fin q => Qcleb p q
| Fin _, PInf | NInf, Fin _ | NInf, PInf | PInf, PInf | NInf, NInf => true
| _, _ => false
end.

Definition neqb (x y : num) : bool :=
match x, y with
| Fin p, Fin q => Qceqb p q
| PInf, PInf | NInf, NInf => true
| _, _ => false
end.

Definition ngeb (x y : num) : bool := nleb y x.
Definition ngtb (x y : num) : bool := nltb y x.

(** [.float()] of a boolean tensor element. *)
Definition of_bool (b : bool) : num := if b then Fin 1 else Fin 0.

(** [torch.sign]: [(0 < x) - (x < 0)], hence 0 at NaN. *)
Definition nsign (x : num) : num :=
nsub (of_bool (nltb nzero x)) (of_bool (nltb x nzero)).

(** Largest finite value of the tensor dtype (float32). *)
Definition FLT_MAX : Qc := Q2Qc (inject_Z (2 ^ 128 - 2 ^ 104)).

(** [torch.nan_to_num] with its default replacements. *)
Definition nan_to_num (x : num) : num :=
match x with
| NaN => Fin 0
| PInf => Fin FLT_MAX
| NInf => Fin (- FLT_MAX)
| Fin q => Fin q
end.

(** [torch.clamp(x, min=lo)]: NaN is propagated. *)
Definition clamp_min (x : num) (lo : Qc) : num :=
match x with
| NaN => NaN
| _ => if nltb x (Fin lo) then Fin lo else x
end.

(** [torch.clamp(x, lo, hi)]. *)
Definition clamp (x : num) (lo hi : Qc) : num :=
match clamp_min x lo with
| NaN => NaN
| y => if nltb (Fin hi) y then Fin hi else y
end.

Definition nsum (l : list num) : num := fold_left nadd l nzero.

End Num.
Export Num.

(* ------------------------------------------------------------------ *)
(** ** Exceptions *)

Inductive exn : Type :=
| ValueError
| IndexError
| ZeroDivisionError
| RuntimeError
| OverflowError.

Inductive result (A : Type) : Type :=
| Ok (a : A)
| Raise (e : exn).

Arguments Ok {A} a.
Arguments Raise {A} e.

Definition bind {A B : Type} (m : result A) (k : A -> result B) : result B :=
  match m with
  | Ok a => k a
  | Raise e => Raise e
  end.

Notation "x <- m ;; k" := (bind m (fun x => k))
  (at level 61, m at next level, right associativity).

Fixpoint mapM {A B : Type} (f : A -> result B) (l : list A) : result (list B) :=
  match l with
  | [] => Ok []
  | a :: l' => b <- f a ;; bs <- mapM f l' ;; Ok (b :: bs)
  end.

(* ------------------------------------------------------------------ *)
(** ** Tensors *)

Record tensor : Type := mkTensor { shape : list nat; data : list num }.

Definition numel (a : tensor) : nat := length (data a).

(** Well-formed tensors hold one element per index of their shape. *)
Definition wf_tensor (a : tensor) : Prop :=
  length (data a) = fold_right Nat.mul 1%nat (shape a).

Definition finite_tensor (a : tensor) : Prop :=
  Forall (fun x => isfinite x = true) (data a).

Fixpoint map2 {A B C : Type} (f : A -> B -> C) (l : list A) (m : list B) : list C :=
  match l, m with
  | x :: l', y :: m' => f x y :: map2 f l' m'
  | _, _ => []
  end.

Definition tmap (f : num -> num) (a : tensor) : tensor :=
  mkTensor (shape a) (map f (data a)).

(** Elementwise binary operators, on operands of one shape. *)
Definition tmap2 (f : num -> num -> num) (a b : tensor) : tensor :=
  mkTensor (shape a) (map2 f (data a) (data b)).

Definition tadd := tmap2 nadd.
Definition tsub := tmap2 nsub.
Definition tmul := tmap2 nmul.
Definition tdiv := tmap2 ndiv.

(** Operators between a tensor and a scalar. *)
Definition tscale (s : num) (a : tensor) : tensor := tmap (fun x => nmul s x) a.
Definition tmuls (a : tensor) (s : num) : tensor := tmap (fun x => nmul x s) a.
Definition tdivs (a : tensor) (s : num) : tensor := tmap (fun x => ndiv x s) a.

Definition tsum (a : tensor) : num := nsum (data a).

Definition zeros_like (a : tensor) : tensor := tmap (fun _ => Fin 0) a.

Definition any_isnan (a : tensor) : bool := existsb isnan (data a).

Definition same_shape (a b : tensor) : bool :=
  if list_eq_dec Nat.eq_dec (shape a) (shape b) then true else false.

(** [torch.stack(ts, dim=0)]: the operands must be at least one and of one
    shape.  The stacked tensor is kept as the list of its slices. *)
Definition stack (ts : list tensor) : result (list tensor) :=
  match ts with
  | [] => Raise RuntimeError
  | t0 :: _ => if forallb (same_shape t0) ts then Ok ts else Raise RuntimeError
  end.

(** [torch.sum(stacked, dim=0)]. *)
Definition sum_dim0 (like : tensor) (ts : list tensor) : tensor :=
  fold_left tadd ts (zeros_like like).

(** Decidable equality of tensors, for checking concrete results. *)
Definition num_eqb (x y : num) : bool :=
  match x, y with
  | Fin p, Fin q => Qceqb p q
  | PInf, PInf | NInf, NInf | NaN, NaN => true
  | _, _ => false
  end.

Fixpoint list_eqb {A : Type} (eqb : A -> A -> bool) (l m : list A) : bool :=
  match l, m with
  | [], [] => true
  | x :: l', y :: m' => eqb x y && list_eqb eqb l' m'
  | _, _ => false
  end.

Definition tensor_eqb (a b : tensor) : bool :=
  list_eqb Nat.eqb (shape a) (shape b) && list_eqb num_eqb (data a) (data b).

(* ------------------------------------------------------------------ *)
(** ** Numeric kernel primitives *)

(** [weighted_sum] is used on scalars, arrays and tensors alike; [wsum] is
    its elementwise kernel [(1 - alpha) * a + alpha * b]. *)
Definition wsum (one_minus_alpha alpha a b : num) : num :=
  nadd (nmul one_minus_alpha a) (nmul alpha b).

Definition weighted_sum (a b : tensor) (alpha : Qc) : tensor :=
  tadd (tscale (Fin (1 - alpha)) a) (tscale (Fin alpha) b).

Definition weighted_sum_scalar (a b : num) (alpha : Qc) : num :=
  wsum (Fin (1 - alpha)) (Fin alpha) a b.

Definition weighted_sum_array (a b : list num) (alpha : Qc) : list num :=
  map2 (wsum (Fin (1 - alpha)) (Fin alpha)) a b.

(** [n_average]: [torch.mean(torch.stack(models), dim=0)]. *)
Definition n_average (models : list tensor) : result tensor :=
  ts <- stack models ;;
  match ts with
  | [] => Raise RuntimeError
  | t0 :: _ => Ok (tdivs (sum_dim0 t0 ts) (Fin (ofnat (length ts))))
  end.

Section Slerp.

(** [Tensor.norm()]: the Euclidean norm of the flattened tensor. *)
Variable l2norm : list num -> num.
(** [torch.sin] and [torch.arccos] on a 0-dimensional tensor. *)
Variable sin_ : num -> num.
Variable arccos_ : num -> num.

Definition norm (a : tensor) : num := l2norm (data a).

(** The geodesic interpolation [res] of [slerp], before the NaN test. *)
Definition slerp_res (a b : tensor) (alpha : Qc) : tensor :=
  let a_normalized := tdivs a (norm a) in
  let b_normalized := tdivs b (norm b) in
  let ab_dot := clamp (tsum (tmul a_normalized b_normalized)) (- (1)) 1 in
  let omega := arccos_ ab_dot in
  let a_contrib := tmuls a_normalized (sin_ (nmul (Fin (1 - alpha)) omega)) in
  let b_contrib := tmuls b_normalized (sin_ (nmul (Fin alpha) omega)) in
  let res := tdivs (tadd a_contrib b_contrib) (sin_ omega) in
  tmuls res (weighted_sum_scalar (norm a) (norm b) alpha).

Definition slerp (a b : tensor) (alpha : Qc) : tensor :=
  let res := slerp_res a b alpha in
  if any_isnan res then weighted_sum a b alpha else res.

End Slerp.

(* ------------------------------------------------------------------ *)
(** ** Disjoint merge (TIES) *)

(** The order [torch.kthvalue] sorts by: NaN is larger than every number. *)
Definition sort_leb (x y : num) : bool :=
  match x, y with
  | _, NaN => true
  | NaN, _ => false
  | _, _ => nleb x y
  end.

Fixpoint insert_sorted (x : num) (l : list num) : list num :=
  match l with
  | [] => [x]
  | y :: l' => if sort_leb x y then x :: l else y :: insert_sorted x l'
  end.

Definition sort (l : list num) : list num := fold_right insert_sorted [] l.

(** [torch.kthvalue(xs, k)]: the [k]-th smallest element, [k] counted from 1.
    An empty tensor has no dimension to reduce (IndexError); on the others
    an index outside [1..len(xs)] is out of range (RuntimeError). *)
Definition kthvalue (xs : list num) (k : Z) : result num :=
  match xs with
  | [] => Raise IndexError
  | _ :: _ =>
      if ((k <? 1) || (Z.of_nat (length xs) <? k))%Z then Raise RuntimeError
      else match nth_error (sort xs) (Z.to_nat (k - 1)) with
           | Some v => Ok v
           | None => Raise RuntimeError
           end
  end.

(** The rank [filter_top_k] passes to [kthvalue]:
    [max(int((1 - k) * numel(a)), 1)]. *)
Definition top_k_rank (n : nat) (k : Qc) : Z :=
  Z.max (pyint ((1 - k) * ofnat n)) 1.

Definition filter_top_k (a : tensor) (k : Qc) : result tensor :=
  let k' := top_k_rank (numel a) k in
  k_value <- kthvalue (map nabs (data a)) k' ;;
  let top_k_filter := tmap (fun x => of_bool (ngeb (nabs x) k_value)) a in
  Ok (tmul a top_k_filter).

(** [sum(dim=0)] of a stacked tensor. *)
Definition sum0 (ts : list tensor) : tensor :=
  match ts with
  | [] => mkTensor [] []
  | t0 :: _ => sum_dim0 t0 ts
  end.

(** Step 1, trim redundant parameters: [filter_top_k] on every model. *)
Definition trim (models : list tensor) (k : Qc) : result (list tensor) :=
  mapM (fun m => filter_top_k m k) models.

(** Step 2, elect final signs: the sign of the summed deltas, or of the
    summed signs when [vote_sgn > 0]. *)
Definition elect_sign (deltas : list tensor) (vote_sgn : Qc) : tensor :=
  let signs := map (tmap nsign) deltas in
  tmap nsign (sum0 (if Qcleb vote_sgn 0 then deltas else signs)).

(** Step 3, disjoint merge: the 0/1 mask of the deltas whose sign agrees
    with the elected one. *)
Definition delta_filters (deltas : list tensor) (final_sign : tensor) : list tensor :=
  let signs := map (tmap nsign) deltas in
  map (fun s => tmap2 (fun x y => of_bool (neqb x y)) s final_sign) signs.

Definition ties_sum_deltas (models : list tensor) (k vote_sgn : Qc)
  : result (list tensor * tensor) :=
  ds <- trim models k ;;
  deltas <- stack ds ;;
  let final_sign := elect_sign deltas vote_sgn in
  let filters := delta_filters deltas final_sign in
  let param_counts := sum0 filters in
  let filtered_delta := map2 tmul deltas filters in
  Ok (filtered_delta, param_counts).

Definition ties_sum (models : list tensor) (k vote_sgn : Qc) : result tensor :=
  r <- ties_sum_deltas models k vote_sgn ;;
  let '(filtered_delta, param_counts) := r in
  Ok (tmap nan_to_num (tdiv (sum0 filtered_delta) param_counts)).

(* ------------------------------------------------------------------ *)
(** ** Region masking *)

Definition ratio_to_region (width offset : Qc) (n : Z) : Z * Z * bool :=
  let '(offset, width) :=
    if Qcltb width 0 then ((offset + width)%Qc, (- width)%Qc) else (offset, width) in
  let width := Qcmin width 1 in
  let offset :=
    if Qcltb offset 0 then (1 + offset - ofZ (pyint offset))%Qc else offset in
  let offset := fmod1 offset in
  if Qcleb (width + offset) 1 then
    (pyround (offset * ofZ n), pyround ((width + offset) * ofZ n), false)
  else
    (pyround ((width + offset - 1) * ofZ n), pyround (offset * ofZ n), true).

(* ------------------------------------------------------------------ *)
(** ** Spectral crossover *)

Definition EPSILON : Qc := Q2Qc (1 # 10000000000).

(** [math.pi]: the binary64 number nearest to the circle constant. *)
Definition math_pi : Qc := Q2Qc (884279719003555 # 281474976710656).

(** [torch.linspace(start, stop, steps)]. *)
Definition linspace (start stop : Qc) (steps : nat) : list num :=
  match steps with
  | O => []
  | S O => [Fin start]
  | S m =>
      map (fun i => Fin (start + (stop - start) * ofnat i / ofnat m)) (seq 0 steps)
  end.

(** The frequency-distance gradient of one axis; [i] counts the axes from
    the last one, [s] is the axis length. *)
Definition gradient (i s : nat) : list num :=
  if ((i =? 0) || (s =? 1))%nat then linspace 0 1 s
  else
    (* negative frequencies are in the second half of the dimension *)
    map (fun x => ndiv x (Fin (ofnat (s / 2))))
        (linspace 0 (ofZ ((Z.of_nat s - 1) / 2)) (s - s / 2)
         ++ linspace (ofnat (s / 2)) 1 (s / 2)).

Definition enumerate {A : Type} (l : list A) : list (nat * A) :=
  combine (seq 0 (length l)) l.

Definition gradients (shp : list nat) : list (list num) :=
  rev (map (fun p => gradient (fst p) (snd p)) (enumerate (rev shp))).

(** The [meshgrid] of the axis vectors [gs] ('ij' indexing), stacked and
    summed over the stacking axis, in row-major order: entry
    [(i1, .., id)] is [gs1[i1] + .. + gsd[id]]. *)
Fixpoint grid_sums (acc : num) (gs : list (list num)) : list num :=
  match gs with
  | [] => [acc]
  | g :: gs' => flat_map (fun x => grid_sums (nadd acc x) gs') g
  end.

Section CreateFilter.

(** [torch.sqrt] on non-negative finite values. *)
Variable sqrt_ : Qc -> Qc.
(** [math.tan]. *)
Variable tan_ : Qc -> Qc.

Definition nsqrt (x : num) : num :=
  match x with
  | Fin q => if Qcltb q 0 then NaN else Fin (sqrt_ q)
  | PInf => PInf
  | NInf | NaN => NaN
  end.

Definition mesh_of (shp : list nat) : result (list num) :=
  let gs := gradients shp in
  if (1 <? length shp)%nat then
    let grids := map (map (fun x => nmul x x)) gs in
    Ok (map (fun s => nsqrt (ndiv s (Fin (ofnat (length shp)))))
            (grid_sums nzero grids))
  else
    match gs with
    | g0 :: _ => Ok g0
    | [] => Raise IndexError
    end.

Definition create_filter (shp : list nat) (alpha tilt : Qc) : result tensor :=
  if negb (Qcleb 0 alpha && Qcleb alpha 1) then Raise ValueError
  else
    (* normalize tilt to the range [0, 4] *)
    let tilt := (tilt - ofZ (pyfloor (floordiv tilt (ofZ 4) * ofZ 4)))%Qc in
    let alpha_inverted := Qcltb (ofZ 2) tilt in
    let alpha := if alpha_inverted then (1 - alpha)%Qc else alpha in
    mesh <- mesh_of shp ;;
    dft_filter <-
      (if Qcltb tilt EPSILON || Qcltb (Qcabs' (tilt - ofZ 4)) EPSILON then
         Ok (map (fun m => of_bool (ngtb m (Fin (1 - alpha)))) mesh)
       else if Qcltb (Qcabs' (tilt - ofZ 2)) EPSILON then
         Ok (map (fun m => of_bool (nltb m (Fin (1 - alpha)))) mesh)
       else
         let t := tan_ (math_pi * tilt / ofZ 2) in
         if Qceqb t 0 then Raise ZeroDivisionError
         else
           let tilt_cot := (1 / t)%Qc in
           let ramp :=
             if Qcleb tilt 1 || (Qcltb (ofZ 2) tilt && Qcleb tilt (ofZ 3)) then
               map (fun m =>
                      nsub (nadd (nadd (nmul m (Fin tilt_cot))
                                       (Fin (alpha * tilt_cot)))
                                 (Fin alpha))
                           (Fin tilt_cot)) mesh
             else (* 1 < tilt <= 2 or 3 < tilt *)
               map (fun m =>
                      nadd (nsub (nmul m (Fin tilt_cot)) (Fin (alpha * tilt_cot)))
                           (Fin alpha)) mesh in
           Ok (map (fun x => clamp x 0 1) ramp)) ;;
    let dft_filter :=
      if alpha_inverted then map (fun x => nsub (Fin 1) x) dft_filter
      else dft_filter in
    Ok (mkTensor shp dft_filter).

(** Shape of [torch.fft.rfftn(a, s=shape)]: the last axis is halved. *)
Definition rfftn_shape (shp : list nat) : list nat :=
  match rev shp with
  | [] => []
  | s :: r => rev r ++ [(s / 2 + 1)%nat]
  end.

(** [torch.allclose(a.half(), b.half())]. *)
Variable allclose_half : tensor -> tensor -> bool.
(** [irfftn((1 - f) * rfftn(a) + f * rfftn(b), s=a.shape)] for a filter [f]. *)
Variable spectral_blend : tensor -> tensor -> tensor -> tensor.

Definition crossover (a b : tensor) (alpha tilt : Qc) : result tensor :=
  if Qceqb alpha 0 then Ok a
  else if Qceqb alpha 1 then Ok b
  else if Qceqb tilt 1 then Ok (weighted_sum a b alpha)
  else if (length (shape a) =? 0)%nat || allclose_half a b then
    Ok (weighted_sum a b tilt)
  else
    dft_filter <- create_filter (rfftn_shape (shape a)) alpha tilt ;;
    Ok (spectral_blend a b dft_filter).

End CreateFilter.

(* ------------------------------------------------------------------ *)
(** ** Stochastic dropout *)

Fixpoint popcount_pos (p : positive) : nat :=
  match p with
  | xH => 1
  | xO p' => popcount_pos p'
  | xI p' => S (popcount_pos p')
  end.

(** [bin(i).count("1")]. *)
Definition popcount (i : nat) : nat :=
  match N.of_nat i with
  | N0 => 0
  | Npos p => popcount_pos p
  end.

(** The loop of [binomial_coefficient_np] over unbounded integers: the
    value the source would compute if its accumulator could not wrap. *)
Definition binomial_coefficient_np (n k : Z) : Z :=
  let k := if (n - k <? k)%Z then (n - k)%Z else k in
  fold_left (fun result i => (result * (n - i + 1) / i)%Z)
            (map Z.of_nat (seq 1 (Z.to_nat k))) 1%Z.

(** The value an [np.int64] operation stores. *)
Definition wrap_int64 (z : Z) : Z :=
  ((z + 2 ^ 63) mod 2 ^ 64 - 2 ^ 63)%Z.

(** [binomial_coefficient_np] as the source runs it, with the accumulator
    an [np.int64]: the product wraps before the floor division. *)
Definition binomial_coefficient_int64 (n k : Z) : Z :=
  let k := if (n - k <? k)%Z then (n - k)%Z else k in
  fold_left (fun result i => (wrap_int64 (result * (n - i + 1)) / i)%Z)
            (map Z.of_nat (seq 1 (Z.to_nat k))) (wrap_int64 1).

Fixpoint choose (n k : nat) : nat :=
  match k, n with
  | O, _ => 1
  | S _, O => 0
  | S k', S n' => choose n' k' + choose n' k
  end.

(** [scipy.stats.binom.pmf(k, n, p)]. *)
Definition binom_pmf (k n : nat) (p : Qc) : num :=
  if Qcltb p 0 || Qcltb 1 p then NaN
  else if (n <? k)%nat then Fin 0
  else Fin (ofnat (choose n k) * p ^ k * (1 - p) ^ (n - k)).

(** [np.isclose(a, b)] with the default tolerances. *)
Definition isclose (a b : Qc) : bool :=
  Qcleb (Qcabs' (a - b))
        (Q2Qc (1 # 100000000) + Q2Qc (1 # 100000) * Qcabs' b).

Section Dropout.

(** [np.tan] on a scalar and [np.exp] on an array element; [np.exp]
    overflows to infinity. *)
Variable tan_ : Qc -> Qc.
Variable exp_ : Qc -> num.
(** [x ** y] on Python floats. *)
Variable pypow : Qc -> Qc -> result num.
(** The 53 random bits behind the [k]-th double drawn from
    [np.random.default_rng(seed)]. *)
Variable random_bits : option Z -> nat -> N.

Definition nexp (x : num) : num :=
  match x with
  | Fin q => exp_ q
  | PInf => PInf
  | NInf => Fin 0
  | NaN => NaN
  end.

(** The distribution over the [2^n] masking patterns of [n >= 1] deltas:
    index 0 is "all dropped". *)
Definition overlapping_sets_pmf (n : nat) (p overlap overlap_emphasis : Qc)
  : list num :=
  let subsets := seq 1 (2 ^ n - 1) in
  let '(pmf, overlap) :=
    if isclose overlap (ofZ (pyround overlap)) then
      if (pyround overlap mod 2 =? 0)%Z then
        (map (fun i => Fin (1 / ofnat n
                            * (if (popcount i =? 1)%nat then 1 else 0)))
             subsets, overlap)
      else
        (repeat (Fin 0) (2 ^ n - 2) ++ [Fin 1], overlap)
    else
      let overlap :=
        if (pyfloor overlap mod 2 =? 1)%Z then (- overlap)%Qc else overlap in
      let tan_overlap := tan_ (math_pi * (overlap - Q2Qc (1 # 2))) in
      let pmf :=
        map (fun i => Fin (tan_overlap
                           * (ofnat (popcount i) - ofnat n / ofZ 2)))
            subsets in
      let e := map nexp pmf in
      (map (fun x => ndiv x (nsum e)) e, overlap) in
  let binomial_pmf := map (fun k => binom_pmf k n p) (seq 1 n) in
  let expanded_binomial_pmf :=
    map (fun i =>
           let num_sets := popcount i in
           ndiv (nth (num_sets - 1) binomial_pmf NaN)
                (Fin (ofZ (binomial_coefficient_int64 (Z.of_nat n)
                                                      (Z.of_nat num_sets)))))
        subsets in
  let expanded_binomial_pmf :=
    map (fun x => ndiv x (nsum expanded_binomial_pmf)) expanded_binomial_pmf in
  let pmf :=
    weighted_sum_array
      pmf
      (weighted_sum_array pmf expanded_binomial_pmf
                          (1 - Qcabs' (ofZ 2 * overlap - 1)))
      overlap_emphasis in
  Fin p :: map (fun x => nmul x (Fin (1 - p))) pmf.

(** The [k]-th uniform variate of the generator, in [0, 1). *)
Definition uniform (seed : option Z) (k : nat) : Qc :=
  (ofZ (Z.of_N (random_bits seed k mod 2 ^ 53)) / ofZ (2 ^ 53))%Qc.

(** One draw of [rng.binomial(n=1, p)] from the uniform variate [u]
    (inversion sampling; [p = 0] always gives 0). *)
Definition bernoulli (p u : Qc) : bool :=
  if Qceqb p 0 then false
  else if Qcleb p (Q2Qc (1 # 2)) then Qcltb (1 - p) u
  else Qcleb u p.

Fixpoint cumsum (acc : num) (l : list num) : list num :=
  match l with
  | [] => []
  | x :: l' => let s := nadd acc x in s :: cumsum s l'
  end.

(** [rng.choice(arange(len(p)), size, p=p)]: the probabilities are
    validated, then each index is found by searching the cumulative
    distribution for a uniform variate. *)
Definition rng_choice (seed : option Z) (size : nat) (p : list num)
  : result (list nat) :=
  let p_sum := nsum p in
  if isnan p_sum then Raise ValueError
  else if existsb (fun x => nltb x (Fin 0)) p then Raise ValueError
  else if ngtb (nabs (nsub p_sum (Fin 1))) (Fin (Q2Qc (1 # 67108864)))
  then Raise ValueError
  else
    let cdf := cumsum nzero p in
    let cdf := map (fun x => ndiv x (last cdf NaN)) cdf in
    Ok (map (fun i =>
               length (filter (fun c => nleb c (Fin (uniform seed i))) cdf))
            (seq 0 size)).

(** The inclusion masks, one per delta: independent Bernoulli draws when
    [overlap] is an odd integer, otherwise the bits of one sampled subset
    index per element. *)
Definition dropout_masks (seed : option Z) (n size : nat)
           (probability overlap overlap_emphasis : Qc)
  : result (list (list bool)) :=
  if Qceqb (pymod overlap (ofZ 2)) 1 then
    (* rng.binomial validates its probability *)
    if Qcltb (1 - probability) 0 || Qcltb 1 (1 - probability) then
      Raise ValueError
    else
      Ok (map (fun j =>
                 map (fun i => bernoulli (1 - probability)
                                         (uniform seed (j * size + i)))
                     (seq 0 size))
              (seq 0 n))
  else
    let pmf := overlapping_sets_pmf n probability overlap overlap_emphasis in
    ks <- rng_choice seed size pmf ;;
    Ok (map (fun i => map (fun m => N.testbit (N.of_nat m) (N.of_nat i)) ks)
            (seq 0 n)).

(** [final_delta[mask] += delta[mask]] over the zipped masks and deltas. *)
Definition accumulate (masks : list (list bool)) (deltas : list tensor)
           (zero : list num) : list num :=
  fold_left (fun acc md =>
               map2 (fun (m : bool) xs => if m then nadd (fst xs) (snd xs)
                                          else fst xs)
                    (fst md)
                    (combine acc (data (snd md))))
            (combine masks deltas)
            zero.

(** [masks.sum(0).clamp(1)]: the number of deltas included at each
    element, floored at 1. *)
Definition mask_counts (masks : list (list bool)) (size : nat) : list Qc :=
  map (fun i => Qcmax (ofnat (length (filter (fun m => nth i m false) masks))) 1)
      (seq 0 size).

Definition rescalar_of (probability rescale : Qc) : result num :=
  if Qceqb probability 1 then Ok (Fin 1)
  else
    r <- pypow (1 - probability) rescale ;;
    Ok (if isfinite r then r else Fin 1).

Definition dropout (delta0 : tensor) (deltas : list tensor)
           (probability rescale overlap overlap_emphasis seed : Qc)
  : result tensor :=
  let seed := if Qcltb seed 0 then None else Some (pyint seed) in
  deltas <- stack (delta0 :: deltas) ;;
  let size := numel delta0 in
  masks <- dropout_masks seed (length deltas) size
                         probability overlap overlap_emphasis ;;
  let final_delta := accumulate masks deltas (data (zeros_like delta0)) in
  rescalar <- rescalar_of probability rescale ;;
  Ok (mkTensor (shape delta0)
        (map2 (fun x c => ndiv (ndiv x (Fin c)) rescalar)
              final_delta (mask_counts masks size))).

End Dropout.

(* ------------------------------------------------------------------ *)
(** ** Geometric median *)

Section GeometricMedian.

(** The Euclidean norm behind [torch.dist(p1, p2, p=2)]. *)
Variable l2norm : list num -> num.

Definition l2distance (p1 p2 : tensor) : num := l2norm (data (tsub p1 p2)).

Definition weighted_average (points : list tensor) (weights : list num)
  : result tensor :=
  ts <- stack (map2 (fun p w => tmuls p w) points weights) ;;
  Ok (tdivs (sum0 ts) (nsum weights)).

Definition geometric_median_objective (median : tensor) (points : list tensor)
           (weights : list num) : num :=
  let ds := map2 nmul (map (fun point => l2distance point median) points) weights in
  ndiv (nsum ds) (Fin (ofnat (length ds))).

(** One Weiszfeld iteration: the new weights, estimate and objective. *)
Definition weiszfeld_step (models : list tensor) (weights : list num)
           (eps : Qc) (median : tensor) : result (list num * tensor * num) :=
  let denom := map (fun p => l2distance p median) models in
  let new_weights := map2 ndiv weights (map (fun d => clamp_min d eps) denom) in
  median <- weighted_average models new_weights ;;
  Ok (new_weights, median, geometric_median_objective median models weights).

(** The [for] loop over [range(iters)] with its [break]; the last
    component counts the iterations performed. *)
Fixpoint weiszfeld_loop (iters : nat) (models : list tensor) (weights : list num)
         (eps ftol : Qc) (new_weights : list num) (median : tensor)
         (objective_value : num) (done : nat) : result (list num * nat) :=
  match iters with
  | O => Ok (new_weights, done)
  | S iters' =>
      let prev_obj_value := objective_value in
      st <- weiszfeld_step models weights eps median ;;
      let '(new_weights, median, objective_value) := st in
      if nleb (nabs (nsub prev_obj_value objective_value))
              (nmul (Fin ftol) objective_value)
      then Ok (new_weights, S done)
      else weiszfeld_loop iters' models weights eps ftol
                          new_weights median objective_value (S done)
  end.

(** [geometric_median_list_of_array], returning also the number of
    Weiszfeld iterations it ran. *)
Definition geometric_median_iter (models : list tensor) (eps maxiter ftol : Qc)
  : result (tensor * nat) :=
  match models with
  | [] => Raise IndexError
  | _ :: _ =>
      let weights := repeat (Fin 1) (length models) in
      (* initialize median estimate at mean *)
      median <- weighted_average models weights ;;
      let objective_value := geometric_median_objective median models weights in
      r <- weiszfeld_loop (Z.to_nat (Z.max 0 (pyround maxiter))) models weights
                          eps ftol weights median objective_value 0 ;;
      let '(new_weights, iterations) := r in
      res <- weighted_average models new_weights ;;
      Ok (res, iterations)
  end.

Definition geometric_median_list_of_array (models : list tensor)
           (eps maxiter ftol : Qc) : result tensor :=
  r <- geometric_median_iter models eps maxiter ftol ;;
  Ok (fst r).

Definition geometric_median (models : list tensor) (eps maxiter ftol : Qc)
  : result tensor :=
  geometric_median_list_of_array models eps maxiter ftol.

End GeometricMedian.

(* ------------------------------------------------------------------ *)
(** ** Executable stand-ins for the library primitives

    Rational approximations with the range behaviour of the floating-point
    originals; they serve to run the operators above on concrete inputs. *)

Module Prims.

Open Scope Qc_scope.

(** Square root, exact on squares of rationals and truncated to a
    multiple of [2^-32] otherwise. *)
Definition sqrt_approx (q : Qc) : Qc :=
  let n := Qnum q in
  let d := Qden q in
  Q2Qc (Z.sqrt (n * Zpos d * 2 ^ 64) # (d * 2 ^ 32)).

(** The float32 Euclidean norm: a norm beyond the largest finite float32
    is infinite. *)
Definition l2norm_f32 (xs : list num) : num :=
  match nsum (map (fun x => nmul x x) xs) with
  | Fin s => let r := sqrt_approx s in if Qcltb FLT_MAX r then PInf else Fin r
  | PInf => PInf
  | NInf | NaN => NaN
  end.

Definition sin_taylor (x : Qc) : Qc :=
  x - x ^ 3 / ofZ 6 + x ^ 5 / ofZ 120 - x ^ 7 / ofZ 5040 + x ^ 9 / ofZ 362880.

Definition sin_approx (x : num) : num :=
  match x with
  | Fin q => Fin (sin_taylor q)
  | _ => NaN
  end.

Definition arccos_approx (x : num) : num :=
  match x with
  | Fin d =>
      if Qcltb d (- (1)) || Qcltb 1 d then NaN
      else if Qceqb d 1 then Fin 0
      else if Qceqb d (- (1)) then Fin math_pi
      else Fin (math_pi / ofZ 2
                - (d + d ^ 3 / ofZ 6 + ofZ 3 * d ^ 5 / ofZ 40
                   + ofZ 15 * d ^ 7 / ofZ 336))
  | _ => NaN
  end.

(** Tangent of [x = math_pi * t / 2]: zero exactly at even [t], a large
    finite value at odd [t] (no double is an odd multiple of pi/2), and a
    rational interpolant between. *)
Definition tan_rat (x : Qc) : Qc :=
  let t := ofZ 2 * x / math_pi in
  let r := t - ofZ 2 * ofZ (pyfloor (t / ofZ 2)) in
  if Qceqb r 0 then 0
  else if Qceqb r 1 then ofZ 16331239353195370
  else
    let u := r * (ofZ 2 - r) in
    u * (Q2Qc (355 # 452) - Q2Qc (5053 # 33960) * u) / (1 - r).

(** Exponential with the binary64 range: overflow to infinity above
    709.78, underflow to zero below -745.13. *)
Definition exp_f64 (x : Qc) : num :=
  if Qcltb (Q2Qc (70978 # 100)) x then PInf
  else if Qcltb x (- Q2Qc (74513 # 100)) then Fin 0
  else Fin ((1 + x / ofZ 1024) ^ 1024).

(** [x ** y], exact for integral [y]; other exponents are rounded to the
    nearest integer. *)
Definition pypow_int (x y : Qc) : result num :=
  let e := pyround y in
  if (0 <=? e)%Z then Ok (Fin (x ^ Z.to_nat e))
  else if Qceqb x 0 then Raise ZeroDivisionError
  else Ok (Fin (1 / x ^ Z.to_nat (- e))).

(** A linear congruential generator. *)
Definition lcg_bits (seed : option Z) (k : nat) : N :=
  let s := match seed with Some z => Z.to_N (Z.abs z) | None => 88172645463325252%N end in
  ((s + N.of_nat k + 1) * 6364136223846793005 + 1442695040888963407)
    mod 2 ^ 64 / 2 ^ 11.

End Prims.

(* ------------------------------------------------------------------ *)
(** ** Predicates used in the statements *)

Section StatementPredicates.

Open Scope Qc_scope.

(** The elements at flat index [p] across the slices of a stack. *)
Definition column (p : nat) (ts : list tensor) : list num :=
  map (fun t => nth p (data t) NaN) ts.

Definition all_numel (N : nat) (ts : list tensor) : Prop :=
  Forall (fun t => length (data t) = N) ts.

(** A product with zero is zero, or NaN when the other factor is not
    finite. *)
Definition zero_or_nan (x : num) : Prop := x = Fin 0 \/ x = NaN.

Definition sort_le (x y : num) : Prop := sort_leb x y = true.

Definition nan_free (a : tensor) : Prop :=
  Forall (fun x => isnan x = false) (data a).

(** The number of elements [filter_top_k] keeps at threshold [t]. *)
Definition kept_count (a : tensor) (t : num) : nat :=
  length (filter (fun x => ngeb (nabs x) t) (data a)).

Definition normalized_tilt (tilt : Qc) : Qc :=
  tilt - ofZ (pyfloor (floordiv tilt (ofZ 4) * ofZ 4)).

(** The values a dot product clamped to [-1, 1] can take. *)
Definition in_unit_range (d : num) : Prop :=
  d = NaN \/ exists q, d = Fin q /\ - (1) <= q /\ q <= 1.

Definition zeros (l : list num) : Prop := Forall (fun x => x = Fin 0) l.

End StatementPredicates.

(* ------------------------------------------------------------------ *)
(** ** Concrete inputs *)

Definition ws_a : tensor := mkTensor [2%nat] [Fin (ofZ 1); Fin (ofZ 2)].

Definition ws_b : tensor := mkTensor [2%nat] [Fin (ofZ 5); Fin (ofZ (-3))].



Definition gm_ftol : Qc := Q2Qc (1 # 100000000000000000000).

Definition ties_models : list tensor :=
  [mkTensor [2%nat] [Fin (ofZ 1); Fin (ofZ 2)];
   mkTensor [2%nat] [Fin (ofZ (-1)); Fin (ofZ 3)]].

Definition ties_deltas : list tensor :=
  match trim ties_models 1 with Ok ds => ds | Raise _ => [] end.

Definition trim_model : tensor :=
  mkTensor [4%nat] [Fin (ofZ 1); Fin (ofZ 2); Fin (ofZ 3); Fin (ofZ 4)].

Definition slerp_zero : tensor := mkTensor [2%nat] [Fin 0; Fin 0].

Definition slerp_ones : tensor := mkTensor [2%nat] [Fin 1; Fin 1].

Definition slerp_huge : tensor :=
  mkTensor [2%nat] [Fin (ofZ (3 * 10 ^ 38)); Fin (ofZ (3 * 10 ^ 38))].

Definition drop_delta0 : tensor :=
  mkTensor [3%nat] [Fin (ofZ 1); Fin (ofZ 2); Fin (ofZ 3)].

Definition drop_delta1 : tensor :=
  mkTensor [3%nat] [Fin (ofZ 4); Fin (ofZ 5); Fin (ofZ 6)].

(* ------------------------------------------------------------------ *)
(** ** Further operators of the module *)

Fixpoint map3 {A B C D : Type} (f : A -> B -> C -> D)
         (l : list A) (m : list B) (n : list C) : list D :=
  match l, m, n with
  | x :: l', y :: m', z :: n' => f x y z :: map3 f l' m' n'
  | _, _, _ => []
  end.

Definition tabs (a : tensor) : tensor := tmap nabs a.

(** [torch.maximum] and [torch.minimum]: NaN is propagated. *)
Definition nmax (x y : num) : num :=
  match x, y with
  | NaN, _ | _, NaN => NaN
  | _, _ => if nltb x y then y else x
  end.

Definition nmin (x y : num) : num :=
  match x, y with
  | NaN, _ | _, NaN => NaN
  | _, _ => if nltb y x then y else x
  end.

Section Perpendicular.

(** [torch.linalg.norm]. *)
Variable l2norm : list num -> num.

Definition perpendicular_component (a b : tensor) : tensor :=
let norm_a := l2norm (data a) in
let res := tsub b (tmuls a (tsum (tmul (tdivs a norm_a) (tdivs b norm_a)))) in
if any_isnan res then zeros_like a else res.

End Perpendicular.

(* ------------------------------------------------------------------ *)
(** ** tensor_sum *)

(** Elements per index of the leading axis. *)
Definition row_numel (shp : list nat) : nat := fold_right Nat.mul 1%nat (tl shp).

(** [dst[start:end] = src[start:end]] along the leading axis, for
    [0 <= start], [0 <= end] and operands of one shape; the slice is empty
    when [end <= start]. *)
Definition assign_rows (dst src : tensor) (start end_ : Z) : tensor :=
  let row := row_numel (shape dst) in
  let s := (Z.to_nat start * row)%nat in
  let e := (Nat.max (Z.to_nat start) (Z.to_nat end_) * row)%nat in
  mkTensor (shape dst)
           (firstn s (data dst) ++ firstn (e - s) (skipn s (data src))
                   ++ skipn e (data dst)).

(** The assignments write into the operand that is returned. *)
Definition tensor_sum (a b : tensor) (width offset : Qc) : tensor :=
  match shape a with
  | [] => if Qcltb (Q2Qc (1 # 2)) width then b else a
  | size0 :: _ =>
      let '(start_i, end_i, region_is_inverted) :=
        ratio_to_region width offset (Z.of_nat size0) in
      if region_is_inverted then assign_rows b a start_i end_i
      else assign_rows a b start_i end_i
  end.

(* ------------------------------------------------------------------ *)
(** ** The tensor operations of clamp *)

Module Method.

(** [functools.reduce(f, bounds)] needs at least one bound: the first one
  is an argument of its own. *)
Definition reduce (f : tensor -> tensor -> tensor) (b0 : tensor)
         (bounds : list tensor) : tensor :=
fold_left f bounds b0.

Definition tmaximum := tmap2 nmax.
Definition tminimum := tmap2 nmin.

Definition twhere (c : list bool) (x y : tensor) : tensor :=
mkTensor (shape y) (map3 (fun (b : bool) u v => if b then u else v)
                         c (data x) (data y)).

(** One round of the tightening loop over the stacked bounds. *)
Definition tighten (average : tensor) (sl : tensor * tensor) (bound : tensor)
: tensor * tensor :=
let '(smallest_positive, largest_negative) := sl in
(twhere (map3 (fun s b v => ngeb s b && ngeb b v)
              (data smallest_positive) (data bound) (data average))
        bound smallest_positive,
 twhere (map3 (fun l b v => nleb l b && nleb b v)
              (data largest_negative) (data bound) (data average))
        bound largest_negative).

End Method.

(* ------------------------------------------------------------------ *)
(** ** Model stock and the extended TIES merge *)

Section ModelStock.

(** [torch.nn.CosineSimilarity(dim=-1, eps=cos_eps)]; it raises on
  0-dimensional operands. *)
Variable cosine_similarity : Qc -> tensor -> tensor -> result tensor.
(** The broadcasting product of two tensors, one of them the column
  vector [t]. *)
Variable broadcast_mul : tensor -> tensor -> tensor.
Variable l2norm : list num -> num.

(** The pairs [(deltas[i], deltas[i + 1])] with [i + 1 < n]. *)
Fixpoint consecutive_pairs (deltas : list tensor) : list (tensor * tensor) :=
match deltas with
| d0 :: ((d1 :: _) as rest) => (d0, d1) :: consecutive_pairs rest
| _ => []
end.

Definition get_model_stock_t (deltas : list tensor) (cos_eps : Qc)
: result tensor :=
let n := Fin (ofnat (length deltas)) in
cos_thetas <- mapM (fun p => cosine_similarity cos_eps (fst p) (snd p))
                   (consecutive_pairs deltas) ;;
stacked <- stack cos_thetas ;;
let cos_theta := tdivs (sum0 stacked) (Fin (ofnat (length stacked))) in
let t := tmap (fun c => ndiv (nmul n c)
                             (nadd (Fin 1) (nmul (nsub n (Fin 1)) c)))
              cos_theta in
(* unsqueeze(-1) *)
Ok (mkTensor (shape t ++ [1%nat]) (data t)).

Definition model_stock_for_tensor (deltas : list tensor) (cos_eps : Qc)
: result tensor :=
w_avg <- n_average deltas ;;
t <- get_model_stock_t deltas cos_eps ;;
Ok (tmap nan_to_num (broadcast_mul t w_avg)).

Definition ties_sum_extended (models : list tensor)
         (k vote_sgn apply_stock cos_eps apply_median eps maxiter ftol : Qc)
: result tensor :=
r <- ties_sum_deltas models k vote_sgn ;;
let '(filtered_delta, param_counts) := r in
if Qcleb apply_median 0 then
  if Qcleb apply_stock 0 then
    Ok (tmap nan_to_num
             (tdiv (tmuls (sum0 filtered_delta) (Fin 1)) param_counts))
  else
    t <- get_model_stock_t filtered_delta cos_eps ;;
    Ok (tmap nan_to_num
             (tdiv (broadcast_mul (sum0 filtered_delta) t) param_counts))
else
  m <- geometric_median_list_of_array l2norm filtered_delta eps maxiter ftol ;;
  Ok (tmap nan_to_num m).

End ModelStock.

(* ------------------------------------------------------------------ *)
(** ** select_max_delta *)

Section SelectMaxDelta.

(** [Tensor.std()]: the standard deviation over all the elements. *)
Variable std : list num -> num.

Definition select_max_delta (a b : tensor) (alpha : Qc) : tensor :=
let a_abs := tabs (tdivs a (std (data a))) in
let b_abs := tabs (tdivs b (std (data b))) in
Method.twhere (map2 ngeb (data (tscale (Fin (1 - alpha)) a_abs))
                         (data (tscale (Fin alpha) b_abs)))
              a b.

End SelectMaxDelta.

(* ------------------------------------------------------------------ *)
(** ** Further predicates used in the statements *)

(** A finite value between two bounds. *)
Definition in_range (lo hi : Qc) (x : num) : Prop :=
  exists q : Qc, x = Fin q /\ (lo <= q)%Qc /\ (q <= hi)%Qc.

(** A finite value that is not negative. *)
Definition nonneg (x : num) : Prop := exists q : Qc, x = Fin q /\ (0 <= q)%Qc.

Definition all_nan (l : list num) : Prop := Forall (fun x => x = NaN) l.

(** The element at flat index [i]. *)
Definition at_ (a : tensor) (i : nat) : num := nth i (data a) NaN.

(* ------------------------------------------------------------------ *)
(** ** Further concrete inputs *)

Definition rows_a : tensor :=
  mkTensor [4%nat; 2%nat] (map (fun z => Fin (ofZ z)) [1; 2; 3; 4; 5; 6; 7; 8]%Z).

Definition rows_b : tensor :=
  mkTensor [4%nat; 2%nat]
           (map (fun z => Fin (ofZ z)) [10; 20; 30; 40; 50; 60; 70; 80]%Z).

Definition perp_b : tensor := mkTensor [2%nat] [Fin (ofZ 1); Fin (ofZ 2)].

Definition clamp_a : tensor := mkTensor [3%nat] (map (fun z => Fin (ofZ z)) [0; 5; 9]%Z).

Definition clamp_b0 : tensor := mkTensor [3%nat] (map (fun z => Fin (ofZ z)) [1; 2; 3]%Z).

Definition clamp_b1 : tensor := mkTensor [3%nat] (map (fun z => Fin (ofZ z)) [4; 6; 2]%Z).

Definition clamp_b2 : tensor := mkTensor [3%nat] (map (fun z => Fin (ofZ z)) [2; 8; 7]%Z).

(* ------------------------------------------------------------------ *)
(** ** Floating-point arithmetic

    An IEEE-754 operation returns the exact result rounded to the nearest
    number of its format, or an infinity when that overflows.  A rounding
    is a function [rnd] from the exact rational result to the stored
    [num].  The operators of this module take their roundings as
    arguments: [rnd] for the arithmetic of Python floats (binary64), [rdt]
    for the arithmetic of the tensors' dtype and [r32] for the conversion
    [.float()] to float32.  A Python scalar that meets a tensor is first
    converted to the dtype of the tensor, as torch does for float32 and
    float64 tensors. *)

Module Fp.

Open Scope Qc_scope.

(** *** The binary formats *)

Definition pow2 (e : Z) : Qc := Q2Qc (Qpower 2 e).

(** [floor(log2 x)] for a positive rational [x]. *)
Definition ilog2 (x : Qc) : Z :=
  let l := (Z.log2 (Qnum x) - Z.log2 (Zpos (Qden x)))%Z in
  if Qcleb (pow2 l) x then l else (l - 1)%Z.

(** The nearest multiple of [2^e], ties to the even multiple. *)
Definition nearest (e : Z) (x : Qc) : Qc := ofZ (pyround (x / pow2 e)) * pow2 e.

(** The binary format with [prec] significand bits and exponents below
    [emax]: around a positive [x] its numbers are the multiples of [2^e],
    with [e = ilog2 x - prec + 1] or, for subnormal numbers,
    [e = 3 - emax - prec]. *)
Definition spacing (prec emax : Z) (x : Qc) : Z :=
  Z.max (ilog2 x - prec + 1) (3 - emax - prec).

(** Round to nearest, ties to even, of a positive rational: a result of
    [2^emax] or more overflows. *)
Definition round_pos (prec emax : Z) (x : Qc) : num :=
  let r := nearest (spacing prec emax x) x in
  if Qcleb (pow2 emax) r then PInf else Fin r.

Definition round_to (prec emax : Z) (x : Qc) : num :=
  match x ?= 0 with
  | Eq => Fin 0
  | Gt => round_pos prec emax x
  | Lt => nopp (round_pos prec emax (- x))
  end.

(** The numbers of the format: a significand of [prec] bits at an
    exponent of the range, below [2^emax] in magnitude. *)
Definition representable (prec emax : Z) (x : Qc) : Prop :=
  exists m e : Z,
    x = ofZ m * pow2 e
    /\ (Z.abs m < 2 ^ prec)%Z /\ (3 - emax - prec <= e)%Z
    /\ Qcabs' x < pow2 emax.

(** Python floats and float64 tensors. *)
Definition binary64 : Qc -> num := round_to 53 1024.

(** float32 tensors. *)
Definition binary32 : Qc -> num := round_to 24 128.

(** The value of a decimal literal: the nearest number of the format. *)
Definition literal (rnd : Qc -> num) (q : Qc) : Qc :=
  match rnd q with Fin r => r | _ => 0 end.

(** *** Rounded operations *)

Section Scalars.

Variable rnd : Qc -> num.

(** A stored result: infinities and NaN are numbers of every format. *)
Definition fl (x : num) : num :=
  match x with
  | Fin q => rnd q
  | _ => x
  end.

Definition fadd (x y : num) : num := fl (nadd x y).
Definition fsub (x y : num) : num := fl (nsub x y).
Definition fmul (x y : num) : num := fl (nmul x y).
Definition fdiv (x y : num) : num := fl (ndiv x y).

(** What the proofs use of a rounding to nearest: it is monotone, it
    returns numbers of the format (which it leaves as they are), the
    fractional part of a number of the format is in the format, and so are
    0, 1 and 2. *)
Record format : Prop := {
  rnd_monotone : forall x y : Qc, x <= y -> nleb (rnd x) (rnd y) = true;
  rnd_idempotent : forall x q : Qc, rnd x = Fin q -> rnd q = Fin q;
  rnd_fraction : forall x : Qc, rnd x = Fin x -> rnd (fmod1 x) = Fin (fmod1 x);
  rnd_0 : rnd 0 = Fin 0;
  rnd_1 : rnd 1 = Fin 1;
  rnd_2 : rnd (ofZ 2) = Fin (ofZ 2)
}.

(** A tensor whose elements are numbers of the format. *)
Definition in_format (a : tensor) : Prop :=
  Forall (fun x => fl x = x) (data a).

(** *** Python scalar conversions *)

(** [float(z)], the conversion of an [int] that meets a [float]. *)
Definition float_of_int (z : Z) : result num :=
  match rnd (ofZ z) with
  | Fin q => Ok (Fin q)
  | _ => Raise OverflowError
  end.

(** [int(x)]. *)
Definition int_of (x : num) : result Z :=
  match x with
  | Fin q => Ok (pyint q)
  | NaN => Raise ValueError
  | _ => Raise OverflowError
  end.

(** [round(x)]. *)
Definition round_of (x : num) : result Z :=
  match x with
  | Fin q => Ok (pyround q)
  | NaN => Raise ValueError
  | _ => Raise OverflowError
  end.

(** [math.fmod(x, 1.0)]: exact on finite operands. *)
Definition fmod_1 (x : num) : result num :=
  match x with
  | Fin q => Ok (Fin (fmod1 q))
  | NaN => Ok NaN
  | _ => Raise ValueError
  end.

(** *** Region masking *)

Definition ratio_to_region (width offset : Qc) (n : Z) : result (Z * Z * bool) :=
  let '(offset, width) :=
    if Qcltb width 0 then (fadd (Fin offset) (Fin width), (- width)%Qc)
    else (Fin offset, width) in
  let width := Qcmin width 1 in
  offset <- (if nltb offset (Fin 0) then
               i <- int_of offset ;;
               fi <- float_of_int i ;;
               Ok (fsub (fadd (Fin 1) offset) fi)
             else Ok offset) ;;
  offset <- fmod_1 offset ;;
  nf <- float_of_int n ;;
  let s := fadd (Fin width) offset in
  if nleb s (Fin 1) then
    start <- round_of (fmul offset nf) ;;
    end_ <- round_of (fmul s nf) ;;
    Ok (start, end_, false)
  else
    start <- round_of (fmul (fsub s (Fin 1)) nf) ;;
    end_ <- round_of (fmul offset nf) ;;
    Ok (start, end_, true).

(** The assignments write into the operand that is returned. *)
Definition tensor_sum (a b : tensor) (width offset : Qc) : result tensor :=
  match shape a with
  | [] => Ok (if Qcltb (Q2Qc (1 # 2)) width then b else a)
  | size0 :: _ =>
      r <- ratio_to_region width offset (Z.of_nat size0) ;;
      let '(start_i, end_i, region_is_inverted) := r in
      Ok (if region_is_inverted then assign_rows b a start_i end_i
          else assign_rows a b start_i end_i)
  end.

(** *** The rank of the trim step *)

(** [max(int((1 - k) * numel(a)), 1)]. *)
Definition top_k_rank (n : nat) (k : Qc) : result Z :=
  nf <- float_of_int (Z.of_nat n) ;;
  i <- int_of (fmul (rnd (1 - k)) nf) ;;
  Ok (Z.max i 1).

End Scalars.

(** *** Tensor operators *)

Section Tensors.

(** Python floats. *)
Variable rnd : Qc -> num.
(** The dtype of the tensors. *)
Variable rdt : Qc -> num.
(** float32, the target of [.float()]. *)
Variable r32 : Qc -> num.

Definition weighted_sum (a b : tensor) (alpha : Qc) : tensor :=
  let one_minus_alpha := rnd (1 - alpha) in
  tmap2 (fadd rdt)
        (tmap (fmul rdt (fl rdt one_minus_alpha)) a)
        (tmap (fmul rdt (rdt alpha)) b).

(** The magnitudes are compared with the threshold in the wider of the
    two dtypes, hence as they are; the products with the 0/1 mask are
    exact. *)
Definition filter_top_k (a : tensor) (k : Qc) : result tensor :=
  k' <- top_k_rank rnd (numel a) k ;;
  k_value <- kthvalue (map (fun x => fl r32 (nabs x)) (data a)) k' ;;
  let top_k_filter := tmap (fun x => of_bool (ngeb (nabs x) k_value)) a in
  Ok (tmul a top_k_filter).

Definition trim (models : list tensor) (k : Qc) : result (list tensor) :=
  mapM (fun m => filter_top_k m k) models.

(** Sums over a list and over the slices of a stack, accumulated from the
    first term on. *)
Definition fsum (l : list num) : num :=
  match l with
  | [] => Fin 0
  | x :: l' => fold_left (fadd rdt) l' x
  end.

Definition sum0 (ts : list tensor) : tensor :=
  match ts with
  | [] => mkTensor [] []
  | t0 :: ts' => fold_left (tmap2 (fadd rdt)) ts' t0
  end.

(** [torch.mean(torch.stack(models), dim=0)]: the sum divided by the
    count. *)
Definition n_average (models : list tensor) : result tensor :=
  ts <- stack models ;;
  Ok (tmap (fun x => fdiv rdt x (rdt (ofnat (length ts)))) (sum0 ts)).

(** [torch.clamp(x, min=lo)]. *)
(** [clamp]: [a] limited at every position to the interval spanned by
    the bounds; when [stiffness] is not 0 the ends of the interval are
    first blended toward the bounds nearest to the mean of the bounds. *)
Definition clamp (a : tensor) (b0 : tensor) (bounds : list tensor)
           (stiffness : Qc) : result tensor :=
  let maximums := Method.reduce Method.tmaximum b0 bounds in
  let minimums := Method.reduce Method.tminimum b0 bounds in
  stacked <- stack (b0 :: bounds) ;;
  let average :=
    tmap (fun x => fdiv rdt x (rdt (ofnat (length stacked)))) (sum0 stacked) in
  let '(maximums, minimums) :=
    if negb (Qceqb stiffness 0) then
      let '(smallest_positive, largest_negative) :=
        fold_left (Method.tighten average) stacked (maximums, minimums) in
      (weighted_sum maximums smallest_positive stiffness,
       weighted_sum minimums largest_negative stiffness)
    else (maximums, minimums) in
  Ok (Method.tminimum (Method.tmaximum a minimums) maximums).

Definition clamp_min (x lo : num) : num :=
  match x with
  | NaN => NaN
  | _ => if nltb x lo then lo else x
  end.

Section GeometricMedian.

(** The Euclidean norm behind [torch.dist(p1, p2, p=2)]. *)
Variable l2norm : list num -> num.

(** [torch.ones] makes the initial weights float32; with float32 or
    float64 tensors every operation of the solver is then performed in the
    dtype of the tensors.  Sums over a stack are accumulated in the order
    of the list. *)

Definition l2distance (p1 p2 : tensor) : num :=
  l2norm (data (tmap2 (fsub rdt) p1 p2)).

Definition weighted_average (points : list tensor) (weights : list num)
  : result tensor :=
  ts <- stack (map2 (fun p w => tmap (fun x => fmul rdt x w) p) points weights) ;;
  Ok (tmap (fun x => fdiv rdt x (fsum weights)) (sum0 ts)).

Definition geometric_median_objective (median : tensor) (points : list tensor)
           (weights : list num) : num :=
  let ds := map2 (fmul rdt) (map (fun point => l2distance point median) points)
                 weights in
  fdiv rdt (fsum ds) (rdt (ofnat (length ds))).

(** One Weiszfeld iteration: the new weights, estimate and objective. *)
Definition weiszfeld_step (models : list tensor) (weights : list num)
           (eps : Qc) (median : tensor) : result (list num * tensor * num) :=
  let denom := map (fun p => l2distance p median) models in
  let new_weights :=
    map2 (fdiv rdt) weights (map (fun d => clamp_min d (rdt eps)) denom) in
  median <- weighted_average models new_weights ;;
  Ok (new_weights, median, geometric_median_objective median models weights).

(** The [for] loop over [range(iters)] with its [break]; the last
    component counts the iterations performed. *)
Fixpoint weiszfeld_loop (iters : nat) (models : list tensor) (weights : list num)
         (eps ftol : Qc) (new_weights : list num) (median : tensor)
         (objective_value : num) (done : nat) : result (list num * nat) :=
  match iters with
  | O => Ok (new_weights, done)
  | S iters' =>
      let prev_obj_value := objective_value in
      st <- weiszfeld_step models weights eps median ;;
      let '(new_weights, median, objective_value) := st in
      if nleb (nabs (fsub rdt prev_obj_value objective_value))
              (fmul rdt (rdt ftol) objective_value)
      then Ok (new_weights, S done)
      else weiszfeld_loop iters' models weights eps ftol
                          new_weights median objective_value (S done)
  end.

(** [geometric_median_list_of_array], returning also the number of
    Weiszfeld iterations it ran. *)
Definition geometric_median_iter (models : list tensor) (eps maxiter ftol : Qc)
  : result (tensor * nat) :=
  match models with
  | [] => Raise IndexError
  | _ :: _ =>
      let weights := repeat (Fin 1) (length models) in
      (* initialize median estimate at mean *)
      median <- weighted_average models weights ;;
      let objective_value := geometric_median_objective median models weights in
      r <- weiszfeld_loop (Z.to_nat (Z.max 0 (pyround maxiter))) models weights
                          eps ftol weights median objective_value 0 ;;
      let '(new_weights, iterations) := r in
      res <- weighted_average models new_weights ;;
      Ok (res, iterations)
  end.

Definition geometric_median_list_of_array (models : list tensor)
           (eps maxiter ftol : Qc) : result tensor :=
  r <- geometric_median_iter models eps maxiter ftol ;;
  Ok (fst r).

Definition geometric_median (models : list tensor) (eps maxiter ftol : Qc)
  : result tensor :=
  geometric_median_list_of_array models eps maxiter ftol.

End GeometricMedian.

End Tensors.

End Fp.

(* ------------------------------------------------------------------ *)
(** ** Concrete floating-point inputs *)

(** The Python floats [0.1], [0.3] and [0.25]. *)
Definition py_0_1 : Qc := Fp.literal Fp.binary64 (Q2Qc (1 # 10)).
Definition py_0_3 : Qc := Fp.literal Fp.binary64 (Q2Qc (3 # 10)).
Definition py_0_25 : Qc := Q2Qc (1 # 4).

(** The float64 tensor [[0.1]]. *)
Definition tenth : tensor := mkTensor [1%nat] [Fin py_0_1].

(** The float64 tensor [[0.1, 0.2, 0.3, 0.4]]. *)
Definition tenths : tensor :=
  mkTensor [4%nat]
           (map (fun z => Fin (Fp.literal Fp.binary64 (Q2Qc (z # 10))))
                [1; 2; 3; 4]%Z).



(* ------------------------------------------------------------------ *)
(** ** Rationals: bridging lemmas *)

Section QcFacts.

Open Scope Qc_scope.

Lemma this_plus (x y : Qc) : (this (x + y) == this x + this y)%Q.
Proof. unfold Qcplus, Q2Qc; cbn [this]; apply Qred_correct. Qed.

Lemma this_mult (x y : Qc) : (this (x * y) == this x * this y)%Q.
Proof. unfold Qcmult, Q2Qc; cbn [this]; apply Qred_correct. Qed.

Lemma this_opp (x : Qc) : (this (- x) == - this x)%Q.
Proof. unfold Qcopp, Q2Qc; cbn [this]; apply Qred_correct. Qed.

Lemma this_minus (x y : Qc) : (this (x - y) == this x - this y)%Q.
Proof. unfold Qcminus. rewrite this_plus, this_opp. reflexivity. Qed.

Lemma this_Q2Qc (q : Q) : (this (Q2Qc q) == q)%Q.
Proof. unfold Q2Qc; cbn [this]; apply Qred_correct. Qed.

Lemma this_ofZ (z : Z) : (this (ofZ z) == inject_Z z)%Q.
Proof. unfold ofZ. apply this_Q2Qc. Qed.

Lemma Qcltb_true x y : Qcltb x y = true <-> x < y.
Proof.
  unfold Qcltb. rewrite Qclt_alt.
  destruct (x ?= y); split; congruence.
Qed.

Lemma Qcltb_false x y : Qcltb x y = false <-> y <= x.
Proof.
  unfold Qcltb. rewrite (Qcge_alt x y).
  destruct (x ?= y); split; congruence.
Qed.

Lemma Qcleb_true x y : Qcleb x y = true <-> x <= y.
Proof.
  unfold Qcleb. rewrite Qcle_alt.
  destruct (x ?= y); split; congruence.
Qed.

Lemma Qcleb_false x y : Qcleb x y = false <-> y < x.
Proof.
  unfold Qcleb. rewrite (Qcgt_alt x y).
  destruct (x ?= y); split; congruence.
Qed.

Lemma Qceqb_true x y : Qceqb x y = true <-> x = y.
Proof.
  unfold Qceqb. rewrite Qceq_alt.
  destruct (x ?= y); split; congruence.
Qed.

Lemma Qceqb_false x y : Qceqb x y = false <-> x <> y.
Proof.
  rewrite <- Qceqb_true. destruct (Qceqb x y); split; congruence.
Qed.

Lemma Qceqb_refl x : Qceqb x x = true.
Proof. apply Qceqb_true; reflexivity. Qed.

Lemma Qc_eq_this (x y : Qc) : (this x == this y)%Q -> x = y.
Proof. apply Qc_is_canon. Qed.

End QcFacts.

(** Case analysis on the boolean comparisons of a goal, leaving the
    corresponding order facts as hypotheses. *)
Ltac qc_cases :=
  repeat match goal with
  | |- context [Qcltb ?x ?y] =>
      let H := fresh "Hc" in
      destruct (Qcltb x y) eqn:H;
      [apply Qcltb_true in H | apply Qcltb_false in H]
  | |- context [Qcleb ?x ?y] =>
      let H := fresh "Hc" in
      destruct (Qcleb x y) eqn:H;
      [apply Qcleb_true in H | apply Qcleb_false in H]
  | |- context [Qceqb ?x ?y] =>
      let H := fresh "Hc" in
      destruct (Qceqb x y) eqn:H;
      [apply Qceqb_true in H | apply Qceqb_false in H]
  end.

(** Translation of an order goal on [Qc] to [Q], where [lra] applies. *)
Ltac qc2q :=
  unfold Qcle, Qclt in *;
  repeat match goal with
  | H : context [this (_ + _)%Qc] |- _ => rewrite this_plus in H
  | H : context [this (_ * _)%Qc] |- _ => rewrite this_mult in H
  | H : context [this (_ - _)%Qc] |- _ => rewrite this_minus in H
  | H : context [this (- _)%Qc] |- _ => rewrite this_opp in H
  | H : context [this (ofZ _)] |- _ => rewrite this_ofZ in H
  | H : context [this (Q2Qc _)] |- _ => rewrite this_Q2Qc in H
  | |- context [this (_ + _)%Qc] => rewrite this_plus
  | |- context [this (_ * _)%Qc] => rewrite this_mult
  | |- context [this (_ - _)%Qc] => rewrite this_minus
  | |- context [this (- _)%Qc] => rewrite this_opp
  | |- context [this (ofZ _)] => rewrite this_ofZ
  | |- context [this (Q2Qc _)] => rewrite this_Q2Qc
  end.

Ltac qc_lra := first [ apply Qc_eq_this | idtac ]; qc2q; lra.

(* ------------------------------------------------------------------ *)
(** ** Python scalar conversions *)

Section PyFloatFacts.

Open Scope Qc_scope.

Lemma floor_le (x : Qc) : ofZ (Qfloor x) <= x.
Proof. qc2q. apply Qfloor_le. Qed.

Lemma lt_floor (x : Qc) : x < ofZ (Qfloor x) + 1.
Proof.
  qc2q. pose proof (Qlt_floor x) as H.
  rewrite inject_Z_plus in H. exact H.
Qed.

Lemma floor_unique (x : Qc) (z : Z) :
  ofZ z <= x -> x < ofZ z + 1 -> Qfloor x = z.
Proof.
  intros H1 H2. qc2q.
  assert (Ha : (z <= Qfloor x)%Z).
  { rewrite <- (Qfloor_Z z). apply Qfloor_resp_le. exact H1. }
  assert (Hb : (Qfloor x < z + 1)%Z).
  { rewrite Zlt_Qlt. rewrite inject_Z_plus.
    eapply Qle_lt_trans; [apply Qfloor_le | exact H2]. }
  lia.
Qed.

Lemma pyround_cases (x : Qc) :
  let f := Qfloor x in
  (pyround x = f /\ x <= ofZ f + Q2Qc (1 # 2))
  \/ (pyround x = (f + 1)%Z /\ ofZ f + Q2Qc (1 # 2) <= x).
Proof.
  intro f. unfold pyround. fold f.
  destruct (Qccompare (x - ofZ f) (Q2Qc (1 # 2))) eqn:E.
  - apply Qceq_alt in E.
    destruct (Z.even f); [left | right]; split; auto;
      rewrite <- E; qc_lra.
  - apply Qclt_alt in E. left; split; auto. qc_lra.
  - apply Qcgt_alt in E. right; split; auto. qc_lra.
Qed.

Lemma pyround_mono (x y : Qc) : x <= y -> (pyround x <= pyround y)%Z.
Proof.
  intros Hxy.
  assert (Hf : (Qfloor x <= Qfloor y)%Z) by (apply Qfloor_resp_le; exact Hxy).
  destruct (Qcle_lt_or_eq _ _ Hxy) as [Hlt | Heq]; [| subst; lia].
  destruct (pyround_cases x) as [[Ex Hx] | [Ex Hx]];
    destruct (pyround_cases y) as [[Ey Hy] | [Ey Hy]];
    rewrite Ex, Ey; try lia.
  destruct (Z.eq_dec (Qfloor x) (Qfloor y)) as [E | NE]; [| lia].
  exfalso. rewrite E in Hx. qc_lra.
Qed.

Lemma pyround_ofZ (z : Z) : pyround (ofZ z) = z.
Proof.
  assert (Hf : Qfloor (ofZ z) = z).
  { apply floor_unique; qc_lra. }
  destruct (pyround_cases (ofZ z)) as [[E _] | [E H]]; rewrite E, Hf; auto.
  exfalso. rewrite Hf in H. qc_lra.
Qed.

Lemma pyround_0 : pyround 0 = 0%Z.
Proof. reflexivity. Qed.

Lemma ofZ_pos (z : Z) : (0 < z)%Z -> 0 < ofZ z.
Proof. intros H. qc2q. rewrite Zlt_Qlt in H. exact H. Qed.

(** [int] truncates toward zero. *)
Lemma pyint_nonneg (x : Qc) : 0 <= x -> pyint x = Qfloor x.
Proof.
  intros H. unfold pyint, Qfloor. destruct x as [[n d] c]. cbn [this Qnum Qden].
  apply Z.quot_div_nonneg; [| lia].
  unfold Qcle, Qle in H. cbn in H. lia.
Qed.

Lemma pyint_neg (x : Qc) : x < 0 -> pyint x = (- Qfloor (- x)%Qc)%Z.
Proof.
  intros H.
  assert (Hn : 0 <= - x) by qc_lra.
  rewrite <- (pyint_nonneg Hn).
  unfold pyint. destruct x as [[n d] c]. unfold Qcopp, Q2Qc. cbn [this].
  rewrite Qred_opp. cbn [this] in c. rewrite c. cbn [Qopp Qnum Qden].
  rewrite Z.quot_opp_l by lia. lia.
Qed.

Lemma fmod1_range (x : Qc) : 0 <= x -> 0 <= fmod1 x /\ fmod1 x < 1.
Proof.
  intros H. unfold fmod1. rewrite (pyint_nonneg H).
  pose proof (floor_le x). pose proof (lt_floor x).
  split; qc_lra.
Qed.

Lemma ofZ_opp (z : Z) : ofZ (- z) = - ofZ z.
Proof. apply Qc_eq_this. qc2q. rewrite inject_Z_opp. reflexivity. Qed.

Lemma pyint_frac_neg (x : Qc) :
  x < 0 -> - (1) < x - ofZ (pyint x) /\ x - ofZ (pyint x) <= 0.
Proof.
  intros H. rewrite (pyint_neg H), ofZ_opp.
  pose proof (floor_le (- x)%Qc). pose proof (lt_floor (- x)%Qc).
  set (f := ofZ (Qfloor (- x)%Qc)) in *.
  split; qc_lra.
Qed.

End PyFloatFacts.

(* ------------------------------------------------------------------ *)
(** ** Lists and tensors *)

Section ListFacts.

Open Scope nat_scope.

Context {A B C : Type}.

Lemma map2_length (f : A -> B -> C) (l : list A) (m : list B) :
  length l = length m -> length (map2 f l m) = length l.
Proof.
  revert m. induction l as [| x l IH]; intros [| y m] H; cbn in *; try lia.
  rewrite IH; lia.
Qed.

Lemma map2_nth (f : A -> B -> C) (l : list A) (m : list B) (i : nat) da db dc :
  i < length l -> i < length m ->
  nth i (map2 f l m) dc = f (nth i l da) (nth i m db).
Proof.
  revert l m. induction i as [| i IH]; intros [| x l] [| y m] Hl Hm;
    cbn in *; try lia; auto.
  apply IH; lia.
Qed.

Lemma map2_same (f : A -> A -> C) (l : list A) :
  map2 f l l = map (fun x => f x x) l.
Proof. induction l; cbn; congruence. Qed.

Lemma map2_map_l {D : Type} (f : D -> B -> C) (g : A -> D) l m :
  map2 f (map g l) m = map2 (fun x y => f (g x) y) l m.
Proof.
  revert m. induction l as [| x l IH]; intros [| y m]; cbn; auto.
  rewrite IH; auto.
Qed.

Lemma map2_map_r {D : Type} (f : A -> D -> C) (g : B -> D) l m :
  map2 f l (map g m) = map2 (fun x y => f x (g y)) l m.
Proof.
  revert m. induction l as [| x l IH]; intros [| y m]; cbn; auto.
  rewrite IH; auto.
Qed.

Lemma map2_ext_Forall (f g : A -> B -> C) (P : A -> Prop) (Q : B -> Prop) l m :
  (forall x y, P x -> Q y -> f x y = g x y) ->
  Forall P l -> Forall Q m -> map2 f l m = map2 g l m.
Proof.
  intros E Hl. revert m.
  induction Hl as [| x l Hx Hl IH]; intros m Hm; [reflexivity |].
  destruct Hm as [| y m Hy Hm]; [reflexivity |].
  cbn. rewrite E, IH; auto.
Qed.

Lemma map2_fst (l : list A) (m : list B) :
  length l = length m -> map2 (fun x _ => x) l m = l.
Proof.
  revert m. induction l as [| x l IH]; intros [| y m] H; cbn in *;
    try lia; auto.
  rewrite IH; auto.
Qed.

Lemma map2_snd (l : list A) (m : list B) :
  length l = length m -> map2 (fun _ y => y) l m = m.
Proof.
  revert m. induction l as [| x l IH]; intros [| y m] H; cbn in *;
    try lia; auto.
  rewrite IH; auto.
Qed.

Lemma map_id_Forall (f : A -> A) (P : A -> Prop) (l : list A) :
  (forall x, P x -> f x = x) -> Forall P l -> map f l = l.
Proof.
  intros E H. induction H as [| x l Hx Hl IH]; cbn; [reflexivity |].
  rewrite E, IH; auto.
Qed.

End ListFacts.

(* ------------------------------------------------------------------ *)
(** ** Arithmetic of extended numbers *)

Section NumFacts.

Open Scope Qc_scope.

Lemma nmul_1_l (x : num) : nmul (Fin 1) x = x.
Proof. destruct x; cbn; auto. f_equal. ring. Qed.

Lemma nmul_1_r (x : num) : nmul x (Fin 1) = x.
Proof. destruct x; cbn; auto. f_equal. ring. Qed.

Lemma nmul_0_l_fin (q : Qc) : nmul (Fin 0) (Fin q) = Fin 0.
Proof. cbn. f_equal. ring. Qed.

Lemma nadd_0_r (x : num) : nadd x (Fin 0) = x.
Proof. destruct x; cbn; auto. f_equal. ring. Qed.

Lemma nadd_0_l (x : num) : nadd (Fin 0) x = x.
Proof. destruct x; cbn; auto. f_equal. ring. Qed.

Lemma ndiv_1_r (x : num) : ndiv x (Fin 1) = x.
Proof.
  destruct x; cbn; auto.
  f_equal. field. discriminate.
Qed.

Lemma isfinite_Fin (x : num) : isfinite x = true -> exists q, x = Fin q.
Proof. destruct x; cbn; try discriminate. eauto. Qed.

Lemma nmul_0_r_zero_or_nan (x : num) : zero_or_nan (nmul x (Fin 0)).
Proof.
  destruct x as [q | | |]; [left | right | right | right]; try reflexivity.
  cbn. f_equal. ring.
Qed.

Lemma nadd_zero_or_nan (x y : num) :
  zero_or_nan x -> zero_or_nan y -> zero_or_nan (nadd x y).
Proof.
  intros [-> | ->] [-> | ->]; [left | right | right | right]; reflexivity.
Qed.

Lemma ndiv_zero_or_nan_by_0 (x : num) :
  zero_or_nan x -> ndiv x (Fin 0) = NaN.
Proof. intros [-> | ->]; reflexivity. Qed.

End NumFacts.

(* ------------------------------------------------------------------ *)
(** ** Equality of tensors *)

Section TensorEquality.

Open Scope Qc_scope.

Lemma tensor_eq (a b : tensor) :
  shape a = shape b -> data a = data b -> a = b.
Proof. destruct a, b; cbn; intros -> ->; reflexivity. Qed.

End TensorEquality.

(* ------------------------------------------------------------------ *)
(** ** Stacked tensors *)

Section Stacked.

Open Scope nat_scope.

Lemma fold_tadd_length (ts : list tensor) (acc : tensor) (N : nat) :
  length (data acc) = N -> all_numel N ts ->
  length (data (fold_left tadd ts acc)) = N.
Proof.
  intros Hacc H. revert acc Hacc.
  induction H as [| t ts Ht Hts IH]; intros acc Hacc; cbn; auto.
  apply IH. unfold tadd, tmap2. cbn [data].
  rewrite map2_length; congruence.
Qed.

Lemma fold_tadd_nth (ts : list tensor) (acc : tensor) (N p : nat) :
  length (data acc) = N -> all_numel N ts -> p < N ->
  nth p (data (fold_left tadd ts acc)) NaN
  = fold_left nadd (column p ts) (nth p (data acc) NaN).
Proof.
  intros Hacc H Hp. revert acc Hacc.
  induction H as [| t ts Ht Hts IH]; intros acc Hacc; cbn; auto.
  rewrite IH.
  - f_equal. unfold tadd, tmap2. cbn [data].
    apply map2_nth; lia.
  - unfold tadd, tmap2. cbn [data]. rewrite map2_length; congruence.
Qed.

Lemma zeros_like_nth (t : tensor) (p : nat) :
  p < length (data t) -> nth p (data (zeros_like t)) NaN = Fin 0.
Proof.
  intros Hp. unfold zeros_like, tmap. cbn [data].
  rewrite nth_indep with (d' := (fun _ : num => Fin 0) NaN)
    by (rewrite length_map; exact Hp).
  exact (map_nth (fun _ : num => Fin 0%Qc) (data t) NaN p).
Qed.

Lemma sum0_length (ts : list tensor) (N : nat) :
  ts <> [] -> all_numel N ts -> length (data (sum0 ts)) = N.
Proof.
  intros Hne H. destruct ts as [| t0 ts]; [congruence |].
  unfold sum0, sum_dim0. apply fold_tadd_length; auto.
  unfold zeros_like, tmap. cbn [data]. rewrite length_map.
  inversion H; auto.
Qed.

Lemma sum0_nth (ts : list tensor) (N p : nat) :
  ts <> [] -> all_numel N ts -> p < N ->
  nth p (data (sum0 ts)) NaN = nsum (column p ts).
Proof.
  intros Hne H Hp. destruct ts as [| t0 ts]; [congruence |].
  unfold sum0, sum_dim0.
  assert (H0 : length (data t0) = N) by (inversion H; auto).
  rewrite fold_tadd_nth with (N := N); auto.
  - rewrite zeros_like_nth by lia. reflexivity.
  - unfold zeros_like, tmap. cbn [data]. rewrite length_map. exact H0.
Qed.

Lemma same_shape_true (a b : tensor) :
  same_shape a b = true <-> shape a = shape b.
Proof.
  unfold same_shape. destruct (list_eq_dec Nat.eq_dec (shape a) (shape b));
    split; congruence.
Qed.

Lemma stack_ok (ts : list tensor) (shp : list nat) :
  ts <> [] -> Forall (fun t => shape t = shp) ts -> stack ts = Ok ts.
Proof.
  intros Hne H. destruct ts as [| t0 ts]; [congruence |].
  unfold stack.
  assert (E : forallb (same_shape t0) (t0 :: ts) = true).
  { apply forallb_forall. intros t Ht. apply same_shape_true.
    rewrite Forall_forall in H.
    rewrite (H t0 (or_introl eq_refl)), (H t Ht). reflexivity. }
  rewrite E. reflexivity.
Qed.


Lemma mapM_Forall2 {A B : Type} (f : A -> result B) (l : list A) (r : list B) :
  mapM f l = Ok r -> Forall2 (fun a b => f a = Ok b) l r.
Proof.
  revert r. induction l as [| a l IH]; intros r H; cbn in H.
  - inversion H; constructor.
  - destruct (f a) eqn:Ea; cbn in H; [| discriminate].
    destruct (mapM f l) eqn:El; cbn in H; [| discriminate].
    inversion H; subst. constructor; auto.
Qed.

Lemma Forall2_mapM {A B : Type} (f : A -> result B) (l : list A) (r : list B) :
  Forall2 (fun a b => f a = Ok b) l r -> mapM f l = Ok r.
Proof.
  induction 1 as [| a b l r Hab H IH]; cbn; [reflexivity |].
  rewrite Hab. cbn. rewrite IH. reflexivity.
Qed.

End Stacked.

(* ------------------------------------------------------------------ *)
(** ** TIES: the trim step keeps shapes *)

Section TrimShape.

Open Scope nat_scope.

Lemma filter_top_k_shape (a d : tensor) (k : Qc) :
  filter_top_k a k = Ok d ->
  shape d = shape a /\ length (data d) = length (data a).
Proof.
  unfold filter_top_k.
  destruct (kthvalue (map nabs (data a)) (top_k_rank (numel a) k)) as [v | e];
    cbn; [| discriminate].
  intros H; inversion H; subst; clear H.
  unfold tmul, tmap2, tmap. cbn [shape data]. split; [reflexivity |].
  rewrite map2_length; [reflexivity |]. rewrite length_map. reflexivity.
Qed.

Lemma trim_shapes (models deltas : list tensor) (k : Qc) (shp : list nat) (N : nat) :
  Forall (fun m => shape m = shp /\ length (data m) = N) models ->
  trim models k = Ok deltas ->
  length deltas = length models
  /\ Forall (fun d => shape d = shp) deltas /\ all_numel N deltas.
Proof.
  intros Hm Ht. apply mapM_Forall2 in Ht.
  induction Ht as [| m d ms ds Hmd Hrest IH].
  - repeat split; constructor.
  - inversion Hm as [| ? ? [Hs Hl] Hm']; subst.
    destruct (IH Hm') as (IH1 & IH2 & IH3).
    destruct (filter_top_k_shape _ _ Hmd) as [E1 E2].
    repeat split; [cbn; lia | |]; constructor; auto; congruence.
Qed.

End TrimShape.

(* ------------------------------------------------------------------ *)
(** ** TIES: elements without consensus *)

Section ZeroConsensus.

Open Scope nat_scope.

Variables (deltas : list tensor) (vote_sgn : Qc) (N p : nat).
Hypothesis Hne : deltas <> [].
Hypothesis Hlen : all_numel N deltas.
Hypothesis Hp : p < N.

Let final_sign := elect_sign deltas vote_sgn.
Let filters := delta_filters deltas final_sign.

Hypothesis Hzero : nth p (data final_sign) NaN = Fin 0.
Hypothesis Hsigns :
  Forall (fun d => let s := nsign (nth p (data d) NaN) in
                   s = Fin 1 \/ s = Fin (- (1))) deltas.

Lemma signs_numel : all_numel N (map (tmap nsign) deltas).
Proof.
  unfold all_numel in *. rewrite Forall_map.
  eapply Forall_impl; [| exact Hlen].
  intros t Ht. unfold tmap. cbn [data]. rewrite length_map. exact Ht.
Qed.

Lemma final_sign_numel : length (data final_sign) = N.
Proof.
  unfold final_sign, elect_sign, tmap. cbn [data]. rewrite length_map.
  destruct (Qcleb vote_sgn 0).
  - apply sum0_length; auto.
  - apply sum0_length; [| apply signs_numel].
    destruct deltas; [congruence | discriminate].
Qed.

Lemma filters_numel : all_numel N filters.
Proof.
  unfold filters, delta_filters, all_numel. rewrite !Forall_map.
  eapply Forall_impl; [| exact Hlen].
  intros t Ht. unfold tmap2, tmap. cbn [data].
  rewrite map2_length; rewrite length_map; [exact Ht |].
  rewrite final_sign_numel. exact Ht.
Qed.

Lemma filters_ne : filters <> [].
Proof.
  unfold filters, delta_filters. destruct deltas; [congruence | discriminate].
Qed.

(** No delta matches the elected sign at [p]. *)
Lemma no_delta_matches :
  Forall (fun f => nth p (data f) NaN = Fin 0) filters.
Proof.
  unfold filters, delta_filters. rewrite !Forall_map.
  pose proof Hlen as HL. pose proof Hsigns as HS.
  unfold all_numel in HL. rewrite Forall_forall in HL, HS |- *.
  intros d Hd.
  specialize (HL d Hd). specialize (HS d Hd). cbn zeta in HS.
  unfold tmap2, tmap. cbn [data].
  rewrite map2_nth with (da := NaN) (db := NaN);
    [| rewrite length_map; lia | rewrite final_sign_numel; lia].
  rewrite Hzero.
  rewrite nth_indep with (d' := nsign NaN) by (rewrite length_map; lia).
  rewrite map_nth.
  destruct HS as [-> | ->]; reflexivity.
Qed.

Lemma fold_nadd_zeros (l : list num) :
  Forall (fun x => x = Fin 0) l -> fold_left nadd l (Fin 0) = Fin 0.
Proof.
  induction 1 as [| x l Hx Hl IH]; cbn; auto.
  subst x. exact IH.
Qed.

Lemma nsum_zeros (l : list num) : Forall (fun x => x = Fin 0) l -> nsum l = Fin 0.
Proof. apply fold_nadd_zeros. Qed.

Lemma param_counts_zero : nth p (data (sum0 filters)) NaN = Fin 0.
Proof.
  rewrite sum0_nth with (N := N); auto using filters_ne, filters_numel.
  apply nsum_zeros. unfold column. rewrite Forall_map. apply no_delta_matches.
Qed.

Lemma fold_nadd_zero_or_nan (l : list num) (acc : num) :
  zero_or_nan acc -> Forall zero_or_nan l -> zero_or_nan (fold_left nadd l acc).
Proof.
  intros Hacc H. revert acc Hacc.
  induction H as [| x l Hx Hl IH]; intros acc Hacc; cbn; auto.
  apply IH. apply nadd_zero_or_nan; auto.
Qed.

Lemma filtered_numel : all_numel N (map2 tmul deltas filters).
Proof.
  pose proof filters_numel as HF. unfold all_numel in *.
  revert HF. generalize filters. clear - Hlen.
  induction Hlen as [| d ds Hd Hds IH]; intros fs HF; [constructor |].
  destruct HF as [| f fs Hf Hfs]; [constructor |].
  cbn. constructor; auto.
  unfold tmul, tmap2. cbn [data]. rewrite map2_length; congruence.
Qed.

Lemma filtered_column :
  Forall zero_or_nan (column p (map2 tmul deltas filters)).
Proof.
  pose proof filters_numel as HF. pose proof no_delta_matches as HZ.
  unfold all_numel in *.
  revert HF HZ. generalize filters. clear - Hlen Hp.
  induction Hlen as [| d ds Hd Hds IH]; intros fs HF HZ; [constructor |].
  destruct HF as [| f fs Hf Hfs]; [constructor |].
  inversion HZ as [| ? ? Hf0 Hfs0]; subst.
  cbn. constructor.
  - unfold tmul, tmap2. cbn [data].
    rewrite map2_nth with (da := NaN) (db := NaN) by lia.
    rewrite Hf0. apply nmul_0_r_zero_or_nan.
  - apply IH; auto.
Qed.

Lemma filtered_ne : map2 tmul deltas filters <> [].
Proof.
  pose proof filters_ne as HF. revert HF. generalize filters.
  destruct deltas; [congruence |]. intros [| f fs]; [congruence | discriminate].
Qed.

(** The merged value at [p] is [0/0], sanitized to 0. *)
Lemma merged_zero :
  nth p (data (tmap nan_to_num
                    (tdiv (sum0 (map2 tmul deltas filters)) (sum0 filters))))
      NaN
  = Fin 0.
Proof.
  unfold tmap, tdiv, tmap2. cbn [data].
  rewrite nth_indep with (d' := nan_to_num NaN).
  2:{ rewrite length_map, map2_length;
      rewrite (sum0_length filtered_ne filtered_numel); auto.
      rewrite (sum0_length filters_ne filters_numel); auto. }
  rewrite map_nth.
  rewrite map2_nth with (da := NaN) (db := NaN).
  2:{ rewrite (sum0_length filtered_ne filtered_numel); auto. }
  2:{ rewrite (sum0_length filters_ne filters_numel); auto. }
  rewrite param_counts_zero.
  rewrite sum0_nth with (N := N); auto using filtered_ne, filtered_numel.
  rewrite ndiv_zero_or_nan_by_0; [reflexivity |].
  apply fold_nadd_zero_or_nan; [left; reflexivity | apply filtered_column].
Qed.

End ZeroConsensus.

(** C1.  For [ties_sum] over [n >= 1] delta tensors: at every element where
    the elected consensus sign is 0 while every trimmed delta's sign there
    is +1 or -1, no delta matches the consensus, [param_counts] is 0 there,
    and the returned tensor is 0 there (the NaN of 0/0 is sanitized); no
    error is raised. *)
Theorem ties_sum_zero_consensus
        (models deltas : list tensor) (k vote_sgn : Qc)
        (shp : list nat) (N p : nat) :
  models <> [] ->
  Forall (fun m => shape m = shp /\ length (data m) = N) models ->
  trim models k = Ok deltas ->
  (p < N)%nat ->
  nth p (data (elect_sign deltas vote_sgn)) NaN = Fin 0 ->
  Forall (fun d => let s := nsign (nth p (data d) NaN) in
                   s = Fin 1 \/ s = Fin (- (1))) deltas ->
  exists filtered_delta param_counts res,
    ties_sum_deltas models k vote_sgn = Ok (filtered_delta, param_counts)
    /\ ties_sum models k vote_sgn = Ok res
    /\ Forall (fun f => nth p (data f) NaN = Fin 0)
              (delta_filters deltas (elect_sign deltas vote_sgn))
    /\ nth p (data param_counts) NaN = Fin 0
    /\ nth p (data res) NaN = Fin 0.
Proof.
  intros Hne Hm Ht Hp Hz Hs.
  destruct (trim_shapes k Hm Ht) as (Hlen & Hshp & Hnum).
  assert (Hdne : deltas <> []).
  { destruct deltas; [| discriminate]. destruct models; [congruence | discriminate]. }
  assert (Hd : ties_sum_deltas models k vote_sgn
               = Ok (map2 tmul deltas (delta_filters deltas (elect_sign deltas vote_sgn)),
                     sum0 (delta_filters deltas (elect_sign deltas vote_sgn)))).
  { unfold ties_sum_deltas. rewrite Ht. cbn [bind].
    rewrite (stack_ok Hdne Hshp). reflexivity. }
  eexists _, _, _. split; [exact Hd |]. split.
  - unfold ties_sum. rewrite Hd. reflexivity.
  - split; [| split].
    + apply no_delta_matches with (N := N); auto.
    + apply param_counts_zero with (N := N); auto.
    + apply merged_zero with (N := N); auto.
Qed.

(* ------------------------------------------------------------------ *)
(** ** Concrete equalities *)

Section Eqb.

Lemma num_eqb_eq (x y : num) : num_eqb x y = true -> x = y.
Proof.
  destruct x, y; cbn; try discriminate; auto.
  intros H. apply Qceqb_true in H. congruence.
Qed.

Lemma list_eqb_eq {A : Type} (eqb : A -> A -> bool) (l m : list A) :
  (forall x y, eqb x y = true -> x = y) -> list_eqb eqb l m = true -> l = m.
Proof.
  intros E. revert m. induction l as [| x l IH]; intros [| y m] H;
    cbn in H; try discriminate; auto.
  apply andb_true_iff in H. destruct H as [H1 H2].
  rewrite (E _ _ H1), (IH _ H2). reflexivity.
Qed.

Lemma tensor_eqb_eq (a b : tensor) : tensor_eqb a b = true -> a = b.
Proof.
  unfold tensor_eqb. intros H. apply andb_true_iff in H. destruct H as [H1 H2].
  apply tensor_eq.
  - apply (list_eqb_eq Nat.eqb); auto. intros x y. apply Nat.eqb_eq.
  - apply (list_eqb_eq num_eqb); auto. apply num_eqb_eq.
Qed.

Lemma Ok_tensor_eqb (r : result tensor) (b : tensor) :
  match r with Ok a => tensor_eqb a b | Raise _ => false end = true ->
  r = Ok b.
Proof.
  destruct r as [a | e]; [| discriminate].
  intros H. f_equal. apply tensor_eqb_eq, H.
Qed.

End Eqb.

(* ------------------------------------------------------------------ *)
(** ** Sorting and the k-th value *)

Section Sorting.

Open Scope nat_scope.

Lemma Qcleb_trans (p q r : Qc) :
  Qcleb p q = true -> Qcleb q r = true -> Qcleb p r = true.
Proof.
  rewrite !Qcleb_true. apply Qcle_trans.
Qed.

Lemma Qcleb_total (p q : Qc) : Qcleb p q = false -> Qcleb q p = true.
Proof.
  rewrite Qcleb_false, Qcleb_true. apply Qclt_le_weak.
Qed.

Lemma sort_leb_trans (x y z : num) :
  sort_leb x y = true -> sort_leb y z = true -> sort_leb x z = true.
Proof.
  destruct x, y, z; cbn; try discriminate; auto.
  apply Qcleb_trans.
Qed.

Lemma sort_leb_total (x y : num) : sort_leb x y = false -> sort_leb y x = true.
Proof.
  destruct x, y; cbn; try discriminate; auto.
  apply Qcleb_total.
Qed.

Lemma sort_leb_refl (x : num) : sort_leb x x = true.
Proof.
  destruct x; cbn; auto. apply Qcleb_true, Qcle_refl.
Qed.

Lemma insert_sorted_perm (x : num) (l : list num) :
  Permutation (x :: l) (insert_sorted x l).
Proof.
  induction l as [| y l IH]; cbn; auto.
  destruct (sort_leb x y); auto.
  rewrite perm_swap. constructor. exact IH.
Qed.

Lemma sort_perm (l : list num) : Permutation l (sort l).
Proof.
  induction l as [| x l IH]; cbn; auto.
  rewrite <- insert_sorted_perm. constructor. exact IH.
Qed.

Lemma sort_length (l : list num) : length (sort l) = length l.
Proof. symmetry. apply Permutation_length, sort_perm. Qed.

Lemma insert_sorted_sorted (x : num) (l : list num) :
  StronglySorted sort_le l -> StronglySorted sort_le (insert_sorted x l).
Proof.
  induction 1 as [| y l Hl IH Hy]; cbn.
  - constructor; constructor.
  - destruct (sort_leb x y) eqn:E.
    + constructor; [constructor; auto |].
      constructor; [exact E |].
      eapply Forall_impl; [| exact Hy].
      intros z Hz. eapply sort_leb_trans; eauto.
    + constructor; auto.
      eapply Permutation_Forall; [apply insert_sorted_perm |].
      constructor; auto. apply sort_leb_total, E.
Qed.

Lemma sort_sorted (l : list num) : StronglySorted sort_le (sort l).
Proof.
  induction l as [| x l IH]; cbn; [constructor |].
  apply insert_sorted_sorted, IH.
Qed.

(** In a sorted list, everything from position [i] on is at least the
    element at [i]. *)
Lemma sorted_count_from (l : list num) (i : nat) (t : num) :
  StronglySorted sort_le l -> nth_error l i = Some t ->
  length l - i <= length (filter (sort_leb t) l).
Proof.
  intros H. revert i. induction H as [| y l Hl IH Hy]; intros i Hi.
  - destruct i; discriminate.
  - destruct i as [| i]; cbn in Hi.
    + inversion Hi; subst t. cbn.
      assert (E : filter (sort_leb y) l = l).
      { apply forallb_filter_id. apply forallb_forall.
        rewrite Forall_forall in Hy. exact Hy. }
      rewrite E, sort_leb_refl. cbn. lia.
    + specialize (IH i Hi). cbn. destruct (sort_leb t y); cbn; lia.
Qed.

Lemma filter_length_perm (f : num -> bool) (l m : list num) :
  Permutation l m -> length (filter f l) = length (filter f m).
Proof.
  induction 1 as [| x l m H IH | x y l | l m n H1 IH1 H2 IH2]; cbn; auto.
  - destruct (f x); cbn; congruence.
  - destruct (f x), (f y); reflexivity.
  - congruence.
Qed.

Lemma filter_map_length {A : Type} (f : num -> bool) (g : A -> num) (l : list A) :
  length (filter f (map g l)) = length (filter (fun x => f (g x)) l).
Proof.
  induction l as [| x l IH]; cbn; auto.
  destruct (f (g x)); cbn; congruence.
Qed.

Lemma kthvalue_nonempty (xs : list num) (k : Z) :
  xs <> [] ->
  kthvalue xs k
  = if ((k <? 1) || (Z.of_nat (length xs) <? k))%Z then Raise RuntimeError
    else match nth_error (sort xs) (Z.to_nat (k - 1)) with
         | Some v => Ok v
         | None => Raise RuntimeError
         end.
Proof. destruct xs; [congruence | reflexivity]. Qed.

Lemma kthvalue_ok (xs : list num) (k : Z) :
  (1 <= k <= Z.of_nat (length xs))%Z ->
  exists t, kthvalue xs k = Ok t
            /\ nth_error (sort xs) (Z.to_nat (k - 1)) = Some t.
Proof.
  intros Hk. rewrite kthvalue_nonempty by (intros ->; cbn in Hk; lia).
  assert (E1 : (k <? 1)%Z = false) by (apply Z.ltb_ge; lia).
  assert (E2 : (Z.of_nat (length xs) <? k)%Z = false) by (apply Z.ltb_ge; lia).
  rewrite E1, E2. cbn [orb].
  destruct (nth_error (sort xs) (Z.to_nat (k - 1))) as [t |] eqn:E; eauto.
  apply nth_error_None in E. rewrite sort_length in E. lia.
Qed.

(** At least [len(xs) - k + 1] elements are no smaller than the [k]-th
    value: the elements after it in sorted order, and its ties. *)
Lemma kthvalue_count (xs : list num) (k : Z) (t : num) :
  kthvalue xs k = Ok t ->
  In t xs
  /\ (Z.of_nat (length xs) - k + 1
      <= Z.of_nat (length (filter (sort_leb t) xs)))%Z.
Proof.
  intros H0.
  assert (Hne : xs <> []) by (intros ->; discriminate H0).
  rewrite (kthvalue_nonempty _ Hne) in H0. revert H0.
  destruct ((k <? 1)%Z || (Z.of_nat (length xs) <? k)%Z) eqn:E; [discriminate |].
  apply orb_false_iff in E. destruct E as [E1 E2].
  apply Z.ltb_ge in E1, E2.
  destruct (nth_error (sort xs) (Z.to_nat (k - 1))) as [v |] eqn:E;
    [| discriminate].
  intros H; inversion H; subst v; clear H. split.
  - apply Permutation_in with (l := sort xs).
    + symmetry. apply sort_perm.
    + eapply nth_error_In; eauto.
  - rewrite (filter_length_perm (sort_leb t) (sort_perm xs)).
    pose proof (@sorted_count_from _ _ _ (sort_sorted xs) E) as Hc.
    rewrite sort_length in Hc. lia.
Qed.

End Sorting.

(* ------------------------------------------------------------------ *)
(** ** TIES: the trim step *)

Section Trim.

Open Scope Qc_scope.

Lemma pyint_le (x : Qc) (n : Z) : (0 <= n)%Z -> x <= ofZ n -> (pyint x <= n)%Z.
Proof.
  intros Hn Hx. destruct (Qclt_le_dec x 0) as [Hneg | Hpos].
  - rewrite (pyint_neg Hneg).
    assert (H0 : (0 <= Qfloor (- x)%Qc)%Z).
    { rewrite <- (Qfloor_Z 0). apply Qfloor_resp_le.
      change (0 <= - x). qc_lra. }
    lia.
  - rewrite (pyint_nonneg Hpos). rewrite <- (Qfloor_Z n).
    apply Qfloor_resp_le. change (this x <= inject_Z n)%Q.
    rewrite <- this_ofZ. exact Hx.
Qed.

Lemma top_k_rank_range (n : nat) (k : Qc) :
  (0 < n)%nat -> 0 <= k -> (1 <= top_k_rank n k <= Z.of_nat n)%Z.
Proof.
  intros Hn Hk. unfold top_k_rank. split; [lia |].
  apply Z.max_lub; [| lia].
  apply pyint_le; [lia |].
  unfold ofnat.
  assert (H0 : 0 <= ofZ (Z.of_nat n)).
  { qc2q. change 0%Q with (inject_Z 0). rewrite <- Zle_Qle. lia. }
  replace (ofZ (Z.of_nat n)) with (1 * ofZ (Z.of_nat n)) at 2 by ring.
  apply Qcmult_le_compat_r; auto. qc_lra.
Qed.

Lemma nabs_isnan (x : num) : isnan (nabs x) = isnan x.
Proof. destruct x; reflexivity. Qed.

Lemma sort_leb_nleb (t y : num) :
  isnan t = false -> isnan y = false -> sort_leb t y = ngeb y t.
Proof. destruct t, y; cbn; try discriminate; reflexivity. Qed.

Lemma nmul_dropped (x t : num) :
  isnan x = false -> isnan t = false -> ngeb (nabs x) t = false ->
  nmul x (Fin 0) = Fin 0.
Proof.
  destruct x as [q | | |], t; cbn; try discriminate; intros _ _ _;
    f_equal; ring.
Qed.

Lemma filter_top_k_spec (a : tensor) (k : Qc) :
  data a <> [] -> 0 <= k -> nan_free a ->
  exists t,
    kthvalue (map nabs (data a)) (top_k_rank (numel a) k) = Ok t
    /\ filter_top_k a k
       = Ok (mkTensor (shape a)
                      (map (fun x => if ngeb (nabs x) t then x else Fin 0)
                           (data a)))
    /\ (Z.of_nat (numel a) - top_k_rank (numel a) k + 1
        <= Z.of_nat (kept_count a t))%Z.
Proof.
  intros Hne Hk Hnan.
  assert (Hn : (0 < numel a)%nat).
  { unfold numel. destruct (data a); [congruence | cbn; lia]. }
  pose proof (top_k_rank_range Hn Hk) as Hr.
  destruct (@kthvalue_ok (map nabs (data a)) (top_k_rank (numel a) k))
    as (t & Ht & _).
  { rewrite length_map. exact Hr. }
  destruct (kthvalue_count _ _ Ht) as [Hin Hcount].
  assert (Htn : isnan t = false).
  { apply in_map_iff in Hin. destruct Hin as (x & <- & Hx).
    rewrite nabs_isnan. unfold nan_free in Hnan.
    rewrite Forall_forall in Hnan. auto. }
  exists t. split; [exact Ht |]. split.
  - unfold filter_top_k. rewrite Ht. cbn [bind]. f_equal.
    unfold tmul, tmap2, tmap. cbn [shape data]. f_equal.
    rewrite map2_map_r, map2_same.
    apply map_ext_in. intros x Hx.
    assert (Hxn : isnan x = false).
    { unfold nan_free in Hnan. rewrite Forall_forall in Hnan. auto. }
    destruct (ngeb (nabs x) t) eqn:E; cbn [of_bool].
    + apply nmul_1_r.
    + exact (@nmul_dropped x t Hxn Htn E).
  - rewrite length_map in Hcount. unfold kept_count.
    rewrite filter_map_length in Hcount.
    erewrite filter_ext_in; [exact Hcount |].
    intros x Hx. cbn beta. symmetry. apply sort_leb_nleb; auto.
    rewrite nabs_isnan. unfold nan_free in Hnan.
    rewrite Forall_forall in Hnan. auto.
Qed.

(** For [k >= 0] the rank is within range and the trim step raises
    nothing. *)
Lemma filter_top_k_ok (a : tensor) (k : Qc) :
  data a <> [] -> 0 <= k -> exists d, filter_top_k a k = Ok d.
Proof.
  intros Hne Hk.
  assert (Hn : (0 < numel a)%nat).
  { unfold numel. destruct (data a); [congruence | cbn; lia]. }
  pose proof (top_k_rank_range Hn Hk) as Hr.
  destruct (@kthvalue_ok (map nabs (data a)) (top_k_rank (numel a) k))
    as (t & Ht & _).
  { rewrite length_map. exact Hr. }
  unfold filter_top_k. rewrite Ht. cbn [bind]. eauto.
Qed.

Lemma trim_ok (models : list tensor) (k : Qc) :
  0 <= k -> Forall (fun m => data m <> []) models ->
  exists deltas, trim models k = Ok deltas.
Proof.
  intros Hk H. unfold trim.
  induction H as [| m ms Hm Hms IH]; [exists []; reflexivity |].
  destruct IH as [ds Hds]. destruct (@filter_top_k_ok m k Hm Hk) as [d Hd].
  exists (d :: ds). cbn [mapM]. rewrite Hd. cbn [bind]. rewrite Hds.
  reflexivity.
Qed.

End Trim.

(* ------------------------------------------------------------------ *)
(** ** Scaling by one, and counts *)

Section ScalingFacts.

Open Scope Qc_scope.

Lemma tmuls_1 (p : tensor) : tmuls p (Fin 1) = p.
Proof.
  destruct p as [s d]. unfold tmuls, tmap. cbn [shape data]. f_equal.
  apply map_id_Forall with (P := fun _ => True).
  - intros x _. apply nmul_1_r.
  - apply Forall_forall; auto.
Qed.


Lemma tmuls_shape (p : tensor) (w : num) : shape (tmuls p w) = shape p.
Proof. reflexivity. Qed.

End ScalingFacts.


(* ------------------------------------------------------------------ *)
(** ** TIES on concrete deltas *)

Lemma ties_sum_zero_consensus_witness :
  (ties_models <> []
   /\ Forall (fun m => shape m = [2%nat] /\ length (data m) = 2%nat) ties_models
   /\ trim ties_models 1 = Ok ties_deltas
   /\ (0 < 2)%nat
   /\ nth 0 (data (elect_sign ties_deltas 0)) NaN = Fin 0
   /\ Forall (fun d => let s := nsign (nth 0 (data d) NaN) in
                       s = Fin 1 \/ s = Fin (- (1))) ties_deltas)
  /\ exists filtered_delta param_counts res,
      ties_sum_deltas ties_models 1 0 = Ok (filtered_delta, param_counts)
      /\ ties_sum ties_models 1 0 = Ok res
      /\ Forall (fun f => nth 0 (data f) NaN = Fin 0)
                (delta_filters ties_deltas (elect_sign ties_deltas 0))
      /\ nth 0 (data param_counts) NaN = Fin 0
      /\ nth 0 (data res) NaN = Fin 0.
Proof.
  assert (H1 : ties_models <> []) by discriminate.
  assert (H2 : Forall (fun m => shape m = [2%nat] /\ length (data m) = 2%nat)
                      ties_models) by (repeat constructor).
  assert (H3 : trim ties_models 1 = Ok ties_deltas) by (vm_compute; reflexivity).
  assert (H4 : (0 < 2)%nat) by lia.
  assert (H5 : nth 0 (data (elect_sign ties_deltas 0)) NaN = Fin 0)
    by (apply num_eqb_eq; vm_compute; reflexivity).
  assert (H6 : Forall (fun d => let s := nsign (nth 0 (data d) NaN) in
                                s = Fin 1 \/ s = Fin (- (1))) ties_deltas).
  { apply Forall_forall. intros d Hd. cbn zeta.
    assert (E : forallb (fun d => let s := nsign (nth 0 (data d) NaN) in
                                  num_eqb s (Fin 1) || num_eqb s (Fin (- (1))))
                        ties_deltas = true) by (vm_compute; reflexivity).
    rewrite forallb_forall in E. specialize (E d Hd). cbn zeta in E.
    apply orb_true_iff in E. destruct E as [E | E]; [left | right];
      apply num_eqb_eq, E. }
  split; [auto 10 |].
  exact (@ties_sum_zero_consensus ties_models ties_deltas 1 0 [2%nat] 2 0
           H1 H2 H3 H4 H5 H6).
Defined.

Example ties_sum_example :
  ties_sum ties_models 1 0
  = Ok (mkTensor [2%nat] [Fin 0; Fin (Q2Qc (5 # 2))]).
Proof. apply Ok_tensor_eqb. vm_compute. reflexivity. Qed.

(* ------------------------------------------------------------------ *)
(** ** Spectral filter *)

Section CreateFilterFacts.

Open Scope Qc_scope.

Variable sqrt_ : Qc -> Qc.
Variable tan_ : Qc -> Qc.

Lemma ofZ_mult (x y : Z) : ofZ x * ofZ y = ofZ (x * y).
Proof. apply Qc_eq_this. qc2q. rewrite inject_Z_mult. reflexivity. Qed.

Lemma floor_ofZ (z : Z) : Qfloor (ofZ z) = z.
Proof. apply floor_unique; qc_lra. Qed.

Lemma normalized_tilt_range (tilt : Qc) :
  0 <= normalized_tilt tilt /\ normalized_tilt tilt < ofZ 4.
Proof.
  unfold normalized_tilt, floordiv, pyfloor.
  rewrite ofZ_mult, floor_ofZ, <- ofZ_mult.
  pose proof (floor_le (tilt / ofZ 4)) as H1.
  pose proof (lt_floor (tilt / ofZ 4)) as H2.
  set (f := ofZ (Qfloor (tilt / ofZ 4))) in *.
  assert (E : tilt = ofZ 4 * (tilt / ofZ 4)) by (field; discriminate).
  set (q := tilt / ofZ 4) in *. rewrite E.
  change (this (ofZ 4)) with 4%Q in *.
  split; qc2q; change (inject_Z 4) with 4%Q; lra.
Qed.

Lemma mesh_of_ok (shp : list nat) :
  shp <> [] -> exists mesh, mesh_of sqrt_ shp = Ok mesh.
Proof.
  intros Hne. unfold mesh_of.
  destruct (1 <? length shp)%nat; [eauto |].
  destruct (gradients shp) as [| g gs] eqn:E; [| eauto].
  exfalso. apply Hne. unfold gradients, enumerate in E.
  apply (f_equal (@length _)) in E.
  rewrite length_rev, length_map, length_combine, length_seq, length_rev in E.
  rewrite Nat.min_id in E. cbn in E.
  destruct shp; [reflexivity | discriminate].
Qed.

Lemma alpha_check (alpha : Qc) :
  negb (Qcleb 0 alpha && Qcleb alpha 1) = false <-> 0 <= alpha /\ alpha <= 1.
Proof.
  rewrite negb_false_iff, andb_true_iff, !Qcleb_true. reflexivity.
Qed.

(** A validation error is raised exactly for [alpha] outside [0, 1]. *)
Lemma create_filter_ValueError (shp : list nat) (alpha tilt : Qc) :
  create_filter sqrt_ tan_ shp alpha tilt = Raise ValueError
  <-> ~ (0 <= alpha /\ alpha <= 1).
Proof.
  unfold create_filter.
  destruct (negb (Qcleb 0 alpha && Qcleb alpha 1)) eqn:Ea.
  - split; [| reflexivity]. intros _ H. apply alpha_check in H. congruence.
  - apply alpha_check in Ea. split; [| tauto]. intros H. exfalso.
    destruct (mesh_of sqrt_ shp) as [mesh | e] eqn:Em; cbn [bind] in H.
    + repeat match type of H with
             | context [if ?c then _ else _] => destruct c; cbn [bind] in H
             end; discriminate H.
    + unfold mesh_of in Em.
      destruct (1 <? length shp)%nat; [discriminate |].
      destruct (gradients shp); [| discriminate].
      congruence.
Qed.

(** The contract of the tangent: no zero strictly between the even
    multiples the hard-threshold branches take care of. *)
Hypothesis tan_nonzero :
  forall t, 0 < t -> t < ofZ 4 -> t <> ofZ 2 ->
            tan_ (math_pi * t / ofZ 2) <> 0.

Lemma Qcabs'_small (x e : Qc) : 0 < e -> Qcabs' x < e -> x < e /\ - e < x.
Proof.
  unfold Qcabs'. intros He. qc_cases; intros H; split; qc_lra.
Qed.

Lemma Qcabs'_zero : Qcabs' 0 = 0.
Proof. reflexivity. Qed.

Lemma EPSILON_pos : 0 < EPSILON.
Proof. reflexivity. Qed.

Lemma create_filter_ok (shp : list nat) (alpha tilt : Qc) :
  0 <= alpha -> alpha <= 1 -> shp <> [] ->
  exists f, create_filter sqrt_ tan_ shp alpha tilt = Ok f.
Proof.
  intros Ha0 Ha1 Hne. unfold create_filter.
  assert (Ea : negb (Qcleb 0 alpha && Qcleb alpha 1) = false)
    by (apply alpha_check; auto).
  rewrite Ea.
  destruct (mesh_of_ok Hne) as [mesh Em]. rewrite Em. cbn [bind].
  fold (normalized_tilt tilt).
  destruct (normalized_tilt_range tilt) as [Ht0 Ht4].
  set (t := normalized_tilt tilt) in *.
  destruct (Qcltb t EPSILON || Qcltb (Qcabs' (t - ofZ 4)) EPSILON) eqn:E1;
    [cbn [bind]; eauto |].
  destruct (Qcltb (Qcabs' (t - ofZ 2)) EPSILON) eqn:E2;
    [cbn [bind]; eauto |].
  apply orb_false_iff in E1. destruct E1 as [E1 _].
  apply Qcltb_false in E1, E2.
  assert (Hnz : tan_ (math_pi * t / ofZ 2) <> 0).
  { apply tan_nonzero; auto.
    - eapply Qclt_le_trans; [apply EPSILON_pos | exact E1].
    - intros H. rewrite H in E2.
      replace (ofZ 2 - ofZ 2) with 0 in E2 by ring.
      rewrite Qcabs'_zero in E2.
      revert E2. apply Qclt_not_le, EPSILON_pos. }
  apply Qceqb_false in Hnz. rewrite Hnz. cbn [bind]. eauto.
Qed.

End CreateFilterFacts.

(** The stand-in tangent satisfies the contract. *)
Section TanRat.

Open Scope Qc_scope.

Lemma math_pi_nonzero : math_pi <> 0.
Proof. discriminate. Qed.

Lemma Qcdiv_nonzero (x y : Qc) : x <> 0 -> y <> 0 -> x / y <> 0.
Proof.
  intros Hx Hy H.
  assert (E : x = (x / y) * y) by (field; exact Hy).
  rewrite H in E. apply Hx. rewrite E. ring.
Qed.

Lemma Qcmult_nonzero (x y : Qc) : x <> 0 -> y <> 0 -> x * y <> 0.
Proof.
  intros Hx Hy H. destruct (Qcmult_integral _ _ H); contradiction.
Qed.

Lemma Qc_pos_nonzero (x : Qc) : 0 < x -> x <> 0.
Proof. intros H. apply not_eq_sym, Qclt_not_eq, H. Qed.

Lemma unit_parabola (x : Q) :
  (0 < x)%Q -> (x < 2)%Q -> (0 < x * (2 - x) /\ x * (2 - x) <= 1)%Q.
Proof.
  intros H0 H2. split.
  - apply Qmult_lt_0_compat; lra.
  - assert (E : (1 - x * (2 - x) == (1 - x) * (1 - x))%Q) by ring.
    assert (Hs : (0 <= (1 - x) * (1 - x))%Q).
    { destruct (Qlt_le_dec x 1).
      - apply Qmult_le_0_compat; lra.
      - setoid_replace ((1 - x) * (1 - x))%Q with ((x - 1) * (x - 1))%Q by ring.
        apply Qmult_le_0_compat; lra. }
    lra.
Qed.

Lemma tan_rat_interp_nonzero (r : Qc) :
  0 < r -> r < ofZ 2 -> r <> 1 ->
  r * (ofZ 2 - r) * (Q2Qc (355 # 452) - Q2Qc (5053 # 33960) * (r * (ofZ 2 - r)))
    / (1 - r) <> 0.
Proof.
  intros H0 H2 H1.
  assert (Hu : (0 < this r * (2 - this r) /\ this r * (2 - this r) <= 1)%Q).
  { apply unit_parabola; [exact H0 |].
    qc2q. exact H2. }
  destruct Hu as [Hu0 Hu1].
  apply Qcdiv_nonzero.
  - apply Qcmult_nonzero; apply Qc_pos_nonzero.
    + qc2q. exact Hu0.
    + qc2q. change (inject_Z 2) with 2%Q.
      set (u := (this r * (2 - this r))%Q) in *. lra.
  - intros H. apply H1. replace r with (1 - (1 - r)) by ring.
    rewrite H. ring.
Qed.

Lemma tan_rat_nonzero (t : Qc) :
  0 < t -> t < ofZ 4 -> t <> ofZ 2 ->
  Prims.tan_rat (math_pi * t / ofZ 2) <> 0.
Proof.
  intros H0 H4 H2. unfold Prims.tan_rat.
  assert (E : ofZ 2 * (math_pi * t / ofZ 2) / math_pi = t).
  { field. split; [discriminate | exact math_pi_nonzero]. }
  rewrite E. unfold pyfloor.
  pose proof (floor_le (t / ofZ 2)) as Hf1.
  pose proof (lt_floor (t / ofZ 2)) as Hf2.
  assert (Et : t = ofZ 2 * (t / ofZ 2)) by (field; discriminate).
  set (q := t / ofZ 2) in *.
  set (f := Qfloor q) in *.
  set (r := t - ofZ 2 * ofZ f).
  assert (Hr : 0 <= r /\ r < ofZ 2).
  { unfold r. rewrite Et. change (this (ofZ 2)) with 2%Q.
    split; qc2q; change (inject_Z 2) with 2%Q; lra. }
  assert (Hr0 : r <> 0).
  { intros Hr0.
    assert (Ef : (f = 0 \/ f = 1)%Z).
    { assert (Hq : 0 < q /\ q < ofZ 2).
      { rewrite Et in H0, H4. split; qc2q;
          change (inject_Z 2) with 2%Q in *;
          change (inject_Z 4) with 4%Q in *; lra. }
      assert (Hlo : (-1 < f)%Z).
      { rewrite Zlt_Qlt. destruct Hq as [Hq _]. qc2q.
        change (inject_Z (-1)) with (-1)%Q. lra. }
      assert (Hhi : (f < 2)%Z).
      { rewrite Zlt_Qlt. destruct Hq as [_ Hq]. qc2q.
        change (inject_Z 2) with 2%Q in *. lra. }
      lia. }
    unfold r in Hr0.
    destruct Ef as [Ef | Ef]; rewrite Ef in Hr0.
    - change (ofZ 0) with 0 in Hr0.
      apply (Qc_pos_nonzero H0).
      replace t with (t - ofZ 2 * 0) by ring. exact Hr0.
    - change (ofZ 1) with 1 in Hr0.
      apply H2. replace t with (t - ofZ 2 * 1 + ofZ 2) by ring.
      rewrite Hr0. ring. }
  qc_cases; try congruence.
  - discriminate.
  - apply tan_rat_interp_nonzero; try tauto.
    destruct Hr as [Hr _].
    destruct (Qcle_lt_or_eq _ _ Hr) as [Hlt | Heq]; auto.
    congruence.
Qed.

End TanRat.

(** C8, as amended.  [create_filter] raises a validation error if and only
    if [alpha] is outside [0, 1]; for every [alpha] in [0, 1], every
    non-empty shape and every real [tilt] it returns a filter without
    raising: the tilts with zero tangent take the hard-threshold branches,
    so the cotangent never divides by zero. *)
Theorem create_filter_raises_iff
        (sqrt_ tan_ : Qc -> Qc) (shp : list nat) (alpha tilt : Qc) :
  (forall t, (0 < t)%Qc -> (t < ofZ 4)%Qc -> t <> ofZ 2 ->
             tan_ (math_pi * t / ofZ 2)%Qc <> 0%Qc) ->
  (create_filter sqrt_ tan_ shp alpha tilt = Raise ValueError
   <-> ~ (0 <= alpha /\ alpha <= 1)%Qc)
  /\ ((0 <= alpha)%Qc -> (alpha <= 1)%Qc -> shp <> [] ->
      exists f, create_filter sqrt_ tan_ shp alpha tilt = Ok f).
Proof.
  intros Htan. split.
  - apply create_filter_ValueError.
  - intros H0 H1 Hne. apply create_filter_ok; auto.
Qed.

Lemma create_filter_raises_iff_witness :
  ((0 <= Q2Qc (1 # 2))%Qc /\ (Q2Qc (1 # 2) <= 1)%Qc /\ [4%nat; 3%nat] <> [])
  /\ exists f,
      create_filter Prims.sqrt_approx Prims.tan_rat [4%nat; 3%nat]
                    (Q2Qc (1 # 2)) (Q2Qc (1 # 2)) = Ok f.
Proof.
  assert (H0 : (0 <= Q2Qc (1 # 2))%Qc) by (intros H; discriminate H).
  assert (H1 : (Q2Qc (1 # 2) <= 1)%Qc) by (intros H; discriminate H).
  assert (H2 : [4%nat; 3%nat] <> []) by discriminate.
  split; [auto |].
  exact (proj2 (@create_filter_raises_iff Prims.sqrt_approx Prims.tan_rat
                  [4%nat; 3%nat] (Q2Qc (1 # 2)) (Q2Qc (1 # 2)) tan_rat_nonzero)
               H0 H1 H2).
Defined.

(** C8, as stated, fails on the empty shape: there is no axis to take the
    mesh from, and indexing the empty list of gradients raises. *)
Lemma create_filter_empty_shape_counterexample :
  (0 <= Q2Qc (1 # 2) /\ Q2Qc (1 # 2) <= 1)%Qc
  /\ create_filter Prims.sqrt_approx Prims.tan_rat [] (Q2Qc (1 # 2)) 0
     = Raise IndexError.
Proof.
  split; [split; intros H; discriminate H | reflexivity].
Qed.

(* ------------------------------------------------------------------ *)
(** ** Hard-threshold filters *)

Section HardThreshold.

Open Scope Qc_scope.

Variable sqrt_ : Qc -> Qc.
Variable tan_ : Qc -> Qc.

Lemma linspace_0_1_head (s : nat) :
  (0 < s)%nat -> exists rest, linspace 0 1 s = Fin 0 :: rest.
Proof.
  intros Hs. destruct s as [| [| m]].
  - lia.
  - exists []. reflexivity.
  - unfold linspace. cbn [seq map]. eexists. f_equal.
Qed.

(** On a one-axis shape, the zero-frequency entry of the filter built at
    [tilt = 0] with [alpha = 1] is 0: the mesh is 0 there and the
    threshold test [mesh > 1 - alpha] is strict. *)
Lemma create_filter_dc_entry (s : nat) :
  (0 < s)%nat ->
  exists rest,
    create_filter sqrt_ tan_ [s] 1 0 = Ok (mkTensor [s] (Fin 0 :: rest)).
Proof.
  intros Hs. unfold create_filter.
  change (negb (Qcleb 0 1 && Qcleb 1 1)) with false. cbv iota.
  change (0 - ofZ (pyfloor (floordiv 0 (ofZ 4) * ofZ 4))) with (Q2Qc 0).
  change (Qcltb (ofZ 2) (Q2Qc 0)) with false. cbv iota.
  change (Qcltb (Q2Qc 0) EPSILON) with true. cbn [orb].
  unfold mesh_of, gradients, enumerate. cbn [length rev app seq combine map fst snd Nat.ltb Nat.leb].
  unfold gradient. cbn [Nat.eqb orb].
  destruct (linspace_0_1_head Hs) as [rest E]. rewrite E.
  cbn [bind map]. eexists. reflexivity.
Qed.

End HardThreshold.

(** C5.  [create_filter] at [tilt = 0]: with [alpha = 0] the filter is
    all-zero, but with [alpha = 1] the zero-frequency entry stays 0 (here on
    a 3-point axis the filter is [0, 1, 1]) although the docstring and the
    claim promise all ones. *)
Theorem create_filter_tilt_0_extremes (sqrt_ tan_ : Qc -> Qc) :
  create_filter sqrt_ tan_ [3%nat] 0 0
  = Ok (mkTensor [3%nat] [Fin 0; Fin 0; Fin 0])
  /\ create_filter sqrt_ tan_ [3%nat] 1 0
     = Ok (mkTensor [3%nat] [Fin 0; Fin 1; Fin 1])
  /\ create_filter sqrt_ tan_ [3%nat] 1 0
     <> Ok (mkTensor [3%nat] [Fin 1; Fin 1; Fin 1]).
Proof.
  assert (E0 : create_filter sqrt_ tan_ [3%nat] 0 0
               = Ok (mkTensor [3%nat] [Fin 0; Fin 0; Fin 0]))
    by (apply Ok_tensor_eqb; vm_compute; reflexivity).
  assert (E1 : create_filter sqrt_ tan_ [3%nat] 1 0
               = Ok (mkTensor [3%nat] [Fin 0; Fin 1; Fin 1]))
    by (apply Ok_tensor_eqb; vm_compute; reflexivity).
  repeat split; auto.
  rewrite E1. intros H. inversion H.
Qed.

(* ------------------------------------------------------------------ *)
(** ** crossover: the short-circuits *)

Section CrossoverFacts.

Open Scope Qc_scope.

Variable sqrt_ : Qc -> Qc.
Variable tan_ : Qc -> Qc.
Variable allclose_half : tensor -> tensor -> bool.
Variable spectral_blend : tensor -> tensor -> tensor -> tensor.

Let crossover' := crossover sqrt_ tan_ allclose_half spectral_blend.

Lemma crossover_alpha_0 (a b : tensor) (tilt : Qc) :
  crossover' a b 0 tilt = Ok a.
Proof. reflexivity. Qed.

Lemma crossover_alpha_1 (a b : tensor) (tilt : Qc) :
  crossover' a b 1 tilt = Ok b.
Proof. reflexivity. Qed.

Lemma crossover_tilt_1 (a b : tensor) (alpha : Qc) :
  alpha <> 0 -> alpha <> 1 ->
  crossover' a b alpha 1 = Ok (weighted_sum a b alpha).
Proof.
  intros H0 H1. unfold crossover', crossover.
  apply Qceqb_false in H0, H1. rewrite H0, H1. reflexivity.
Qed.

(** The remaining degenerate cases blend with [tilt] as the weight. *)
Lemma crossover_degenerate (a b : tensor) (alpha tilt : Qc) :
  alpha <> 0 -> alpha <> 1 -> tilt <> 1 ->
  shape a = [] \/ allclose_half a b = true ->
  crossover' a b alpha tilt = Ok (weighted_sum a b tilt).
Proof.
  intros H0 H1 Ht Hd. unfold crossover', crossover.
  apply Qceqb_false in H0, H1, Ht. rewrite H0, H1, Ht.
  destruct Hd as [Hs | Hc].
  - rewrite Hs. reflexivity.
  - rewrite Hc, orb_true_r. reflexivity.
Qed.

End CrossoverFacts.

(** C2.  On a 0-dimensional [a = 0], [b = 1] with [alpha = 1/2] and
    [tilt = 0], [crossover] returns [weighted_sum(a, b, tilt) = a], not
    [weighted_sum(a, b, alpha) = 1/2]: the degenerate branch passes [tilt]
    where the claim (and the sibling [distribution_crossover]) use
    [alpha]. *)
Theorem crossover_scalar_blends_by_tilt
        (sqrt_ tan_ : Qc -> Qc) (allclose_half : tensor -> tensor -> bool)
        (spectral_blend : tensor -> tensor -> tensor -> tensor) :
  let a := mkTensor [] [Fin 0] in
  let b := mkTensor [] [Fin 1] in
  let alpha := Q2Qc (1 # 2) in
  crossover sqrt_ tan_ allclose_half spectral_blend a b alpha 0
  = Ok (weighted_sum a b 0)
  /\ weighted_sum a b 0 = a
  /\ weighted_sum a b alpha = mkTensor [] [Fin (Q2Qc (1 # 2))]
  /\ crossover sqrt_ tan_ allclose_half spectral_blend a b alpha 0
     <> Ok (weighted_sum a b alpha).
Proof.
  intros a b alpha.
  assert (E : crossover sqrt_ tan_ allclose_half spectral_blend a b alpha 0
              = Ok (weighted_sum a b 0)) by reflexivity.
  assert (Ea : weighted_sum a b 0 = a)
    by (apply tensor_eqb_eq; vm_compute; reflexivity).
  assert (Eb : weighted_sum a b alpha = mkTensor [] [Fin (Q2Qc (1 # 2))])
    by (apply tensor_eqb_eq; vm_compute; reflexivity).
  repeat split; auto.
  rewrite E, Ea, Eb. intros H. inversion H.
Qed.

(* ------------------------------------------------------------------ *)
(** ** slerp *)

Section SlerpFacts.

Open Scope Qc_scope.

Lemma clamp_unit_range (x : num) : in_unit_range (clamp x (- (1)) 1).
Proof.
  unfold in_unit_range, clamp, clamp_min.
  destruct x as [q | | |]; cbn [nltb]; auto.
  - destruct (Qcltb q (- (1))) eqn:E1; cbn [nltb].
    + right. exists (- (1)). repeat split; [| intros H; discriminate H].
      apply Qcle_refl.
    + apply Qcltb_false in E1.
      destruct (Qcltb 1 q) eqn:E2.
      * right. exists 1. repeat split; [intros H; discriminate H |].
        apply Qcle_refl.
      * apply Qcltb_false in E2. right. exists q. auto.
  - right. exists 1. repeat split; [intros H; discriminate H |].
    apply Qcle_refl.
  - right. exists (- (1)). repeat split; [| intros H; discriminate H].
    apply Qcle_refl.
Qed.

Variable l2norm : list num -> num.
Variable sin_ : num -> num.
Variable arccos_ : num -> num.

(** [arccos] only ever sees the clamped dot product. *)
Lemma slerp_res_arccos_ext (arccos' : num -> num) (a b : tensor) (alpha : Qc) :
  (forall d, in_unit_range d -> arccos' d = arccos_ d) ->
  slerp_res l2norm sin_ arccos' a b alpha
  = slerp_res l2norm sin_ arccos_ a b alpha.
Proof.
  intros H. unfold slerp_res. cbv zeta.
  rewrite (H _ (clamp_unit_range _)). reflexivity.
Qed.

Lemma slerp_nan (a b : tensor) (alpha : Qc) :
  any_isnan (slerp_res l2norm sin_ arccos_ a b alpha) = true ->
  slerp l2norm sin_ arccos_ a b alpha = weighted_sum a b alpha.
Proof. intros H. unfold slerp. cbv zeta. rewrite H. reflexivity. Qed.

Lemma slerp_no_nan (a b : tensor) (alpha : Qc) :
  any_isnan (slerp_res l2norm sin_ arccos_ a b alpha) = false ->
  slerp l2norm sin_ arccos_ a b alpha
  = slerp_res l2norm sin_ arccos_ a b alpha.
Proof. intros H. unfold slerp. cbv zeta. rewrite H. reflexivity. Qed.

End SlerpFacts.

(** C6, as amended.  [slerp] clamps the dot product of the normalized
    inputs to [-1, 1] before taking [arccos] (only the values of [arccos] on
    that range matter), and whenever the geodesic-interpolation result
    contains a NaN it returns [weighted_sum(a, b, alpha)] instead; a result
    without NaN is returned as it is, infinite elements included. *)
Theorem slerp_nan_fallback
        (l2norm : list num -> num) (sin_ arccos_ : num -> num)
        (a b : tensor) (alpha : Qc) :
  (forall arccos' : num -> num,
      (forall d, in_unit_range d -> arccos' d = arccos_ d) ->
      slerp l2norm sin_ arccos' a b alpha = slerp l2norm sin_ arccos_ a b alpha)
  /\ (any_isnan (slerp_res l2norm sin_ arccos_ a b alpha) = true ->
      slerp l2norm sin_ arccos_ a b alpha = weighted_sum a b alpha)
  /\ (any_isnan (slerp_res l2norm sin_ arccos_ a b alpha) = false ->
      slerp l2norm sin_ arccos_ a b alpha
      = slerp_res l2norm sin_ arccos_ a b alpha).
Proof.
  split; [| split].
  - intros arccos' H. unfold slerp. cbv zeta.
    rewrite (slerp_res_arccos_ext l2norm sin_ arccos_ arccos' a b alpha H).
    reflexivity.
  - apply slerp_nan.
  - apply slerp_no_nan.
Qed.

(** A zero tensor has norm 0, its normalization is 0/0, and [slerp] falls
    back to the weighted sum. *)
Lemma slerp_nan_fallback_witness :
  any_isnan (slerp_res Prims.l2norm_f32 Prims.sin_approx Prims.arccos_approx
                       slerp_zero slerp_ones (Q2Qc (1 # 2))) = true
  /\ slerp Prims.l2norm_f32 Prims.sin_approx Prims.arccos_approx
           slerp_zero slerp_ones (Q2Qc (1 # 2))
     = weighted_sum slerp_zero slerp_ones (Q2Qc (1 # 2)).
Proof.
  assert (H : any_isnan (slerp_res Prims.l2norm_f32 Prims.sin_approx
                                   Prims.arccos_approx
                                   slerp_zero slerp_ones (Q2Qc (1 # 2))) = true)
    by (vm_compute; reflexivity).
  split; [exact H |].
  exact (proj1 (proj2 (@slerp_nan_fallback
                         Prims.l2norm_f32 Prims.sin_approx Prims.arccos_approx
                         slerp_zero slerp_ones (Q2Qc (1 # 2)))) H).
Defined.

(** C6, as stated, fails on infinities: the float32 norm of [a = (3e38,
    3e38)] overflows, the interpolation result is infinite at every element
    and holds no NaN, and [slerp] returns it rather than the (finite)
    weighted sum. *)
Lemma slerp_infinite_result_counterexample :
  data (slerp_res Prims.l2norm_f32 Prims.sin_approx Prims.arccos_approx
                  slerp_huge slerp_ones (Q2Qc (1 # 2)))
  = [PInf; PInf]
  /\ slerp Prims.l2norm_f32 Prims.sin_approx Prims.arccos_approx
           slerp_huge slerp_ones (Q2Qc (1 # 2))
     = mkTensor [2%nat] [PInf; PInf]
  /\ finite_tensor (weighted_sum slerp_huge slerp_ones (Q2Qc (1 # 2)))
  /\ slerp Prims.l2norm_f32 Prims.sin_approx Prims.arccos_approx
           slerp_huge slerp_ones (Q2Qc (1 # 2))
     <> weighted_sum slerp_huge slerp_ones (Q2Qc (1 # 2)).
Proof.
  assert (E : slerp Prims.l2norm_f32 Prims.sin_approx Prims.arccos_approx
                    slerp_huge slerp_ones (Q2Qc (1 # 2))
              = mkTensor [2%nat] [PInf; PInf]) by (vm_compute; reflexivity).
  split; [vm_compute; reflexivity |].
  split; [exact E |].
  split; [repeat constructor |].
  rewrite E. intros H. vm_compute in H. discriminate H.
Qed.

(* ------------------------------------------------------------------ *)
(** ** dropout with everything dropped *)

Section DropoutFacts.

Open Scope Qc_scope.

Variable tan_ : Qc -> Qc.
Variable exp_ : Qc -> num.
Variable pypow : Qc -> Qc -> result num.
Variable random_bits : option Z -> nat -> N.

Lemma uniform_lt_1 (seed : option Z) (k : nat) : uniform random_bits seed k < 1.
Proof.
  unfold uniform.
  set (m := Z.of_N (random_bits seed k mod 2 ^ 53)).
  assert (Hm : (m < 2 ^ 53)%Z).
  { unfold m. change (2 ^ 53)%Z with (Z.of_N (2 ^ 53)).
    apply N2Z.inj_lt. apply N.mod_lt. discriminate. }
  assert (Hd : ofZ (2 ^ 53) <> 0) by discriminate.
  assert (Hp : 0 < ofZ (2 ^ 53)) by reflexivity.
  assert (Hlt : ofZ m < ofZ (2 ^ 53)).
  { qc2q. rewrite <- Zlt_Qlt. exact Hm. }
  assert (E : ofZ m = (ofZ m / ofZ (2 ^ 53)) * ofZ (2 ^ 53)) by (field; exact Hd).
  set (u := ofZ m / ofZ (2 ^ 53)) in *.
  destruct (Qclt_le_dec u 1) as [H | H]; [exact H | exfalso].
  assert (H1 : 1 * ofZ (2 ^ 53) <= u * ofZ (2 ^ 53)).
  { apply Qcmult_le_compat_r; [exact H | apply Qclt_le_weak, Hp]. }
  rewrite <- E in H1. replace (1 * ofZ (2 ^ 53)) with (ofZ (2 ^ 53)) in H1 by ring.
  revert Hlt. apply Qcle_not_lt, H1.
Qed.

Lemma bernoulli_never (u : Qc) : bernoulli (1 - 1) u = false.
Proof. reflexivity. Qed.

Lemma map_const_seq {A : Type} (c : A) (a n : nat) :
  map (fun _ => c) (seq a n) = repeat c n.
Proof.
  revert a. induction n as [| n IH]; intros a; cbn; [reflexivity |].
  rewrite IH. reflexivity.
Qed.

(** *** The subset distribution at [probability = 1] *)

Lemma overlapping_sets_pmf_shape (n : nat) (p overlap overlap_emphasis : Qc) :
  exists pmf,
    overlapping_sets_pmf tan_ exp_ n p overlap overlap_emphasis
    = Fin p :: map (fun x => nmul x (Fin (1 - p))) pmf.
Proof.
  unfold overlapping_sets_pmf. cbv zeta.
  match goal with
  | |- context [match ?X with pair _ _ => _ end] => destruct X as [pmf0 ov]
  end.
  eexists. reflexivity.
Qed.

Lemma nmul_0_finite (x : num) :
  isfinite (nmul x (Fin (1 - 1))) = true -> nmul x (Fin (1 - 1)) = Fin 0.
Proof.
  destruct x as [q | | |]; cbn; try discriminate.
  intros _. f_equal. ring.
Qed.

Lemma pmf_all_dropped (n : nat) (overlap overlap_emphasis : Qc) :
  Forall (fun x => isfinite x = true)
         (overlapping_sets_pmf tan_ exp_ n 1 overlap overlap_emphasis) ->
  exists tail,
    overlapping_sets_pmf tan_ exp_ n 1 overlap overlap_emphasis = Fin 1 :: tail
    /\ zeros tail.
Proof.
  destruct (overlapping_sets_pmf_shape n 1 overlap overlap_emphasis)
    as [pmf E].
  rewrite E. intros H. eexists. split; [reflexivity |].
  inversion H as [| ? ? _ Ht]; subst. unfold zeros.
  rewrite Forall_map in *. eapply Forall_impl; [| exact Ht].
  intros x Hx. apply nmul_0_finite, Hx.
Qed.

(** *** Sampling from the point mass at index 0 *)

Lemma fold_nadd_zeros_acc (l : list num) (q : Qc) :
  zeros l -> fold_left nadd l (Fin q) = Fin q.
Proof.
  induction 1 as [| x l Hx Hl IH]; cbn [fold_left]; [reflexivity |].
  subst x. cbn [nadd]. replace (q + 0) with q by ring. exact IH.
Qed.

Lemma cumsum_zeros (l : list num) (q : Qc) :
  zeros l -> Forall (fun x => x = Fin q) (cumsum (Fin q) l).
Proof.
  induction 1 as [| x l Hx Hl IH]; cbn [cumsum]; [constructor |].
  subst x. cbn [nadd]. replace (q + 0) with q by ring.
  constructor; auto.
Qed.

Lemma last_all {A : Type} (l : list A) (c d : A) :
  l <> [] -> Forall (fun x => x = c) l -> last l d = c.
Proof.
  intros Hne H. induction H as [| x l Hx Hl IH]; [congruence |].
  destruct l as [| y l]; [exact Hx |].
  change (last (x :: y :: l) d) with (last (y :: l) d).
  apply IH. discriminate.
Qed.

Lemma existsb_zeros_neg (l : list num) :
  zeros l -> existsb (fun x => nltb x (Fin 0)) l = false.
Proof.
  induction 1 as [| x l Hx Hl IH]; cbn; [reflexivity |].
  subst x. exact IH.
Qed.

Lemma filter_ones_below (l : list num) (u : Qc) :
  u < 1 -> Forall (fun x => x = Fin 1) l ->
  filter (fun c => nleb c (Fin u)) l = [].
Proof.
  intros Hu. induction 1 as [| x l Hx Hl IH]; cbn; [reflexivity |].
  subst x. cbn [nleb]. apply Qcleb_false in Hu. rewrite Hu. exact IH.
Qed.

Lemma rng_choice_point_mass (seed : option Z) (size : nat) (tail : list num) :
  zeros tail ->
  rng_choice random_bits seed size (Fin 1 :: tail) = Ok (repeat O size).
Proof.
  intros Hz. unfold rng_choice.
  assert (Es : nsum (Fin 1 :: tail) = Fin 1).
  { unfold nsum. cbn [fold_left nadd nzero].
    replace (0 + 1) with 1 by ring. apply fold_nadd_zeros_acc, Hz. }
  rewrite Es. cbn [isnan existsb nltb].
  change (Qcltb 1 0) with false. cbn [orb].
  rewrite (existsb_zeros_neg Hz).
  change (ngtb (nabs (nsub (Fin 1) (Fin 1))) (Fin (Q2Qc (1 # 67108864))))
    with false.
  cbv iota. f_equal.
  set (cdf := cumsum nzero (Fin 1 :: tail)).
  assert (Hc : Forall (fun x => x = Fin 1) cdf).
  { unfold cdf. cbn [cumsum nadd nzero]. replace (0 + 1) with 1 by ring.
    constructor; [reflexivity | apply cumsum_zeros, Hz]. }
  assert (Hne : cdf <> []) by (unfold cdf; cbn; discriminate).
  rewrite (last_all NaN Hne Hc).
  assert (Hc' : Forall (fun x => x = Fin 1) (map (fun x => ndiv x (Fin 1)) cdf)).
  { rewrite Forall_map. eapply Forall_impl; [| exact Hc].
    intros x ->. apply ndiv_1_r. }
  rewrite <- (map_const_seq O O size).
  apply map_ext. intros i.
  rewrite (filter_ones_below (uniform_lt_1 seed i) Hc'). reflexivity.
Qed.

(** *** Every inclusion mask is empty *)

Lemma dropout_masks_all_dropped (seed : option Z) (n size : nat)
      (overlap overlap_emphasis : Qc) :
  (pymod overlap (ofZ 2) <> 1 ->
   Forall (fun x => isfinite x = true)
          (overlapping_sets_pmf tan_ exp_ n 1 overlap overlap_emphasis)) ->
  dropout_masks tan_ exp_ random_bits seed n size 1 overlap overlap_emphasis
  = Ok (repeat (repeat false size) n).
Proof.
  intros Hfin. unfold dropout_masks.
  destruct (Qceqb (pymod overlap (ofZ 2)) 1) eqn:E.
  - change (Qcltb (1 - 1) 0 || Qcltb 1 (1 - 1)) with false. cbv iota.
    f_equal. rewrite <- (map_const_seq (repeat false size) O n).
    apply map_ext. intros j. rewrite <- (map_const_seq false O size).
    apply map_ext. intros i. apply bernoulli_never.
  - apply Qceqb_false in E. specialize (Hfin E).
    destruct (pmf_all_dropped _ _ _ Hfin) as (tail & Et & Hz).
    rewrite Et, (rng_choice_point_mass seed size Hz). cbn [bind]. f_equal.
    rewrite <- (map_const_seq (repeat false size) O n).
    apply map_ext. intros i.
    rewrite <- (map_const_seq false O size), <- (map_const_seq O O size).
    rewrite map_map. apply map_ext. intros _. reflexivity.
Qed.

(** *** Nothing is accumulated, and the divisors are 1 *)

Lemma map2_all_false (size : nat) (acc : list num) (d : list num) :
  length acc = size -> length d = size ->
  map2 (fun (m : bool) (xs : num * num) =>
          if m then nadd (fst xs) (snd xs) else fst xs)
       (repeat false size) (combine acc d)
  = acc.
Proof.
  revert acc d. induction size as [| size IH]; intros [| x acc] [| y d] Ha Hd;
    cbn in *; try discriminate; auto.
  rewrite IH; auto.
Qed.

Lemma accumulate_all_false (size : nat) (deltas : list tensor) (zero : list num) :
  length zero = size ->
  Forall (fun d => length (data d) = size) deltas ->
  accumulate (repeat (repeat false size) (length deltas)) deltas zero = zero.
Proof.
  intros Hz H. unfold accumulate. revert zero Hz.
  induction H as [| d ds Hd Hds IH]; intros zero Hz; cbn; [reflexivity |].
  rewrite map2_all_false; auto.
Qed.

Lemma nth_repeat_false (i size : nat) : nth i (repeat false size) false = false.
Proof.
  revert i. induction size as [| size IH]; intros [| i]; cbn; auto.
Qed.

Lemma mask_counts_all_false (n size : nat) :
  mask_counts (repeat (repeat false size) n) size = repeat 1 size.
Proof.
  unfold mask_counts. rewrite <- (map_const_seq (1 : Qc) O size).
  apply map_ext. intros i.
  assert (E : filter (fun m : list bool => nth i m false)
                     (repeat (repeat false size) n) = []).
  { induction n as [| n IH]; cbn; [reflexivity |].
    rewrite nth_repeat_false. exact IH. }
  rewrite E. reflexivity.
Qed.

Lemma rescalar_all_dropped (rescale : Qc) :
  rescalar_of pypow 1 rescale = Ok (Fin 1).
Proof. reflexivity. Qed.

Lemma divide_zeros (size : nat) :
  map2 (fun x c => ndiv (ndiv x (Fin c)) (Fin 1))
       (repeat (Fin 0) size) (repeat 1 size)
  = repeat (Fin 0) size.
Proof.
  induction size as [| size IH]; cbn [repeat map2]; [reflexivity |].
  rewrite IH, !ndiv_1_r. reflexivity.
Qed.

Lemma zeros_like_data (t : tensor) :
  data (zeros_like t) = repeat (Fin 0) (numel t).
Proof.
  unfold zeros_like, tmap, numel. cbn [data].
  induction (data t) as [| x l IH]; cbn; [reflexivity |].
  rewrite IH. reflexivity.
Qed.

Lemma dropout_all_dropped (delta0 : tensor) (deltas : list tensor)
      (rescale overlap overlap_emphasis seed : Qc) :
  Forall (fun d => shape d = shape delta0
                   /\ length (data d) = length (data delta0)) deltas ->
  (pymod overlap (ofZ 2) <> 1 ->
   Forall (fun x => isfinite x = true)
          (overlapping_sets_pmf tan_ exp_ (S (length deltas)) 1
                                overlap overlap_emphasis)) ->
  dropout tan_ exp_ pypow random_bits delta0 deltas 1 rescale
          overlap overlap_emphasis seed
  = Ok (zeros_like delta0).
Proof.
  intros Hd Hfin. unfold dropout. cbv zeta.
  rewrite stack_ok with (shp := shape delta0).
  2:{ discriminate. }
  2:{ constructor; [reflexivity |].
      eapply Forall_impl; [| exact Hd]. intros d [H _]. exact H. }
  cbn [bind].
  rewrite dropout_masks_all_dropped by exact Hfin.
  cbn [bind]. rewrite rescalar_all_dropped. cbn [bind]. f_equal.
  rewrite accumulate_all_false.
  - rewrite mask_counts_all_false, zeros_like_data, divide_zeros.
    unfold zeros_like, tmap. f_equal.
    rewrite <- zeros_like_data. reflexivity.
  - rewrite zeros_like_data, repeat_length. reflexivity.
  - constructor; [reflexivity |].
    eapply Forall_impl; [| exact Hd]. intros d [_ H]. exact H.
Qed.

End DropoutFacts.

(** C7, as amended.  [dropout] with [probability = 1.0] on deltas of one
    shape returns an all-zero tensor for every [rescale], [overlap_emphasis]
    and [seed], and for every [overlap] whose subset distribution is finite
    (always the case when [overlap] is an odd integer, where no distribution
    is built): every inclusion mask is empty, the per-element divisor is
    floored at 1, and the rescale divisor is forced to 1. *)
Theorem dropout_probability_1
        (tan_ : Qc -> Qc) (exp_ : Qc -> num) (pypow : Qc -> Qc -> result num)
        (random_bits : option Z -> nat -> N)
        (delta0 : tensor) (deltas : list tensor)
        (rescale overlap overlap_emphasis seed : Qc) :
  Forall (fun d => shape d = shape delta0
                   /\ length (data d) = length (data delta0)) deltas ->
  ((pymod overlap (ofZ 2) <> 1)%Qc ->
   Forall (fun x => isfinite x = true)
          (overlapping_sets_pmf tan_ exp_ (S (length deltas)) 1
                                overlap overlap_emphasis)) ->
  let n := S (length deltas) in
  let size := numel delta0 in
  let masks := repeat (repeat false size) n in
  dropout_masks tan_ exp_ random_bits
                (if Qcltb seed 0 then None else Some (pyint seed))
                n size 1 overlap overlap_emphasis
  = Ok masks
  /\ mask_counts masks size = repeat 1%Qc size
  /\ rescalar_of pypow 1 rescale = Ok (Fin 1)
  /\ dropout tan_ exp_ pypow random_bits delta0 deltas 1 rescale
             overlap overlap_emphasis seed
     = Ok (zeros_like delta0).
Proof.
  intros Hd Hfin n size masks. repeat split.
  - apply dropout_masks_all_dropped. exact Hfin.
  - apply mask_counts_all_false.
  - apply dropout_all_dropped; auto.
Qed.

(** Two deltas at a fractional [overlap = 1/2]: the subset distribution is
    built through [tan] and [exp] and is finite. *)
Lemma dropout_probability_1_witness :
  (Forall (fun d => shape d = shape drop_delta0
                    /\ length (data d) = length (data drop_delta0))
          [drop_delta1]
   /\ Forall (fun x => isfinite x = true)
             (overlapping_sets_pmf Prims.tan_rat Prims.exp_f64 2 1
                                   (Q2Qc (1 # 2)) 0))
  /\ dropout Prims.tan_rat Prims.exp_f64 Prims.pypow_int Prims.lcg_bits
             drop_delta0 [drop_delta1] 1 1 (Q2Qc (1 # 2)) 0 (- (1))
     = Ok (zeros_like drop_delta0).
Proof.
  assert (H1 : Forall (fun d => shape d = shape drop_delta0
                                /\ length (data d) = length (data drop_delta0))
                      [drop_delta1]) by (repeat constructor).
  assert (H2 : Forall (fun x => isfinite x = true)
                      (overlapping_sets_pmf Prims.tan_rat Prims.exp_f64 2 1
                                            (Q2Qc (1 # 2)) 0)).
  { apply Forall_forall. apply forallb_forall. vm_compute. reflexivity. }
  split; [auto |].
  exact (proj2 (proj2 (proj2
           (@dropout_probability_1
              Prims.tan_rat Prims.exp_f64 Prims.pypow_int Prims.lcg_bits
              drop_delta0 [drop_delta1] 1 (Q2Qc (1 # 2)) 0 (- (1))
              H1 (fun _ => H2))))).
Defined.

(** C7, as stated, fails for an [overlap] just below an integer: at
    [overlap = 0.9999] the tilt [tan(pi * 0.4999)] is about 3183, [exp]
    overflows, the softmax is [inf/inf], the distribution holds a NaN and
    sampling from it raises. *)
Lemma dropout_overflow_counterexample :
  overlapping_sets_pmf Prims.tan_rat Prims.exp_f64 1 1 (Q2Qc (9999 # 10000)) 0
  = [Fin 1; NaN]
  /\ dropout Prims.tan_rat Prims.exp_f64 Prims.pypow_int Prims.lcg_bits
             drop_delta0 [] 1 1 (Q2Qc (9999 # 10000)) 0 (- (1))
     = Raise ValueError.
Proof.
  split.
  - apply (list_eqb_eq num_eqb); [apply num_eqb_eq | vm_compute; reflexivity].
  - vm_compute. reflexivity.
Qed.

(* ------------------------------------------------------------------ *)
(** ** Binomial coefficients *)

Section Binomial.

Open Scope nat_scope.

Lemma choose_0_r (n : nat) : choose n 0 = 1.
Proof. destruct n; reflexivity. Qed.

Lemma choose_gt (n : nat) : forall k, n < k -> choose n k = 0.
Proof.
  induction n as [| n IH]; intros [| k] H; try lia; cbn [choose]; auto.
  rewrite !IH by lia. reflexivity.
Qed.

Lemma choose_diag (n : nat) : choose n n = 1.
Proof.
  induction n as [| n IH]; auto.
  cbn [choose]. rewrite IH, choose_gt by lia. reflexivity.
Qed.

(** The absorption identity behind the loop of [binomial_coefficient_np]. *)
Lemma choose_step (n : nat) :
  forall k, choose n (S k) * S k = choose n k * (n - k).
Proof.
  induction n as [| n IH]; intros k.
  - cbn [choose]. destruct k; cbn; lia.
  - destruct k as [| j].
    + pose proof (IH 0) as H0. rewrite choose_0_r in H0.
      cbn [choose]. rewrite choose_0_r. lia.
    + change (choose (S n) (S (S j)))
        with (choose n (S j) + choose n (S (S j))).
      change (choose (S n) (S j)) with (choose n j + choose n (S j)).
      pose proof (IH j) as H1. pose proof (IH (S j)) as H2.
      destruct (le_lt_dec (S j) n) as [Hle | Hgt].
      * replace (S n - S j) with (S (n - S j)) by lia.
        replace (n - j) with (S (n - S j)) in H1 by lia.
        nia.
      * rewrite (choose_gt (k := S (S j))) by lia.
        rewrite (choose_gt (k := S j)) in * by lia.
        replace (S n - S j) with 0 by lia. lia.
Qed.

Lemma choose_sym (n : nat) : forall k, k <= n -> choose n k = choose n (n - k).
Proof.
  induction n as [| n IH]; intros k Hk.
  - replace k with 0 by lia. reflexivity.
  - destruct k as [| k].
    + rewrite choose_0_r. replace (S n - 0) with (S n) by lia.
      symmetry. apply choose_diag.
    + destruct (Nat.eq_dec k n) as [-> | Hne].
      * rewrite choose_diag. replace (S n - S n) with 0 by lia.
        symmetry. apply choose_0_r.
      * replace (S n - S k) with (S (n - S k)) by lia.
        cbn [choose].
        rewrite (IH k) by lia. rewrite (IH (S k)) by lia.
        replace (n - k) with (S (n - S k)) by lia. lia.
Qed.

(** The loop invariant: after [i] rounds the accumulator is [choose n i]. *)
Lemma binomial_loop (n : nat) :
  forall m i, i + m <= n ->
    fold_left (fun result j => (result * (Z.of_nat n - j + 1) / j)%Z)
              (map Z.of_nat (seq (S i) m)) (Z.of_nat (choose n i))
    = Z.of_nat (choose n (i + m)).
Proof.
  induction m as [| m IH]; intros i H.
  - cbn. rewrite Nat.add_0_r. reflexivity.
  - cbn [seq map fold_left].
    replace (Z.of_nat (choose n i) * (Z.of_nat n - Z.of_nat (S i) + 1))%Z
      with (Z.of_nat (choose n (S i)) * Z.of_nat (S i))%Z.
    + rewrite Z.div_mul by lia.
      rewrite IH by lia. f_equal. f_equal. lia.
    + pose proof (choose_step n i) as Hs.
      replace (Z.of_nat n - Z.of_nat (S i) + 1)%Z with (Z.of_nat (n - i)) by lia.
      rewrite <- !Nat2Z.inj_mul. f_equal. exact Hs.
Qed.

Lemma binomial_coefficient_np_nat (n k : nat) :
  k <= n ->
  binomial_coefficient_np (Z.of_nat n) (Z.of_nat k) = Z.of_nat (choose n k).
Proof.
  intros H. unfold binomial_coefficient_np.
  destruct (Z.ltb_spec (Z.of_nat n - Z.of_nat k) (Z.of_nat k)) as [Hlt | Hge].
  - replace (Z.of_nat n - Z.of_nat k)%Z with (Z.of_nat (n - k)) by lia.
    rewrite Nat2Z.id.
    pose proof (@binomial_loop n (n - k) 0) as L.
    rewrite choose_0_r in L. cbn [Nat.add] in L.
    change (Z.of_nat 1) with 1%Z in L. rewrite L by lia.
    rewrite <- choose_sym by lia. reflexivity.
  - rewrite Nat2Z.id.
    pose proof (@binomial_loop n k 0) as L.
    rewrite choose_0_r in L. cbn [Nat.add] in L.
    change (Z.of_nat 1) with 1%Z in L. rewrite L by lia. reflexivity.
Qed.

(** Exhaustive comparison of the 64-bit loop with the exact one. *)
Lemma int64_table :
  forallb (fun n =>
             forallb (fun k =>
                        Z.eqb (binomial_coefficient_int64 (Z.of_nat n) (Z.of_nat k))
                              (binomial_coefficient_np (Z.of_nat n) (Z.of_nat k)))
                     (seq 0 (S n)))
          (seq 0 62) = true.
Proof. vm_compute. reflexivity. Qed.

End Binomial.

(** X1.  As the source runs it, with the accumulator an [np.int64],
    [binomial_coefficient_np n k] is the binomial coefficient for every
    [0 <= k <= n <= 61]: no product wraps, every floor division of the loop
    is exact, and the initial replacement of [k] by [n - k] does not change
    the value. *)
Theorem binomial_coefficient_int64_choose (n k : Z) :
  (0 <= k <= n)%Z -> (n <= 61)%Z ->
  binomial_coefficient_int64 n k = Z.of_nat (choose (Z.to_nat n) (Z.to_nat k)).
Proof.
  intros Hk Hn.
  pose proof int64_table as T. rewrite forallb_forall in T.
  assert (Hin : In (Z.to_nat n) (seq 0 62)) by (apply in_seq; lia).
  specialize (T _ Hin). rewrite forallb_forall in T.
  assert (Hik : In (Z.to_nat k) (seq 0 (S (Z.to_nat n)))) by (apply in_seq; lia).
  specialize (T _ Hik). apply Z.eqb_eq in T.
  rewrite binomial_coefficient_np_nat in T by lia.
  rewrite !Z2Nat.id in T by lia. exact T.
Qed.

Lemma binomial_coefficient_int64_choose_witness :
  binomial_coefficient_int64 10 3
  = Z.of_nat (choose (Z.to_nat 10) (Z.to_nat 3)).
Proof. apply (@binomial_coefficient_int64_choose 10 3); lia. Defined.

(** X2.  With the accumulator a 64-bit integer, as [np.int64] makes it, no
    product of the loop wraps for [n <= 61]: the result is the one of exact
    integer arithmetic for every [0 <= k <= n <= 61]. *)
Theorem binomial_coefficient_int64_exact (n k : Z) :
  (0 <= k <= n)%Z -> (n <= 61)%Z ->
  binomial_coefficient_int64 n k = binomial_coefficient_np n k.
Proof.
  intros Hk Hn.
  pose proof int64_table as T. rewrite forallb_forall in T.
  assert (Hin : In (Z.to_nat n) (seq 0 62)) by (apply in_seq; lia).
  specialize (T _ Hin). rewrite forallb_forall in T.
  assert (Hik : In (Z.to_nat k) (seq 0 (S (Z.to_nat n)))) by (apply in_seq; lia).
  specialize (T _ Hik). apply Z.eqb_eq in T.
  rewrite !Z2Nat.id in T by lia. exact T.
Qed.

Lemma binomial_coefficient_int64_exact_witness :
  binomial_coefficient_int64 61 30 = binomial_coefficient_np 61 30.
Proof. apply (@binomial_coefficient_int64_exact 61 30); lia. Defined.

(** The bound is sharp: at [n = 62] the product wraps. *)
Example binomial_coefficient_int64_wraps_at_62 :
  binomial_coefficient_int64 62 31 <> binomial_coefficient_np 62 31.
Proof. vm_compute. discriminate. Qed.

(* ------------------------------------------------------------------ *)
(** ** Region masking: the normalized offset *)

Section RegionOffset.

Open Scope Qc_scope.

Lemma floor_shift (x : Qc) (m : Z) : Qfloor (x + ofZ m)%Qc = (Qfloor x + m)%Z.
Proof.
  apply floor_unique.
  - pose proof (floor_le x) as H.
    assert (E : ofZ (Qfloor x + m) = ofZ (Qfloor x) + ofZ m).
    { apply Qc_eq_this. qc2q. rewrite inject_Z_plus. reflexivity. }
    rewrite E. set (f := ofZ (Qfloor x)) in *. qc_lra.
  - pose proof (lt_floor x) as H.
    assert (E : ofZ (Qfloor x + m) = ofZ (Qfloor x) + ofZ m).
    { apply Qc_eq_this. qc2q. rewrite inject_Z_plus. reflexivity. }
    rewrite E. set (f := ofZ (Qfloor x)) in *. qc_lra.
Qed.

(** The two normalization steps of the offset leave its fractional
    part. *)
Lemma offset_normalized (o : Qc) :
  fmod1 (if Qcltb o 0 then 1 + o - ofZ (pyint o) else o)
  = o - ofZ (Qfloor o).
Proof.
  qc_cases.
  - (* negative offset *)
    destruct (pyint_frac_neg Hc) as [H1 H2].
    assert (Ep : forall z, ofZ (z - 1) = ofZ z - 1).
    { intros z. apply Qc_eq_this. qc2q. unfold Zminus.
      rewrite inject_Z_plus. change (inject_Z (- (1))) with (- (1))%Q. lra. }
    remember (o - ofZ (pyint o)) as r eqn:Dr in *.
    assert (Er : 1 + o - ofZ (pyint o) = 1 + r) by (rewrite Dr; ring).
    rewrite Er.
    assert (Hr0 : 0 <= 1 + r) by qc_lra.
    unfold fmod1. rewrite (pyint_nonneg Hr0).
    assert (Eo : o = r + ofZ (pyint o)) by (rewrite Dr; ring).
    destruct (Qc_eq_dec r 0) as [E0 | Hne].
    + (* an integer offset *)
      rewrite E0 in *.
      assert (F1 : Qfloor (1 + 0)%Qc = 1%Z) by reflexivity.
      rewrite F1.
      assert (Ff : Qfloor o = pyint o).
      { rewrite Eo at 1. apply floor_unique; qc_lra. }
      rewrite Ff. rewrite Eo at 1. change (ofZ 1) with 1. ring.
    + assert (Hr1 : r < 0).
      { destruct (Qclt_le_dec r 0) as [L | G]; auto.
        exfalso. apply Hne. apply Qcle_antisym; auto. }
      assert (F0 : Qfloor (1 + r)%Qc = 0%Z).
      { apply floor_unique; change (ofZ 0) with 0; qc_lra. }
      rewrite F0. change (ofZ 0) with 0.
      assert (Ff : Qfloor o = (pyint o - 1)%Z).
      { apply floor_unique; rewrite Ep;
          set (p := ofZ (pyint o)) in *; clearbody p; rewrite Eo; qc_lra. }
      rewrite Ff, Ep. rewrite Eo at 1. ring.
  - unfold fmod1. rewrite (pyint_nonneg Hc). reflexivity.
Qed.

Lemma frac_range (o : Qc) : 0 <= o - ofZ (Qfloor o) /\ o - ofZ (Qfloor o) < 1.
Proof.
  pose proof (floor_le o). pose proof (lt_floor o).
  set (f := ofZ (Qfloor o)) in *. split; qc_lra.
Qed.

(** [ratio_to_region] in terms of the folded width and the fractional part
    of the folded offset. *)
Lemma ratio_to_region_normal (width offset : Qc) (n : Z) :
  let o1 := if Qcltb width 0 then offset + width else offset in
  let w := Qcmin (if Qcltb width 0 then - width else width) 1 in
  let o := o1 - ofZ (Qfloor o1) in
  ratio_to_region width offset n
  = if Qcleb (w + o) 1 then
      (pyround (o * ofZ n), pyround ((w + o) * ofZ n), false)
    else (pyround ((w + o - 1) * ofZ n), pyround (o * ofZ n), true).
Proof.
  intros o1 w o. unfold ratio_to_region.
  destruct (Qcltb width 0) eqn:E; cbv beta iota zeta;
    rewrite offset_normalized; reflexivity.
Qed.

End RegionOffset.

(** X4.  A zero width selects nothing: the region is not inverted and its
    start equals its end, for every offset and length. *)
Theorem ratio_to_region_width_0 (offset : Qc) (n : Z) :
  exists s : Z, ratio_to_region 0 offset n = (s, s, false).
Proof.
  rewrite ratio_to_region_normal. cbv zeta.
  change (Qcltb 0 0) with false. cbv iota.
  change (Qcmin 0 1) with 0%Qc.
  destruct (frac_range offset) as [H0 H1].
  set (o := (offset - ofZ (Qfloor offset))%Qc) in *.
  replace (0 + o)%Qc with o by ring.
  assert (E : Qcleb o 1 = true) by (apply Qcleb_true; qc_lra).
  rewrite E. eauto.
Qed.

(* ------------------------------------------------------------------ *)
(** ** tensor_sum *)

Section TensorSum.

Open Scope nat_scope.

Lemma assign_nth (dst src : list num) (s e i : nat) :
  length src = length dst -> s <= e -> e <= length dst ->
  nth i (firstn s dst ++ firstn (e - s) (skipn s src) ++ skipn e dst) NaN
  = if (s <=? i) && (i <? e) then nth i src NaN else nth i dst NaN.
Proof.
  intros Hl Hse He.
  assert (L1 : length (firstn s dst) = s) by (apply firstn_length_le; lia).
  assert (L2 : length (firstn (e - s) (skipn s src)) = e - s).
  { apply firstn_length_le. rewrite length_skipn. lia. }
  destruct (Nat.leb_spec s i) as [Hsi | Hsi]; cbn [andb].
  - rewrite app_nth2 by lia. rewrite L1.
    destruct (Nat.ltb_spec i e) as [Hie | Hie].
    + rewrite app_nth1 by lia.
      rewrite nth_firstn.
      destruct (Nat.ltb_spec (i - s) (e - s)); [| lia].
      rewrite nth_skipn. f_equal. lia.
    + rewrite app_nth2 by lia. rewrite L2.
      rewrite nth_skipn. f_equal. lia.
  - rewrite app_nth1 by lia.
    rewrite nth_firstn.
    destruct (Nat.ltb_spec i s); [reflexivity | lia].
Qed.

Lemma assign_length (dst src : list num) (s e : nat) :
  length src = length dst -> s <= e -> e <= length dst ->
  length (firstn s dst ++ firstn (e - s) (skipn s src) ++ skipn e dst)
  = length dst.
Proof.
  intros Hl Hse He.
  rewrite !length_app, length_skipn.
  rewrite (firstn_length_le dst) by lia.
  rewrite firstn_length_le by (rewrite length_skipn; lia).
  lia.
Qed.

Lemma row_index (row s e i : nat) :
  0 < row ->
  ((s * row <=? i) && (i <? e * row)) = ((s <=? i / row) && (i / row <? e)).
Proof.
  intros Hr.
  assert (H1 : row * (i / row) <= i) by (apply Nat.Div0.mul_div_le).
  assert (H2 : i < row * S (i / row)) by (apply Nat.mul_succ_div_gt; lia).
  destruct (Nat.leb_spec (s * row) i), (Nat.leb_spec s (i / row));
    destruct (Nat.ltb_spec i (e * row)), (Nat.ltb_spec (i / row) e);
    cbn [andb]; try reflexivity; exfalso; nia.
Qed.

Lemma wf_rows (a : tensor) (size0 : nat) (rest : list nat) :
  shape a = size0 :: rest -> wf_tensor a ->
  length (data a) = size0 * row_numel (shape a).
Proof.
  intros Hs Hw. unfold wf_tensor in Hw. rewrite Hw, Hs. reflexivity.
Qed.

Lemma assign_rows_nth (dst src : tensor) (s e : Z) (size0 : nat)
      (rest : list nat) (i : nat) :
  shape dst = size0 :: rest -> shape src = shape dst ->
  wf_tensor dst -> wf_tensor src ->
  (0 <= s <= Z.of_nat size0 /\ 0 <= e <= Z.of_nat size0)%Z ->
  i < numel dst ->
  nth i (data (assign_rows dst src s e)) NaN
  = if (Z.to_nat s <=? i / row_numel (shape dst))
       && (i / row_numel (shape dst) <? Z.to_nat e)
    then nth i (data src) NaN else nth i (data dst) NaN.
Proof.
  intros Hs Hss Hwd Hws Hb Hi.
  pose proof (wf_rows Hs Hwd) as Ld.
  assert (Ls : length (data src) = length (data dst)).
  { unfold wf_tensor in *. rewrite Hws, Hwd, Hss. reflexivity. }
  unfold numel in Hi.
  set (row := row_numel (shape dst)) in *.
  assert (Hr : 0 < row) by (destruct row; [lia | lia]).
  unfold assign_rows. cbn [data]. fold row.
  set (S := Z.to_nat s). set (E := Z.to_nat e). set (M := Nat.max S E).
  assert (HS : S <= size0) by (unfold S; lia).
  assert (HE : E <= size0) by (unfold E; lia).
  rewrite assign_nth; [| exact Ls | unfold M; nia | unfold M; nia].
  rewrite row_index by exact Hr.
  replace ((S <=? i / row) && (i / row <? M))
    with ((S <=? i / row) && (i / row <? E)); [reflexivity |].
  unfold M.
  destruct (Nat.leb_spec S (i / row)), (Nat.ltb_spec (i / row) E),
    (Nat.ltb_spec (i / row) (Nat.max S E)); cbn [andb]; try reflexivity; lia.
Qed.

Lemma assign_rows_length (dst src : tensor) (s e : Z) (size0 : nat)
      (rest : list nat) :
  shape dst = size0 :: rest -> shape src = shape dst ->
  wf_tensor dst -> wf_tensor src ->
  (0 <= s <= Z.of_nat size0 /\ 0 <= e <= Z.of_nat size0)%Z ->
  length (data (assign_rows dst src s e)) = numel dst.
Proof.
  intros Hs Hss Hwd Hws Hb.
  pose proof (wf_rows Hs Hwd) as Ld.
  assert (Ls : length (data src) = length (data dst)).
  { unfold wf_tensor in *. rewrite Hws, Hwd, Hss. reflexivity. }
  unfold assign_rows, numel. cbn [data].
  set (row := row_numel (shape dst)) in *.
  apply assign_length; [exact Ls | nia | nia].
Qed.

(** An empty slice assigns nothing. *)
Lemma assign_rows_empty (dst src : tensor) (s : Z) :
  assign_rows dst src s s = dst.
Proof.
  unfold assign_rows. rewrite Nat.max_id, Nat.sub_diag. cbn [firstn app].
  rewrite firstn_skipn. destruct dst; reflexivity.
Qed.

End TensorSum.

(** X7.  With [width = 0], [tensor_sum] returns [a] unchanged, for every
    offset, every [b] and every shape, the 0-dimensional one included. *)
Theorem tensor_sum_width_0 (a b : tensor) (offset : Qc) :
  tensor_sum a b 0 offset = a.
Proof.
  unfold tensor_sum. destruct (shape a) as [| size0 rest] eqn:Hs.
  - reflexivity.
  - rewrite ratio_to_region_normal. cbv zeta.
    change (Qcltb 0 0) with false. cbv iota.
    change (Qcmin 0 1) with 0%Qc.
    destruct (frac_range offset) as [H0 H1].
    set (o := (offset - ofZ (Qfloor offset))%Qc) in *.
    replace (0 + o)%Qc with o by ring.
    assert (E : Qcleb o 1 = true) by (apply Qcleb_true; qc_lra).
    rewrite E. apply assign_rows_empty.
Qed.

(** The inverted path on a concrete input: width 1/2 at offset 3/4 wraps around,
    rows 0 and 3 come from [b]. *)
Example tensor_sum_example :
  tensor_eqb (tensor_sum rows_a rows_b (Q2Qc (1 # 2)) (Q2Qc (3 # 4)))
             (mkTensor [4%nat; 2%nat]
                       (map (fun z => Fin (ofZ z)) [10; 20; 3; 4; 5; 6; 70; 80]%Z))
  = true.
Proof. vm_compute. reflexivity. Qed.

(* ------------------------------------------------------------------ *)
(** ** Elementwise reasoning *)

Lemma map2_length_min {A B C : Type} (f : A -> B -> C) (l : list A) (m : list B) :
  length (map2 f l m) = Nat.min (length l) (length m).
Proof.
  revert m. induction l as [| x l IH]; intros [| y m]; cbn; auto.
Qed.

Lemma map_nth_NaN (f : num -> num) (l : list num) (i : nat) :
  (i < length l)%nat -> nth i (map f l) NaN = f (nth i l NaN).
Proof.
  intros H. rewrite (nth_indep _ NaN (f NaN)) by (rewrite length_map; exact H).
  apply map_nth.
Qed.

Lemma map2_nth_NaN (f : num -> num -> num) (l m : list num) (i : nat) :
  (i < length l)%nat -> (i < length m)%nat ->
  nth i (map2 f l m) NaN = f (nth i l NaN) (nth i m NaN).
Proof. intros H1 H2. apply map2_nth; assumption. Qed.

Lemma finite_nth (a : tensor) (i : nat) :
  finite_tensor a -> (i < length (data a))%nat ->
  exists q, nth i (data a) NaN = Fin q.
Proof.
  intros Hf Hi. unfold finite_tensor in Hf. rewrite Forall_forall in Hf.
  apply isfinite_Fin, Hf, nth_In, Hi.
Qed.

Create Rewrite HintDb len.
#[export] Hint Rewrite @length_map @map2_length_min : len.

(** Lengths of elementwise results. *)
Ltac len := autorewrite with len in *; lia.

(** The tensor operators, opened down to the lists they work on. *)
Ltac open_tensors :=
  unfold weighted_sum, zeros_like,
    tadd, tsub, tmul, tdiv, tscale, tmuls, tdivs, tabs, tmap2, tmap, at_ in *;
  cbn [data shape] in *.

(** The element at index [i] of an elementwise expression. *)
Ltac push_nth :=
  repeat first
    [ rewrite map2_nth_NaN by len
    | rewrite map_nth_NaN by len ].

Section NumFacts.

Open Scope Qc_scope.

Lemma this_div (x y : Qc) : (this (x / y) == this x / this y)%Q.
Proof.
  unfold Qcdiv, Qcinv, Qcmult, Q2Qc. cbn [this].
  rewrite !Qred_correct. reflexivity.
Qed.

Lemma nan_to_num_Fin (q : Qc) : nan_to_num (Fin q) = Fin q.
Proof. reflexivity. Qed.

Lemma Qcmult_le_0_compat (x y : Qc) : 0 <= x -> 0 <= y -> 0 <= x * y.
Proof.
  intros Hx Hy. replace 0 with (0 * y) by ring.
  apply Qcmult_le_compat_r; assumption.
Qed.

Lemma Qcsquare_pos (t : Qc) : 0 <= t * t.
Proof.
  destruct (Qclt_le_dec t 0) as [L | G].
  - replace (t * t) with ((- t) * (- t)) by ring.
    apply Qcmult_le_0_compat; qc_lra.
  - apply Qcmult_le_0_compat; assumption.
Qed.

End NumFacts.

(* ------------------------------------------------------------------ *)
(** ** Maxima *)

Section Masks.

Open Scope Qc_scope.

Lemma Qcmax_bounds (p q : Qc) : p <= Qcmax p q /\ q <= Qcmax p q.
Proof. unfold Qcmax. qc_cases; split; qc_lra. Qed.

Lemma nmax_Fin (p q : Qc) : nmax (Fin p) (Fin q) = Fin (Qcmax p q).
Proof. cbn [nmax nltb]. unfold Qcmax. destruct (Qcltb p q); reflexivity. Qed.

End Masks.

(* ------------------------------------------------------------------ *)
(** ** perpendicular_component *)

Section Sums.

Open Scope Qc_scope.

Lemma fold_nadd_NaN (l : list num) : fold_left nadd l NaN = NaN.
Proof. induction l as [| x l IH]; cbn; auto. Qed.

Lemma nadd_NaN_r (x : num) : nadd x NaN = NaN.
Proof. destruct x; reflexivity. Qed.

Lemma nmul_NaN_r (x : num) : nmul x NaN = NaN.
Proof. destruct x; reflexivity. Qed.

(** A sum with a NaN term is NaN. *)
Lemma fold_nadd_In_NaN (l : list num) :
  In NaN l -> forall acc, fold_left nadd l acc = NaN.
Proof.
  induction l as [| x l IH]; intros H acc; [destruct H |].
  destruct H as [E | H]; cbn [fold_left].
  - subst x. rewrite nadd_NaN_r. apply fold_nadd_NaN.
  - apply IH, H.
Qed.

Lemma ndiv_Fin (x r : Qc) : r <> 0 -> ndiv (Fin x) (Fin r) = Fin (x / r).
Proof.
  intros Hr. cbn [ndiv]. apply Qceqb_false in Hr. rewrite Hr. reflexivity.
Qed.

End Sums.

(** X15.  When the norm of [a] is 0 and [a] holds a zero element (so for
    every non-empty all-zero [a]), the projection divides 0 by 0, the
    result holds a NaN and [perpendicular_component] returns
    [zeros_like(a)], whatever [b] of the same length is. *)
Theorem perpendicular_component_zero_norm (l2norm : list num -> num)
        (a b : tensor) :
  l2norm (data a) = Fin 0 -> In (Fin 0) (data a) ->
  length (data a) = length (data b) ->
  perpendicular_component l2norm a b = zeros_like a.
Proof.
  intros Hn Hz Hl. unfold perpendicular_component. rewrite Hn.
  destruct (In_nth _ _ NaN Hz) as (i & Hi & Ei).
  assert (S : tsum (tmul (tdivs a (Fin 0)) (tdivs b (Fin 0))) = NaN).
  { unfold tsum, nsum. apply fold_nadd_In_NaN.
    open_tensors.
    assert (L : (i < length (map2 nmul (map (fun x => ndiv x (Fin 0)) (data a))
                                  (map (fun x => ndiv x (Fin 0)) (data b))))%nat)
      by len.
    assert (E : nth i (map2 nmul (map (fun x => ndiv x (Fin 0)) (data a))
                            (map (fun x => ndiv x (Fin 0)) (data b))) NaN = NaN).
    { push_nth. rewrite Ei. reflexivity. }
    pose proof (nth_In _ NaN L) as HIn. rewrite E in HIn. exact HIn. }
  rewrite S.
  assert (N : any_isnan (tsub b (tmuls a NaN)) = true).
  { unfold any_isnan. apply existsb_exists.
    exists NaN. split; [| reflexivity].
    open_tensors.
    assert (L : (i < length (map2 nsub (data b)
                                  (map (fun x => nmul x NaN) (data a))))%nat)
      by len.
    assert (E : nth i (map2 nsub (data b) (map (fun x => nmul x NaN) (data a)))
                    NaN = NaN).
    { push_nth. rewrite nmul_NaN_r. unfold nsub. cbn [nopp].
      apply nadd_NaN_r. }
    pose proof (nth_In _ NaN L) as HIn. rewrite E in HIn. exact HIn. }
  rewrite N. reflexivity.
Qed.

Lemma perpendicular_component_zero_norm_witness :
  perpendicular_component Prims.l2norm_f32 slerp_zero perp_b
  = zeros_like slerp_zero.
Proof.
  apply (@perpendicular_component_zero_norm Prims.l2norm_f32 slerp_zero perp_b).
  - apply num_eqb_eq. vm_compute. reflexivity.
  - left. reflexivity.
  - reflexivity.
Defined.

(* ------------------------------------------------------------------ *)
(** ** clamp: the interval of the bounds and the tightening loop *)

Section Map3.

Context {A B C D : Type}.

Lemma map3_length (f : A -> B -> C -> D) (l : list A) (m : list B) (n : list C) :
  length (map3 f l m n)
  = Nat.min (length l) (Nat.min (length m) (length n)).
Proof.
  revert m n. induction l as [| x l IH]; intros [| y m] [| z n]; cbn; auto.
Qed.

Lemma map3_nth (f : A -> B -> C -> D) (l : list A) (m : list B) (n : list C)
      (i : nat) da db dc dd :
  (i < length l)%nat -> (i < length m)%nat -> (i < length n)%nat ->
  nth i (map3 f l m n) dd = f (nth i l da) (nth i m db) (nth i n dc).
Proof.
  revert m n i.
  induction l as [| x l IH]; intros [| y m] [| z n] [| i] H1 H2 H3;
    cbn in *; try lia; auto.
  apply IH; lia.
Qed.

End Map3.

Section FoldColumns.

Open Scope nat_scope.

Variable f : num -> num -> num.

Lemma fold_tmap2_length (ts : list tensor) (acc : tensor) (N : nat) :
  length (data acc) = N -> all_numel N ts ->
  length (data (fold_left (tmap2 f) ts acc)) = N.
Proof.
  intros Hacc H. revert acc Hacc.
  induction H as [| t ts Ht Hts IH]; intros acc Hacc; cbn; auto.
  apply IH. unfold tmap2. cbn [data].
  rewrite map2_length; congruence.
Qed.

Lemma fold_tmap2_nth (ts : list tensor) (acc : tensor) (N p : nat) :
  length (data acc) = N -> all_numel N ts -> p < N ->
  nth p (data (fold_left (tmap2 f) ts acc)) NaN
  = fold_left f (column p ts) (nth p (data acc) NaN).
Proof.
  intros Hacc H Hp. revert acc Hacc.
  induction H as [| t ts Ht Hts IH]; intros acc Hacc; cbn; auto.
  rewrite IH.
  - f_equal. unfold tmap2. cbn [data]. apply map2_nth; lia.
  - unfold tmap2. cbn [data]. rewrite map2_length; congruence.
Qed.

End FoldColumns.

Section Envelope.

Open Scope Qc_scope.

Lemma nmin_Fin (p q : Qc) : nmin (Fin p) (Fin q) = Fin (Qcmin p q).
Proof. cbn [nmin nltb]. unfold Qcmin. destruct (Qcltb q p); reflexivity. Qed.

Lemma fold_nmax_Fin (qs : list Qc) (q0 : Qc) :
  fold_left nmax (map Fin qs) (Fin q0) = Fin (fold_left Qcmax qs q0).
Proof.
  revert q0. induction qs as [| q qs IH]; intros q0; cbn [map fold_left]; auto.
  rewrite nmax_Fin. apply IH.
Qed.

Lemma fold_nmin_Fin (qs : list Qc) (q0 : Qc) :
  fold_left nmin (map Fin qs) (Fin q0) = Fin (fold_left Qcmin qs q0).
Proof.
  revert q0. induction qs as [| q qs IH]; intros q0; cbn [map fold_left]; auto.
  rewrite nmin_Fin. apply IH.
Qed.

(** The running maximum is an element and an upper bound. *)
Lemma fold_Qcmax_spec (qs : list Qc) (q0 : Qc) :
  In (fold_left Qcmax qs q0) (q0 :: qs)
  /\ forall q, In q (q0 :: qs) -> q <= fold_left Qcmax qs q0.
Proof.
  revert q0. induction qs as [| q1 qs IH]; intros q0; cbn [fold_left].
  - split; [left; reflexivity |].
    intros q [<- | []]. apply Qcle_refl.
  - destruct (IH (Qcmax q0 q1)) as [Hin Hub]. split.
    + destruct Hin as [E | Hin].
      * rewrite <- E. unfold Qcmax. destruct (Qcltb q0 q1);
          [right; left | left]; reflexivity.
      * right. right. exact Hin.
    + intros q Hq.
      destruct (Qcmax_bounds q0 q1) as [M0 M1].
      assert (Hm : Qcmax q0 q1 <= fold_left Qcmax qs (Qcmax q0 q1))
        by (apply Hub; left; reflexivity).
      destruct Hq as [<- | [<- | Hq]].
      * eapply Qcle_trans; eassumption.
      * eapply Qcle_trans; eassumption.
      * apply Hub. right. exact Hq.
Qed.

Lemma Qcmin_bounds (p q : Qc) : Qcmin p q <= p /\ Qcmin p q <= q.
Proof. unfold Qcmin. qc_cases; split; qc_lra. Qed.

(** The running minimum is an element and a lower bound. *)
Lemma fold_Qcmin_spec (qs : list Qc) (q0 : Qc) :
  In (fold_left Qcmin qs q0) (q0 :: qs)
  /\ forall q, In q (q0 :: qs) -> fold_left Qcmin qs q0 <= q.
Proof.
  revert q0. induction qs as [| q1 qs IH]; intros q0; cbn [fold_left].
  - split; [left; reflexivity |].
    intros q [<- | []]. apply Qcle_refl.
  - destruct (IH (Qcmin q0 q1)) as [Hin Hlb]. split.
    + destruct Hin as [E | Hin].
      * rewrite <- E. unfold Qcmin. destruct (Qcltb q1 q0);
          [right; left | left]; reflexivity.
      * right. right. exact Hin.
    + intros q Hq.
      destruct (Qcmin_bounds q0 q1) as [M0 M1].
      assert (Hm : fold_left Qcmin qs (Qcmin q0 q1) <= Qcmin q0 q1)
        by (apply Hlb; left; reflexivity).
      destruct Hq as [<- | [<- | Hq]].
      * eapply Qcle_trans; eassumption.
      * eapply Qcle_trans; eassumption.
      * apply Hlb. right. exact Hq.
Qed.

Lemma clamp_between (x lo' hi' lo hi : Qc) :
  lo <= lo' -> lo' <= hi -> lo <= hi' -> hi' <= hi ->
  lo <= Qcmin (Qcmax x lo') hi' /\ Qcmin (Qcmax x lo') hi' <= hi.
Proof.
  intros. unfold Qcmin, Qcmax. qc_cases; split; qc_lra.
Qed.

Lemma column_finite (ts : list tensor) (N i : nat) :
  Forall finite_tensor ts -> all_numel N ts -> (i < N)%nat ->
  exists qs : list Qc, column i ts = map Fin qs.
Proof.
  intros Hf Hn Hi. induction ts as [| t ts IH].
  - exists []. reflexivity.
  - inversion Hf as [| ? ? Hft Hfts]; subst.
    inversion Hn as [| ? ? Hnt Hnts]; subst.
    destruct (IH Hfts Hnts) as [qs Eqs].
    destruct (@finite_nth t i Hft) as [q Eq]; [lia |].
    exists (q :: qs). unfold column in *. cbn [map]. rewrite Eq, Eqs.
    reflexivity.
Qed.

Lemma tighten_fold_length (average : tensor) (N : nat) (ts : list tensor) :
  length (data average) = N -> all_numel N ts ->
  forall sp ln : tensor,
    length (data sp) = N -> length (data ln) = N ->
    let r := fold_left (Method.tighten average) ts (sp, ln) in
    length (data (fst r)) = N /\ length (data (snd r)) = N.
Proof.
  intros Hav Hn.
  induction ts as [| t ts IH]; intros sp ln Lsp Lln; cbn [fold_left].
  - cbn. auto.
  - inversion Hn as [| ? ? Lt Hn']; subst.
    unfold Method.tighten at 2.
    apply IH; auto; unfold Method.twhere; cbn [data];
      rewrite !map3_length; lia.
Qed.

(** The tightening loop only ever selects elements of the bounds. *)
Lemma tighten_fold_inv (P : num -> Prop) (average : tensor) (N i : nat)
      (ts : list tensor) :
  length (data average) = N -> (i < N)%nat -> all_numel N ts ->
  Forall P (column i ts) ->
  forall sp ln : tensor,
    length (data sp) = N -> length (data ln) = N ->
    P (at_ sp i) -> P (at_ ln i) ->
    let r := fold_left (Method.tighten average) ts (sp, ln) in
    length (data (fst r)) = N /\ length (data (snd r)) = N
    /\ P (at_ (fst r) i) /\ P (at_ (snd r) i).
Proof.
  intros Hav Hi Hn HP.
  induction ts as [| t ts IH]; intros sp ln Lsp Lln Psp Pln; cbn [fold_left].
  - cbn. auto.
  - inversion Hn as [| ? ? Lt Hn']; subst.
    cbn [column map] in HP. inversion HP as [| ? ? Pt HP']; subst.
    unfold Method.tighten at 2.
    apply IH; auto.
    + unfold Method.twhere. cbn [data]. rewrite !map3_length. lia.
    + unfold Method.twhere. cbn [data]. rewrite !map3_length. lia.
    + unfold at_, Method.twhere. cbn [data].
      rewrite (map3_nth _ _ _ _ false NaN NaN)
        by (rewrite ?map3_length; lia).
      destruct (nth i _ false); assumption.
    + unfold at_, Method.twhere. cbn [data].
      rewrite (map3_nth _ _ _ _ false NaN NaN)
        by (rewrite ?map3_length; lia).
      destruct (nth i _ false); assumption.
Qed.

End Envelope.

(* ------------------------------------------------------------------ *)
(** ** TIES on one model *)

Section KeepAll.

Open Scope Qc_scope.

(** The smallest element of a list is below every element, in the order
    of [kthvalue]. *)
Lemma kthvalue_1_least (xs : list num) (t : num) :
  kthvalue xs 1 = Ok t -> forall y, In y xs -> sort_leb t y = true.
Proof.
  intros H0.
  assert (Hne : xs <> []) by (intros ->; discriminate H0).
  rewrite (kthvalue_nonempty _ Hne) in H0. revert H0.
  destruct ((1 <? 1)%Z || (Z.of_nat (length xs) <? 1)%Z); [discriminate |].
  change (Z.to_nat (1 - 1)) with O.
  pose proof (sort_sorted xs) as Hs. pose proof (sort_perm xs) as Hp.
  destruct (sort xs) as [| s l] eqn:E; cbn [nth_error]; [discriminate |].
  intros H y Hy. inversion H; subst t.
  apply (Permutation_in _ Hp) in Hy.
  inversion Hs as [| ? ? _ Hall]; subst.
  destruct Hy as [<- | Hy].
  - apply sort_leb_refl.
  - rewrite Forall_forall in Hall. apply Hall, Hy.
Qed.

Lemma keep_when_least (x t : num) :
  sort_leb t (nabs x) = true -> nmul x (of_bool (ngeb (nabs x) t)) = x.
Proof.
  destruct x as [q | | |], t as [p | | |]; cbn; try discriminate;
    try reflexivity; intros H; rewrite ?H; cbn; f_equal; ring.
Qed.

Lemma nsign_Fin (q : Qc) :
  nsign (Fin q) = Fin (if Qcltb 0 q then 1 else if Qcltb q 0 then - (1) else 0).
Proof.
  unfold nsign, nzero. cbn [nltb nsub of_bool].
  destruct (Qcltb 0 q) eqn:P, (Qcltb q 0) eqn:M; cbn; try reflexivity.
  exfalso. apply Qcltb_true in P, M. qc_lra.
Qed.

Lemma nsign_idem (q : Qc) : nsign (nsign (Fin q)) = nsign (Fin q).
Proof.
  rewrite (nsign_Fin q).
  destruct (Qcltb 0 q); [reflexivity |].
  destruct (Qcltb q 0); reflexivity.
Qed.

Lemma neqb_refl_Fin (q : Qc) : neqb (Fin q) (Fin q) = true.
Proof. cbn. apply Qceqb_refl. Qed.

(** One model against its own elected sign: the mask is 1, the count is
    1 and the merged value is the value itself. *)
Lemma single_vote (q : Qc) (vote : bool) :
  let s := nsign (Fin q) in
  let final := nsign (nadd (Fin 0) (if vote then s else Fin q)) in
  let f := of_bool (neqb s final) in
  nan_to_num (ndiv (nadd (Fin 0) (nmul (Fin q) f)) (nadd (Fin 0) f)) = Fin q.
Proof.
  cbv zeta.
  assert (E : nsign (nadd (Fin 0) (if vote then nsign (Fin q) else Fin q))
              = nsign (Fin q)).
  { rewrite nadd_0_l. destruct vote; [apply nsign_idem | reflexivity]. }
  rewrite E. rewrite (nsign_Fin q).
  rewrite neqb_refl_Fin. cbn [of_bool].
  rewrite nmul_1_r, !nadd_0_l, ndiv_1_r. reflexivity.
Qed.

End KeepAll.

(** X19.  On a single finite, non-empty model, [ties_sum] returns the
    trimmed model [filter_top_k(m, k)]: every sign agrees with the elected
    one, the count is 1 everywhere, for both ways of electing the sign. *)
Theorem ties_sum_single_model (m : tensor) (k vote_sgn : Qc) :
  (0 <= k)%Qc -> finite_tensor m -> data m <> [] ->
  exists d : tensor,
    filter_top_k m k = Ok d /\ ties_sum [m] k vote_sgn = Ok d.
Proof.
  intros Hk Hf Hne.
  assert (Hnf : nan_free m).
  { unfold nan_free. eapply Forall_impl; [| exact Hf].
    intros x Hx. destruct x; cbn in *; congruence. }
  destruct (filter_top_k_spec Hne Hk Hnf) as (t & _ & Ed & _).
  set (d := mkTensor (shape m)
                     (map (fun x => if ngeb (nabs x) t then x else Fin 0)
                          (data m))) in *.
  assert (Hd : finite_tensor d).
  { unfold finite_tensor, d. cbn [data]. rewrite Forall_map.
    eapply Forall_impl; [| exact Hf].
    intros x Hx. destruct (ngeb (nabs x) t); auto. }
  clearbody d.
  exists d. split; [exact Ed |].
  unfold ties_sum, ties_sum_deltas, trim. cbn [mapM]. rewrite Ed.
  cbn [bind]. rewrite (@stack_ok [d] (shape d)) by (try discriminate; auto).
  cbn [bind]. f_equal.
  apply tensor_eq.
  { unfold elect_sign, delta_filters. destruct (Qcleb vote_sgn 0); reflexivity. }
  unfold elect_sign, delta_filters. cbn [map map2 sum0 sum_dim0 fold_left].
  assert (S0 : sum0 (if Qcleb vote_sgn 0 then [d] else [tmap nsign d])
               = tadd (zeros_like d) (if Qcleb vote_sgn 0 then d else tmap nsign d)).
  { destruct (Qcleb vote_sgn 0); cbn [sum0 sum_dim0 fold_left];
      [reflexivity |].
    unfold zeros_like, tadd, tmap2, tmap. cbn [data shape].
    rewrite map_map. reflexivity. }
  rewrite S0.
  unfold zeros_like, tsub, tmul, tdiv, tadd, tmap2, tmap. cbn [data shape].
  apply (nth_ext _ _ NaN NaN).
  { destruct (Qcleb vote_sgn 0); cbn [data]; len. }
  intros i Hi.
  assert (Li : (i < length (data d))%nat).
  { destruct (Qcleb vote_sgn 0); cbn [data] in Hi; len. }
  destruct (@finite_nth d i Hd Li) as [q Eq].
  pose proof (single_vote q (negb (Qcleb vote_sgn 0))) as V. cbv zeta in V.
  destruct (Qcleb vote_sgn 0); cbn [negb data] in *; push_nth;
    rewrite Eq; exact V.
Qed.

Lemma ties_sum_single_model_witness :
  exists d : tensor,
    filter_top_k trim_model (Q2Qc (1 # 2)) = Ok d
    /\ ties_sum [trim_model] (Q2Qc (1 # 2)) 0 = Ok d.
Proof.
  apply (@ties_sum_single_model trim_model (Q2Qc (1 # 2)) 0);
    try discriminate; repeat constructor.
Defined.

(* ------------------------------------------------------------------ *)
(** ** The extended TIES merge and model stock *)

Section Extended.

Variable cosine_similarity : Qc -> tensor -> tensor -> result tensor.
Variable broadcast_mul : tensor -> tensor -> tensor.
Variable l2norm : list num -> num.

Lemma consecutive_pairs_short (deltas : list tensor) :
  (length deltas <= 1)%nat -> consecutive_pairs deltas = [].
Proof.
  destruct deltas as [| d0 [| d1 rest]]; cbn; intros H; try reflexivity; lia.
Qed.

Lemma get_model_stock_t_short (deltas : list tensor) (cos_eps : Qc) :
  (length deltas <= 1)%nat ->
  get_model_stock_t cosine_similarity deltas cos_eps = Raise RuntimeError.
Proof.
  intros H. unfold get_model_stock_t.
  rewrite (consecutive_pairs_short _ H). reflexivity.
Qed.

(** The stack handed to the model-stock step has as many slices as there
    are models. *)
Lemma ties_sum_deltas_short (models : list tensor) (k vote_sgn : Qc) :
  (length models <= 1)%nat ->
  Forall (fun m => data m <> []) models -> 0 <= k ->
  ties_sum_deltas models k vote_sgn = Raise RuntimeError
  \/ exists fd pc, ties_sum_deltas models k vote_sgn = Ok (fd, pc)
                   /\ (length fd <= 1)%nat.
Proof.
  intros H Hne Hk. unfold ties_sum_deltas, trim.
  destruct models as [| m [| m' rest]]; cbn in H; try lia.
  - left. reflexivity.
  - cbn [mapM]. inversion Hne as [| ? ? Hm _]; subst.
    destruct (@filter_top_k_ok m k Hm Hk) as [d E]. rewrite E. cbn [bind].
    rewrite (@stack_ok [d] (shape d)) by (try discriminate; auto).
    cbn [bind]. right. do 2 eexists. split; [reflexivity |].
    unfold delta_filters. cbn. lia.
Qed.

End Extended.

(** X20.  With [apply_stock <= 0] and [apply_median <= 0] (the defaults),
    [ties_sum_extended] is [ties_sum]: the same result or the same error on
    every input, whatever the remaining parameters are. *)
Theorem ties_sum_extended_default
        (cosine_similarity : Qc -> tensor -> tensor -> result tensor)
        (broadcast_mul : tensor -> tensor -> tensor)
        (l2norm : list num -> num)
        (models : list tensor)
        (k vote_sgn apply_stock cos_eps apply_median eps maxiter ftol : Qc) :
  (apply_stock <= 0)%Qc -> (apply_median <= 0)%Qc ->
  ties_sum_extended cosine_similarity broadcast_mul l2norm models
                    k vote_sgn apply_stock cos_eps apply_median eps maxiter ftol
  = ties_sum models k vote_sgn.
Proof.
  intros Hs Hm. unfold ties_sum_extended, ties_sum.
  destruct (ties_sum_deltas models k vote_sgn) as [[fd pc] | e]; cbn [bind];
    [| reflexivity].
  apply Qcleb_true in Hs, Hm. rewrite Hs, Hm.
  rewrite tmuls_1. reflexivity.
Qed.

Lemma ties_sum_extended_default_witness :
  ties_sum_extended (fun _ a _ => Ok a) tmul Prims.l2norm_f32 ties_models
                    (Q2Qc (1 # 5)) 0 0 (Q2Qc (1 # 1000000)) 0
                    (Q2Qc (1 # 1000000)) (ofZ 100) gm_ftol
  = ties_sum ties_models (Q2Qc (1 # 5)) 0.
Proof.
  apply (@ties_sum_extended_default
           (fun _ a _ => Ok a) tmul Prims.l2norm_f32 ties_models
           (Q2Qc (1 # 5)) 0 0 (Q2Qc (1 # 1000000)) 0
           (Q2Qc (1 # 1000000)) (ofZ 100) gm_ftol);
    discriminate.
Defined.

(** X21.  Model stock needs two deltas: on fewer, [get_model_stock_t] has
    no cosine to stack and raises RuntimeError, and so does
    [model_stock_for_tensor], whatever the cosine similarity is. *)
Theorem model_stock_needs_two_deltas
        (cosine_similarity : Qc -> tensor -> tensor -> result tensor)
        (broadcast_mul : tensor -> tensor -> tensor)
        (deltas : list tensor) (cos_eps : Qc) :
  (length deltas <= 1)%nat ->
  get_model_stock_t cosine_similarity deltas cos_eps = Raise RuntimeError
  /\ model_stock_for_tensor cosine_similarity broadcast_mul deltas cos_eps
     = Raise RuntimeError.
Proof.
  intros H. split.
  - unfold get_model_stock_t.
    rewrite (consecutive_pairs_short _ H). reflexivity.
  - unfold model_stock_for_tensor.
    destruct (n_average deltas) as [w | e] eqn:E; cbn [bind].
    + rewrite (@get_model_stock_t_short cosine_similarity deltas cos_eps H).
      reflexivity.
    + destruct deltas as [| d0 [| d1 rest]]; cbn in H; try lia.
      * cbn in E. inversion E. reflexivity.
      * unfold n_average in E.
        rewrite (@stack_ok [d0] (shape d0)) in E by (try discriminate; auto).
        discriminate E.
Qed.

Lemma model_stock_needs_two_deltas_witness :
  get_model_stock_t (fun _ a _ => Ok a) [ws_a] (Q2Qc (1 # 1000000))
  = Raise RuntimeError
  /\ model_stock_for_tensor (fun _ a _ => Ok a) tmul [ws_a] (Q2Qc (1 # 1000000))
     = Raise RuntimeError.
Proof.
  apply (@model_stock_needs_two_deltas (fun _ a _ => Ok a) tmul [ws_a]
                                       (Q2Qc (1 # 1000000))).
  cbn. lia.
Defined.

(** X22.  The TIES-STOCK mode ([apply_stock > 0], [apply_median <= 0]) of
    [ties_sum_extended] raises RuntimeError on fewer than two models, for
    every non-empty model and every [k] in [0, 1]: without a model there is
    nothing to stack, and with one the trim step succeeds and the
    model-stock step finds no pair of deltas. *)
Theorem ties_stock_needs_two_models
        (cosine_similarity : Qc -> tensor -> tensor -> result tensor)
        (broadcast_mul : tensor -> tensor -> tensor)
        (l2norm : list num -> num)
        (models : list tensor)
        (k vote_sgn apply_stock cos_eps apply_median eps maxiter ftol : Qc) :
  (length models <= 1)%nat ->
  Forall (fun m => data m <> []) models ->
  (0 <= k)%Qc -> (k <= 1)%Qc ->
  (0 < apply_stock)%Qc -> (apply_median <= 0)%Qc ->
  ties_sum_extended cosine_similarity broadcast_mul l2norm models
                    k vote_sgn apply_stock cos_eps apply_median eps maxiter ftol
  = Raise RuntimeError.
Proof.
  intros H Hne Hk0 Hk1 Hs Hm. unfold ties_sum_extended.
  destruct (@ties_sum_deltas_short models k vote_sgn H Hne Hk0)
    as [E | (fd & pc & E & L)];
    rewrite E; cbn [bind]; [reflexivity |].
  apply Qcleb_true in Hm. rewrite Hm.
  apply Qcleb_false in Hs. rewrite Hs.
  rewrite (@get_model_stock_t_short cosine_similarity fd cos_eps L).
  reflexivity.
Qed.

Lemma ties_stock_needs_two_models_witness :
  ties_sum_extended (fun _ a _ => Ok a) tmul Prims.l2norm_f32 [trim_model]
                    (Q2Qc (1 # 5)) 0 1 (Q2Qc (1 # 1000000)) 0
                    (Q2Qc (1 # 1000000)) (ofZ 100) gm_ftol
  = Raise RuntimeError.
Proof.
  apply (@ties_stock_needs_two_models
           (fun _ a _ => Ok a) tmul Prims.l2norm_f32 [trim_model]
           (Q2Qc (1 # 5)) 0 1 (Q2Qc (1 # 1000000)) 0
           (Q2Qc (1 # 1000000)) (ofZ 100) gm_ftol).
  - cbn. lia.
  - repeat constructor. discriminate.
  - discriminate.
  - discriminate.
  - reflexivity.
  - discriminate.
Defined.

(* ------------------------------------------------------------------ *)
(** ** dropout without dropping *)

Section NoDropout.

Open Scope Qc_scope.

Variable tan_ : Qc -> Qc.
Variable exp_ : Qc -> num.
Variable pypow : Qc -> Qc -> result num.
Variable random_bits : option Z -> nat -> N.

Lemma Qcpower_0 (k : nat) : (1 <= k)%nat -> (0 : Qc) ^ k = 0.
Proof. destruct k as [| k]; [lia |]. intros _. cbn [Qcpower]. ring. Qed.

(** At [p = 0] the binomial weight of every non-empty subset size
    is 0. *)
Lemma binom_pmf_0 (k n : nat) : (1 <= k)%nat -> binom_pmf k n 0 = Fin 0.
Proof.
  intros Hk. unfold binom_pmf.
  change (Qcltb 0 0 || Qcltb 1 0) with false. cbv iota.
  destruct (n <? k)%nat; [reflexivity |].
  rewrite (Qcpower_0 Hk). f_equal. ring.
Qed.

Lemma nth_zeros (l : list num) (i : nat) :
  zeros l -> zero_or_nan (nth i l NaN).
Proof.
  intros H. revert i. induction H as [| x l Hx Hl IH]; intros [| i]; cbn.
  - right; reflexivity.
  - right; reflexivity.
  - left; exact Hx.
  - apply IH.
Qed.

Lemma ndiv_zero_or_nan_Fin (x : num) (c : Qc) :
  zero_or_nan x -> zero_or_nan (ndiv x (Fin c)).
Proof.
  intros [-> | ->]; [| right; reflexivity].
  cbn [ndiv]. destruct (Qceqb c 0) eqn:E.
  - right. reflexivity.
  - left. f_equal. apply Qceqb_false in E. field. exact E.
Qed.

Lemma ndiv_zero_or_nan (x s : num) :
  zero_or_nan x -> zero_or_nan s -> ndiv x s = NaN.
Proof. intros [-> | ->] [-> | ->]; reflexivity. Qed.

Lemma all_nan_wsum (a b : list num) (alpha : Qc) :
  all_nan b -> all_nan (weighted_sum_array a b alpha).
Proof.
  unfold weighted_sum_array, all_nan. intros H. revert a.
  induction H as [| y b Hy Hb IH]; intros [| x a]; cbn [map2];
    try constructor.
  - subst y. unfold wsum. rewrite nmul_NaN_r. apply nadd_NaN_r.
  - apply IH.
Qed.

Lemma wsum_length (a b : list num) (alpha : Qc) :
  length (weighted_sum_array a b alpha) = Nat.min (length a) (length b).
Proof. apply map2_length_min. Qed.

Lemma all_nan_In (l : list num) : all_nan l -> (1 <= length l)%nat -> In NaN l.
Proof.
  intros H L. destruct H as [| x l Hx Hl]; cbn in L; [lia |].
  left. exact Hx.
Qed.

Lemma pow2_ge (n : nat) : (1 <= n)%nat -> (1 <= 2 ^ n - 1)%nat.
Proof.
  intros H. pose proof (Nat.pow_le_mono_r 2 1 n) as P.
  cbn [Nat.pow] in P. lia.
Qed.

(** At [probability = 0] the expanded binomial weights are all 0, their
    normalization divides 0 by 0, and the NaN reaches every subset
    probability. *)
Lemma pmf_no_dropout (n : nat) (overlap overlap_emphasis : Qc) :
  (1 <= n)%nat ->
  In NaN (overlapping_sets_pmf tan_ exp_ n 0 overlap overlap_emphasis).
Proof.
  intros Hn. unfold overlapping_sets_pmf. cbv zeta.
  match goal with
  | |- context [match ?X with pair _ _ => _ end] =>
      assert (HL : (1 <= length (fst X))%nat);
      [| destruct X as [pmf0 ov] ]
  end.
  { pose proof (pow2_ge Hn) as P.
    destruct (isclose overlap (ofZ (pyround overlap)));
      [destruct (pyround overlap mod 2 =? 0)%Z |];
      cbn [fst]; rewrite ?length_app, ?length_map, ?length_seq,
                   ?repeat_length; cbn [length]; lia. }
  cbn [fst] in HL.
  right. apply in_map_iff. exists NaN. split; [reflexivity |].
  set (binomial_pmf := map (fun k => binom_pmf k n 0) (seq 1 n)).
  assert (Hb : zeros binomial_pmf).
  { unfold zeros, binomial_pmf. rewrite Forall_map. apply Forall_forall.
    intros k Hk. apply in_seq in Hk. apply binom_pmf_0. lia. }
  set (expanded :=
         map (fun i =>
                ndiv (nth (popcount i - 1) binomial_pmf NaN)
                     (Fin (ofZ (binomial_coefficient_int64
                                  (Z.of_nat n) (Z.of_nat (popcount i))))))
             (seq 1 (2 ^ n - 1))).
  assert (He : Forall zero_or_nan expanded).
  { unfold expanded. rewrite Forall_map. apply Forall_forall.
    intros i _. apply ndiv_zero_or_nan_Fin, nth_zeros, Hb. }
  assert (Hs : zero_or_nan (nsum expanded)).
  { unfold nsum. apply fold_nadd_zero_or_nan; [left; reflexivity | exact He]. }
  set (normalized := map (fun x => ndiv x (nsum expanded)) expanded).
  assert (Hnan : all_nan normalized).
  { unfold all_nan, normalized. rewrite Forall_map.
    eapply Forall_impl; [| exact He].
    intros x Hx. apply ndiv_zero_or_nan; assumption. }
  assert (Ln : length normalized = (2 ^ n - 1)%nat).
  { unfold normalized, expanded. rewrite !length_map, length_seq.
    reflexivity. }
  apply all_nan_In.
  - apply all_nan_wsum, all_nan_wsum, Hnan.
  - pose proof (pow2_ge Hn) as P.
    rewrite !wsum_length, Ln. lia.
Qed.

Lemma rng_choice_nan (seed : option Z) (size : nat) (p : list num) :
  In NaN p -> rng_choice random_bits seed size p = Raise ValueError.
Proof.
  intros H. unfold rng_choice, nsum.
  rewrite (fold_nadd_In_NaN _ H). reflexivity.
Qed.

(** *** Independent masks at [probability = 0] *)









End NoDropout.

(** X23.  With [probability = 0] and an [overlap] that is not an odd
    integer, [dropout] raises ValueError on every list of deltas of one
    shape: the binomial weights of the non-empty subsets are all 0, their
    normalization is 0/0, and [rng.choice] rejects the NaN
    probabilities. *)
Theorem dropout_probability_0_joint
        (tan_ : Qc -> Qc) (exp_ : Qc -> num) (pypow : Qc -> Qc -> result num)
        (random_bits : option Z -> nat -> N)
        (delta0 : tensor) (deltas : list tensor)
        (rescale overlap overlap_emphasis seed : Qc) :
  Forall (fun d => shape d = shape delta0) deltas ->
  pymod overlap (ofZ 2) <> 1%Qc ->
  dropout tan_ exp_ pypow random_bits delta0 deltas 0 rescale
          overlap overlap_emphasis seed
  = Raise ValueError.
Proof.
  intros Hd Ho. unfold dropout. cbv zeta.
  rewrite stack_ok with (shp := shape delta0);
    [| discriminate | constructor; [reflexivity | exact Hd]].
  cbn [bind]. unfold dropout_masks.
  apply Qceqb_false in Ho. rewrite Ho.
  rewrite rng_choice_nan; [reflexivity |].
  apply pmf_no_dropout. cbn [length]. lia.
Qed.

Lemma dropout_probability_0_joint_witness :
  dropout Prims.tan_rat Prims.exp_f64 Prims.pypow_int Prims.lcg_bits
          drop_delta0 [drop_delta1] 0 1 (Q2Qc (1 # 2)) 0 (- (1))
  = Raise ValueError.
Proof.
  apply (@dropout_probability_0_joint
           Prims.tan_rat Prims.exp_f64 Prims.pypow_int Prims.lcg_bits
           drop_delta0 [drop_delta1] 1 (Q2Qc (1 # 2)) 0 (- (1))).
  - repeat constructor.
  - vm_compute. discriminate.
Defined.



(* ------------------------------------------------------------------ *)
(** ** create_filter: the range of the filter and its period *)

Section FilterRange.

Open Scope Qc_scope.

Variable sqrt_ : Qc -> Qc.
Variable tan_ : Qc -> Qc.

Lemma normalized_tilt_period (tilt : Qc) (m : Z) :
  normalized_tilt (tilt + ofZ 4 * ofZ m) = normalized_tilt tilt.
Proof.
  unfold normalized_tilt, floordiv, pyfloor.
  rewrite !ofZ_mult, !floor_ofZ.
  assert (E : (tilt + ofZ (4 * m)) / ofZ 4 = tilt / ofZ 4 + ofZ m).
  { rewrite <- ofZ_mult. field. discriminate. }
  rewrite E, floor_shift.
  set (F := Qfloor (tilt / ofZ 4)%Qc).
  assert (P : ofZ ((F + m) * 4) = ofZ (F * 4) + ofZ (4 * m)).
  { replace ((F + m) * 4)%Z with (F * 4 + 4 * m)%Z by ring.
    apply Qc_eq_this. qc2q. rewrite inject_Z_plus. reflexivity. }
  rewrite P. ring.
Qed.

Lemma ofnat_nonzero (k : nat) : (1 <= k)%nat -> ofnat k <> 0.
Proof.
  intros H E. assert (L : 0 < ofnat k).
  { unfold ofnat. apply ofZ_pos. lia. }
  rewrite E in L. discriminate L.
Qed.

Lemma linspace_finite (start stop : Qc) (steps : nat) :
  Forall (fun x => isfinite x = true) (linspace start stop steps).
Proof.
  unfold linspace. destruct steps as [| [| m]].
  - constructor.
  - repeat constructor.
  - rewrite Forall_map. apply Forall_forall. reflexivity.
Qed.

Lemma gradient_finite (i s : nat) :
  Forall (fun x => isfinite x = true) (gradient i s).
Proof.
  unfold gradient.
  destruct ((i =? 0) || (s =? 1))%nat eqn:E; [apply linspace_finite |].
  apply orb_false_iff in E. destruct E as [_ E].
  apply Nat.eqb_neq in E.
  destruct (Nat.eq_dec (s / 2) 0) as [Z | NZ].
  - (* an empty axis *)
    assert (S0 : s = 0%nat).
    { destruct s as [| [| s]]; [reflexivity | congruence |].
      exfalso. change (S (S s)) with (2 + s)%nat in Z.
      pose proof (Nat.Div0.div_le_mono 2 (2 + s) 2) as D.
      change (2 / 2)%nat with 1%nat in D. lia. }
    subst s. cbn. constructor.
  - rewrite Forall_map.
    eapply Forall_impl;
      [| apply Forall_app; split; apply linspace_finite].
    intros x Hx. destruct (isfinite_Fin _ Hx) as [q ->].
    rewrite ndiv_Fin by (apply ofnat_nonzero; lia). reflexivity.
Qed.

Lemma gradients_finite (shp : list nat) :
  Forall (Forall (fun x => isfinite x = true)) (gradients shp).
Proof.
  unfold gradients. apply Forall_rev. rewrite Forall_map.
  apply Forall_forall. intros p _. apply gradient_finite.
Qed.

Lemma nonneg_add (x y : num) : nonneg x -> nonneg y -> nonneg (nadd x y).
Proof.
  intros (p & -> & Hp) (q & -> & Hq). exists (p + q).
  split; [reflexivity |]. qc_lra.
Qed.

Lemma grid_sums_nonneg (gs : list (list num)) :
  Forall (Forall nonneg) gs ->
  forall acc, nonneg acc -> Forall nonneg (grid_sums acc gs).
Proof.
  induction 1 as [| g gs Hg Hgs IH]; intros acc Hacc; cbn [grid_sums].
  - constructor; [exact Hacc | constructor].
  - apply Forall_flat_map. eapply Forall_impl; [| exact Hg].
    intros x Hx. apply IH. apply nonneg_add; assumption.
Qed.

(** Every entry of the frequency mesh is a finite number. *)
Lemma mesh_of_finite (shp : list nat) (mesh : list num) :
  mesh_of sqrt_ shp = Ok mesh -> Forall (fun x => isfinite x = true) mesh.
Proof.
  unfold mesh_of. pose proof (gradients_finite shp) as G.
  destruct (1 <? length shp)%nat eqn:L.
  - intros H. inversion H; subst mesh. clear H.
    apply Nat.ltb_lt in L.
    assert (Hsq : Forall (Forall nonneg)
                         (map (map (fun x => nmul x x)) (gradients shp))).
    { rewrite Forall_map. eapply Forall_impl; [| exact G].
      intros g Hg. rewrite Forall_map. eapply Forall_impl; [| exact Hg].
      intros x Hx. destruct (isfinite_Fin _ Hx) as [q ->].
      exists (q * q). split; [reflexivity | apply Qcsquare_pos]. }
    assert (H0 : nonneg nzero) by (exists 0; split; [reflexivity | apply Qcle_refl]).
    pose proof (grid_sums_nonneg Hsq H0) as Hs.
    rewrite Forall_map. eapply Forall_impl; [| exact Hs].
    intros x (q & -> & Hq).
    rewrite ndiv_Fin by (apply ofnat_nonzero; lia).
    assert (Hd : 0 <= q / ofnat (length shp)).
    { assert (P : 0 < ofnat (length shp)).
      { unfold ofnat. apply ofZ_pos. lia. }
      set (d := ofnat (length shp)) in *. clearbody d.
      unfold Qcle, Qclt in *. rewrite this_div.
      change (this 0) with 0%Q in *.
      apply Qle_shift_div_l; auto. lra. }
    cbn [nsqrt]. apply Qcltb_false in Hd. rewrite Hd. reflexivity.
  - destruct (gradients shp) as [| g0 gs]; [discriminate |].
    intros H. inversion H; subst mesh. inversion G; auto.
Qed.

Lemma of_bool_range (b : bool) : in_range 0 1 (of_bool b).
Proof.
  destruct b; [exists 1 | exists 0]; repeat split; discriminate.
Qed.

Lemma clamp_0_1_range (q : Qc) : in_range 0 1 (clamp (Fin q) 0 1).
Proof.
  unfold clamp, clamp_min. cbn [nltb].
  destruct (Qcltb q 0) eqn:E0; cbn [nltb].
  - exists 0. repeat split; discriminate.
  - apply Qcltb_false in E0.
    destruct (Qcltb 1 q) eqn:E1.
    + exists 1. repeat split; discriminate.
    + apply Qcltb_false in E1. exists q. auto.
Qed.

Lemma complement_range (x : num) :
  in_range 0 1 x -> in_range 0 1 (nsub (Fin 1) x).
Proof.
  intros (q & -> & H0 & H1). exists (1 + - q).
  split; [reflexivity |]. split; qc_lra.
Qed.

End FilterRange.

(** X25.  [create_filter] has period 4 in [tilt]: adding any integer
    multiple of 4 to the tilt gives the same filter, or the same error, for
    every shape and [alpha]. *)
Theorem create_filter_tilt_period (sqrt_ tan_ : Qc -> Qc) (shp : list nat)
        (alpha tilt : Qc) (m : Z) :
  create_filter sqrt_ tan_ shp alpha (tilt + ofZ 4 * ofZ m)
  = create_filter sqrt_ tan_ shp alpha tilt.
Proof.
  unfold create_filter.
  destruct (negb (Qcleb 0 alpha && Qcleb alpha 1)); [reflexivity |].
  fold (normalized_tilt (tilt + ofZ 4 * ofZ m)).
  fold (normalized_tilt tilt).
  rewrite normalized_tilt_period. reflexivity.
Qed.

(** X26.  Whenever [create_filter] returns, the filter has the requested
    shape and every entry is a finite number in [0, 1], for every tilt and
    whatever the square root and the tangent compute. *)
Theorem create_filter_range (sqrt_ tan_ : Qc -> Qc) (shp : list nat)
        (alpha tilt : Qc) (f : tensor) :
  create_filter sqrt_ tan_ shp alpha tilt = Ok f ->
  shape f = shp /\ Forall (in_range 0 1) (data f).
Proof.
  unfold create_filter.
  destruct (negb (Qcleb 0 alpha && Qcleb alpha 1)); [discriminate |].
  fold (normalized_tilt tilt). set (t := normalized_tilt tilt).
  destruct (mesh_of sqrt_ shp) as [mesh | e] eqn:Em; cbn [bind];
    [| discriminate].
  pose proof (mesh_of_finite _ _ Em) as Hm.
  set (a := if Qcltb (ofZ 2) t then (1 - alpha)%Qc else alpha).
  assert (Inv : forall l : list num,
             Forall (in_range 0 1) l ->
             Forall (in_range 0 1)
                    (if Qcltb (ofZ 2) t
                     then map (fun x => nsub (Fin 1) x) l else l)).
  { intros l Hl. destruct (Qcltb (ofZ 2) t); [| exact Hl].
    rewrite Forall_map. eapply Forall_impl; [| exact Hl].
    intros x. apply complement_range. }
  assert (Ramp : forall g : num -> num,
             (forall q, exists r, g (Fin q) = Fin r) ->
             Forall (in_range 0 1)
                    (map (fun x => clamp x 0 1) (map g mesh))).
  { intros g Hg. rewrite !Forall_map. eapply Forall_impl; [| exact Hm].
    intros x Hx. destruct (isfinite_Fin _ Hx) as [q ->].
    destruct (Hg q) as [r ->]. apply clamp_0_1_range. }
  destruct (Qcltb t EPSILON || Qcltb (Qcabs' (t - ofZ 4)) EPSILON);
    cbn [bind].
  { intros H. inversion H; subst f. cbn [shape data].
    split; [reflexivity |]. apply Inv.
    rewrite Forall_map. apply Forall_forall. intros x _. apply of_bool_range. }
  destruct (Qcltb (Qcabs' (t - ofZ 2)) EPSILON); cbn [bind].
  { intros H. inversion H; subst f. cbn [shape data].
    split; [reflexivity |]. apply Inv.
    rewrite Forall_map. apply Forall_forall. intros x _. apply of_bool_range. }
  destruct (Qceqb (tan_ (math_pi * t / ofZ 2)) 0); cbn [bind];
    [discriminate |].
  intros H. inversion H; subst f. cbn [shape data].
  split; [reflexivity |]. apply Inv.
  destruct (Qcleb t 1 || (Qcltb (ofZ 2) t && Qcleb t (ofZ 3)));
    apply Ramp; intros q; eexists; reflexivity.
Qed.

Lemma create_filter_range_witness :
  shape (mkTensor [3%nat] [Fin 0; Fin 1; Fin 1]) = [3%nat]
  /\ Forall (in_range 0 1) (data (mkTensor [3%nat] [Fin 0; Fin 1; Fin 1])).
Proof.
  apply (@create_filter_range Prims.sqrt_approx Prims.tan_rat [3%nat] 1 0
                              (mkTensor [3%nat] [Fin 0; Fin 1; Fin 1])).
  apply Ok_tensor_eqb. vm_compute. reflexivity.
Defined.

(* ------------------------------------------------------------------ *)
(** ** select_max_delta *)

Section Select.

Open Scope Qc_scope.

Variable std : list num -> num.

Lemma select_nth (a b : tensor) (alpha : Qc) (i : nat) :
  length (data a) = length (data b) -> (i < length (data a))%nat ->
  at_ (select_max_delta std a b alpha) i
  = if ngeb (nmul (Fin (1 - alpha))
                  (nabs (ndiv (at_ a i) (std (data a)))))
            (nmul (Fin alpha) (nabs (ndiv (at_ b i) (std (data b)))))
    then at_ a i else at_ b i.
Proof.
  intros Hl Hi. unfold select_max_delta, Method.twhere, at_.
  open_tensors.
  rewrite (map3_nth _ _ _ _ false NaN NaN)
    by (rewrite ?map2_length_min, ?length_map; lia).
  rewrite (map2_nth ngeb _ _ NaN NaN false)
    by (rewrite ?length_map; lia).
  push_nth. reflexivity.
Qed.

Lemma select_length (a b : tensor) (alpha : Qc) :
  length (data a) = length (data b) ->
  numel (select_max_delta std a b alpha) = numel a.
Proof.
  intros Hl. unfold select_max_delta, Method.twhere, numel.
  open_tensors. rewrite map3_length, map2_length_min, !length_map. lia.
Qed.

Lemma ndiv_NaN_r (x : num) : ndiv x NaN = NaN.
Proof. destruct x; reflexivity. Qed.

Lemma nleb_NaN_r (x : num) : nleb x NaN = false.
Proof. destruct x; reflexivity. Qed.

Lemma nleb_NaN_l (x : num) : nleb NaN x = false.
Proof. destruct x; reflexivity. Qed.

End Select.

(** X28.  When the standard deviation of [a] or of [b] is NaN, as it is
    for a tensor of one element, every comparison of [select_max_delta]
    fails and the result is [b], for every [alpha]. *)
Theorem select_max_delta_nan_std (std : list num -> num) (a b : tensor)
        (alpha : Qc) :
  shape a = shape b -> length (data a) = length (data b) ->
  std (data a) = NaN \/ std (data b) = NaN ->
  select_max_delta std a b alpha = b.
Proof.
  intros Hs Hl Hn. apply tensor_eq; [reflexivity |].
  apply (nth_ext _ _ NaN NaN).
  - pose proof (select_length std a b alpha Hl) as L. unfold numel in L. lia.
  - intros i Hi.
    pose proof (select_length std a b alpha Hl) as L. unfold numel in L.
    rewrite L in Hi.
    pose proof (select_nth std a b alpha Hl Hi) as E. unfold at_ in E.
    rewrite E.
    unfold ngeb.
    destruct Hn as [Hn | Hn]; rewrite Hn, ndiv_NaN_r; cbn [nabs];
      rewrite nmul_NaN_r.
    + rewrite nleb_NaN_r. reflexivity.
    + rewrite nleb_NaN_l. reflexivity.
Qed.

Lemma select_max_delta_nan_std_witness :
  select_max_delta (fun _ => NaN) (mkTensor [1%nat] [Fin 1%Qc])
                   (mkTensor [1%nat] [Fin (ofZ 2)]) (Q2Qc (1 # 4))
  = mkTensor [1%nat] [Fin (ofZ 2)].
Proof.
  apply (@select_max_delta_nan_std (fun _ => NaN) (mkTensor [1%nat] [Fin 1%Qc])
                                   (mkTensor [1%nat] [Fin (ofZ 2)])
                                   (Q2Qc (1 # 4))); auto.
Defined.

(* ------------------------------------------------------------------ *)
(** ** Powers of two and the binary logarithm *)

Section PowersOfTwo.

Open Scope Qc_scope.

Lemma pow2_this (e : Z) : (this (Fp.pow2 e) == 2 ^ e)%Q.
Proof. unfold Fp.pow2. apply this_Q2Qc. Qed.

Lemma pow2_pos (e : Z) : 0 < Fp.pow2 e.
Proof.
  unfold Qclt. change (this 0) with 0%Q. rewrite pow2_this.
  apply Qpower_0_lt. reflexivity.
Qed.

Lemma pow2_nonzero (e : Z) : Fp.pow2 e <> 0.
Proof. apply not_eq_sym, Qclt_not_eq, pow2_pos. Qed.

Lemma pow2_add (a b : Z) : Fp.pow2 (a + b) = Fp.pow2 a * Fp.pow2 b.
Proof.
  apply Qc_eq_this. rewrite this_mult, !pow2_this.
  apply Qpower_plus. discriminate.
Qed.

Lemma pow2_0 : Fp.pow2 0 = 1.
Proof. apply Qc_eq_this. rewrite pow2_this. reflexivity. Qed.

Lemma pow2_le (a b : Z) : (a <= b)%Z -> Fp.pow2 a <= Fp.pow2 b.
Proof.
  intros H. unfold Qcle. rewrite !pow2_this.
  apply Qpower_le_compat_l; [exact H | discriminate].
Qed.

Lemma pow2_lt_inv (a b : Z) : Fp.pow2 a < Fp.pow2 b -> (a < b)%Z.
Proof.
  intros H. unfold Qclt in H. rewrite !pow2_this in H.
  apply Qpower_lt_compat_l_inv with (q := 2%Q); [exact H | reflexivity].
Qed.

Lemma pow2_ofZ (e : Z) : (0 <= e)%Z -> Fp.pow2 e = ofZ (2 ^ e).
Proof.
  intros H. apply Qc_eq_this. rewrite pow2_this, this_ofZ.
  rewrite Zpower_Qpower by exact H. reflexivity.
Qed.

Lemma pow2_div (x : Qc) (e : Z) : x / Fp.pow2 e = x * Fp.pow2 (- e).
Proof.
  assert (E : Fp.pow2 e * Fp.pow2 (- e) = 1).
  { rewrite <- pow2_add. replace (e + - e)%Z with 0%Z by lia. apply pow2_0. }
  pose proof (@pow2_nonzero e) as N.
  assert (I : / Fp.pow2 e = Fp.pow2 (- e)).
  { rewrite <- (Qcmult_1_r (/ Fp.pow2 e)), <- E, Qcmult_assoc.
    rewrite Qcmult_inv_l by exact N. apply Qcmult_1_l. }
  unfold Qcdiv. rewrite I. reflexivity.
Qed.

End PowersOfTwo.

Section BinaryLog.

Open Scope Qc_scope.

Lemma ofZ_le (a b : Z) : (a <= b)%Z -> ofZ a <= ofZ b.
Proof. intros H. unfold Qcle. rewrite !this_ofZ, <- Zle_Qle. exact H. Qed.

Lemma ofZ_lt (a b : Z) : (a < b)%Z -> ofZ a < ofZ b.
Proof. intros H. unfold Qclt. rewrite !this_ofZ, <- Zlt_Qlt. exact H. Qed.

Lemma ofZ_le_inv (a b : Z) : ofZ a <= ofZ b -> (a <= b)%Z.
Proof. unfold Qcle. rewrite !this_ofZ, <- Zle_Qle. auto. Qed.

Lemma ofZ_lt_inv (a b : Z) : ofZ a < ofZ b -> (a < b)%Z.
Proof. unfold Qclt. rewrite !this_ofZ, <- Zlt_Qlt. auto. Qed.

Lemma Qcmult_le_compat (a b c d : Qc) :
  0 <= a -> 0 <= c -> a <= b -> c <= d -> a * c <= b * d.
Proof.
  intros Ha Hc Hab Hcd.
  apply Qcle_trans with (b * c).
  - apply Qcmult_le_compat_r; assumption.
  - rewrite (Qcmult_comm b c), (Qcmult_comm b d).
    apply Qcmult_le_compat_r; [assumption |].
    apply Qcle_trans with a; assumption.
Qed.

Lemma Qcmult_lt_compat_l (a c d : Qc) : 0 < a -> c < d -> a * c < a * d.
Proof.
  intros Ha Hcd. rewrite (Qcmult_comm a c), (Qcmult_comm a d).
  apply Qcmult_lt_compat_r; assumption.
Qed.

Lemma canonical_num (x : Qc) : x * ofZ (Zpos (Qden x)) = ofZ (Qnum x).
Proof.
  apply Qc_eq_this. rewrite this_mult, !this_ofZ.
  destruct x as [[n d] c]. cbn [this Qnum Qden].
  unfold Qeq, Qmult, inject_Z. cbn [Qnum Qden]. lia.
Qed.

Lemma num_pos (x : Qc) : 0 < x -> (0 < Qnum x)%Z.
Proof.
  destruct x as [[n d] c]. unfold Qclt, Qlt. cbn. lia.
Qed.

Lemma log2_bounds (z : Z) :
  (0 < z)%Z -> Fp.pow2 (Z.log2 z) <= ofZ z /\ ofZ z < Fp.pow2 (Z.log2 z + 1).
Proof.
  intros H. destruct (Z.log2_spec z H) as [L U].
  pose proof (Z.log2_nonneg z) as N.
  rewrite !pow2_ofZ by lia. split; [apply ofZ_le, L | apply ofZ_lt].
  replace (Z.log2 z + 1)%Z with (Z.succ (Z.log2 z)) by lia. exact U.
Qed.

Lemma ilog2_bounds (x : Qc) :
  0 < x ->
  let l := (Z.log2 (Qnum x) - Z.log2 (Zpos (Qden x)))%Z in
  Fp.pow2 (l - 1) < x /\ x < Fp.pow2 (l + 1).
Proof.
  intros Hx l.
  destruct (log2_bounds (num_pos Hx)) as [Ln Un].
  destruct (@log2_bounds (Zpos (Qden x))) as [Ld Ud]; [lia |].
  pose proof (canonical_num x) as E.
  set (a := Z.log2 (Qnum x)) in *. set (b := Z.log2 (Zpos (Qden x))) in *.
  set (n := ofZ (Qnum x)) in *. set (d := ofZ (Zpos (Qden x))) in *.
  assert (Hd : 0 < d) by (apply Qclt_le_trans with (Fp.pow2 b); [apply pow2_pos | exact Ld]).
  split.
  - destruct (Qclt_le_dec (Fp.pow2 (l - 1)) x) as [H | H]; [exact H | exfalso].
    assert (C : n < Fp.pow2 a).
    { rewrite <- E. apply Qcle_lt_trans with (Fp.pow2 (l - 1) * d).
      - apply Qcmult_le_compat_r; [exact H | apply Qclt_le_weak, Hd].
      - replace a with ((l - 1) + (b + 1))%Z by (unfold l; lia).
        rewrite pow2_add. apply Qcmult_lt_compat_l; [apply pow2_pos | exact Ud]. }
    apply (Qclt_not_le _ _ C Ln).
  - destruct (Qclt_le_dec x (Fp.pow2 (l + 1))) as [H | H]; [exact H | exfalso].
    assert (C : Fp.pow2 (a + 1) <= n).
    { rewrite <- E. replace (a + 1)%Z with ((l + 1) + b)%Z by (unfold l; lia).
      rewrite pow2_add. apply Qcmult_le_compat; auto.
      - apply Qclt_le_weak, pow2_pos.
      - apply Qclt_le_weak, pow2_pos. }
    apply (Qclt_not_le _ _ Un C).
Qed.

Lemma ilog2_spec (x : Qc) :
  0 < x -> Fp.pow2 (Fp.ilog2 x) <= x /\ x < Fp.pow2 (Fp.ilog2 x + 1).
Proof.
  intros Hx. destruct (ilog2_bounds Hx) as [L U]. unfold Fp.ilog2.
  set (l := (Z.log2 (Qnum x) - Z.log2 (Zpos (Qden x)))%Z) in *.
  destruct (Qcleb (Fp.pow2 l) x) eqn:C.
  - apply Qcleb_true in C. split; assumption.
  - apply Qcleb_false in C. split; [apply Qclt_le_weak, L |].
    replace (l - 1 + 1)%Z with l by lia. exact C.
Qed.

Lemma ilog2_unique (x : Qc) (e : Z) :
  Fp.pow2 e <= x -> x < Fp.pow2 (e + 1) -> Fp.ilog2 x = e.
Proof.
  intros L U.
  assert (Hx : 0 < x) by (apply Qclt_le_trans with (Fp.pow2 e); [apply pow2_pos | exact L]).
  destruct (ilog2_spec Hx) as [L' U'].
  assert (H1 : (e < Fp.ilog2 x + 1)%Z)
    by (apply pow2_lt_inv, Qcle_lt_trans with x; assumption).
  assert (H2 : (Fp.ilog2 x < e + 1)%Z)
    by (apply pow2_lt_inv, Qcle_lt_trans with x; assumption).
  lia.
Qed.

Lemma ilog2_mono (x y : Qc) : 0 < x -> x <= y -> (Fp.ilog2 x <= Fp.ilog2 y)%Z.
Proof.
  intros Hx Hxy.
  assert (Hy : 0 < y) by (apply Qclt_le_trans with x; assumption).
  destruct (ilog2_spec Hx) as [L _]. destruct (ilog2_spec Hy) as [_ U].
  assert (H : (Fp.ilog2 x < Fp.ilog2 y + 1)%Z).
  { apply pow2_lt_inv, Qcle_lt_trans with x; [exact L |].
    apply Qcle_lt_trans with y; assumption. }
  lia.
Qed.

End BinaryLog.

(* ------------------------------------------------------------------ *)
(** ** Rounding to nearest in a binary format *)

Section Nearest.

Open Scope Qc_scope.

Lemma pow2_cancel (e : Z) : Fp.pow2 e * Fp.pow2 (- e) = 1.
Proof.
  rewrite <- pow2_add. replace (e + - e)%Z with 0%Z by lia. apply pow2_0.
Qed.

Lemma div_pow2_mono (e : Z) (x y : Qc) : x <= y -> x / Fp.pow2 e <= y / Fp.pow2 e.
Proof.
  intros H. rewrite !pow2_div.
  apply Qcmult_le_compat_r; [exact H | apply Qclt_le_weak, pow2_pos].
Qed.

Lemma multiple_div (e z : Z) : ofZ z * Fp.pow2 e / Fp.pow2 e = ofZ z.
Proof.
  rewrite pow2_div, <- Qcmult_assoc, pow2_cancel. apply Qcmult_1_r.
Qed.

Lemma nearest_mono (e : Z) (x y : Qc) :
  x <= y -> Fp.nearest e x <= Fp.nearest e y.
Proof.
  intros H. unfold Fp.nearest.
  apply Qcmult_le_compat_r; [| apply Qclt_le_weak, pow2_pos].
  apply ofZ_le, pyround_mono, div_pow2_mono, H.
Qed.

Lemma nearest_multiple (e z : Z) :
  Fp.nearest e (ofZ z * Fp.pow2 e) = ofZ z * Fp.pow2 e.
Proof.
  unfold Fp.nearest. rewrite multiple_div, pyround_ofZ. reflexivity.
Qed.

Lemma nearest_nonneg (e : Z) (x : Qc) : 0 <= x -> 0 <= Fp.nearest e x.
Proof.
  intros H.
  assert (Z0 : ofZ 0 * Fp.pow2 e = 0) by (change (ofZ 0) with 0; ring).
  rewrite <- Z0 at 1. rewrite <- (nearest_multiple e 0).
  apply nearest_mono. rewrite Z0. exact H.
Qed.

(** A power of two is a multiple of every smaller one. *)
Lemma pow2_multiple (L e : Z) :
  (e <= L)%Z -> Fp.pow2 L = ofZ (2 ^ (L - e)) * Fp.pow2 e.
Proof.
  intros H. rewrite <- pow2_ofZ by lia. rewrite <- pow2_add.
  f_equal. lia.
Qed.

Variables prec emax : Z.
Hypothesis prec_pos : (1 <= prec)%Z.

Lemma spacing_mono (x y : Qc) :
  0 < x -> x <= y -> (Fp.spacing prec emax x <= Fp.spacing prec emax y)%Z.
Proof.
  intros Hx Hxy. unfold Fp.spacing. pose proof (ilog2_mono Hx Hxy). lia.
Qed.

Lemma rounded_mono (x y : Qc) :
  0 < x -> x <= y ->
  Fp.nearest (Fp.spacing prec emax x) x <= Fp.nearest (Fp.spacing prec emax y) y.
Proof.
  intros Hx Hxy.
  assert (Hy : 0 < y) by (apply Qclt_le_trans with x; assumption).
  pose proof (spacing_mono Hx Hxy) as Hs.
  destruct (Z.eq_dec (Fp.spacing prec emax x) (Fp.spacing prec emax y)) as [E | N].
  - rewrite E. apply nearest_mono, Hxy.
  - set (L := Fp.ilog2 y).
    assert (Ey : Fp.spacing prec emax y = (L - prec + 1)%Z)
      by (unfold Fp.spacing in *; fold L; lia).
    assert (Ex : (Fp.ilog2 x + 1 <= L)%Z) by (unfold Fp.spacing in *; fold L in Hs, N; lia).
    destruct (ilog2_spec Hx) as [_ Ux]. destruct (ilog2_spec Hy) as [Ly _].
    fold L in Ly.
    apply Qcle_trans with (Fp.pow2 L).
    + rewrite (@pow2_multiple L (Fp.spacing prec emax x)) by lia.
      rewrite <- nearest_multiple. apply nearest_mono.
      rewrite <- pow2_multiple by lia.
      apply Qclt_le_weak, Qclt_le_trans with (Fp.pow2 (Fp.ilog2 x + 1)); [exact Ux |].
      apply pow2_le, Ex.
    + rewrite (@pow2_multiple L (Fp.spacing prec emax y)) by lia.
      rewrite <- nearest_multiple. apply nearest_mono.
      rewrite <- pow2_multiple by lia. exact Ly.
Qed.

Lemma round_pos_nonneg (x : Qc) :
  0 < x ->
  Fp.round_pos prec emax x = PInf
  \/ exists q, Fp.round_pos prec emax x = Fin q /\ 0 <= q /\ q < Fp.pow2 emax.
Proof.
  intros Hx. unfold Fp.round_pos. cbv zeta.
  destruct (Qcleb _ _) eqn:C; [left; reflexivity | right].
  apply Qcleb_false in C. eexists. split; [reflexivity |]. split; [| exact C].
  apply nearest_nonneg, Qclt_le_weak, Hx.
Qed.

Lemma round_pos_mono (x y : Qc) :
  0 < x -> x <= y ->
  nleb (Fp.round_pos prec emax x) (Fp.round_pos prec emax y) = true.
Proof.
  intros Hx Hxy. pose proof (rounded_mono Hx Hxy) as M.
  unfold Fp.round_pos. cbv zeta.
  destruct (Qcleb (Fp.pow2 emax) (Fp.nearest (Fp.spacing prec emax y) y)) eqn:Cy.
  - destruct (Qcleb (Fp.pow2 emax) (Fp.nearest (Fp.spacing prec emax x) x));
      reflexivity.
  - apply Qcleb_false in Cy.
    destruct (Qcleb (Fp.pow2 emax) (Fp.nearest (Fp.spacing prec emax x) x)) eqn:Cx.
    + apply Qcleb_true in Cx. exfalso.
      apply (Qclt_not_le _ _ Cy). apply Qcle_trans with (1 := Cx). exact M.
    + cbn [nleb]. apply Qcleb_true, M.
Qed.

Lemma nleb_opp (a b : num) : nleb a b = true -> nleb (nopp b) (nopp a) = true.
Proof.
  destruct a as [p | | |], b as [q | | |]; cbn; try discriminate; auto.
  intros H. apply Qcleb_true in H. apply Qcleb_true. qc_lra.
Qed.

Lemma compare_0 (x : Qc) :
  match x ?= 0 with Eq => x = 0 | Lt => x < 0 | Gt => 0 < x end.
Proof.
  destruct (x ?= 0) eqn:C;
    [apply Qceq_alt | apply Qclt_alt | apply Qcgt_alt]; exact C.
Qed.

Lemma round_to_mono (x y : Qc) :
  x <= y -> nleb (Fp.round_to prec emax x) (Fp.round_to prec emax y) = true.
Proof.
  intros Hxy. unfold Fp.round_to.
  pose proof (compare_0 x) as Cx. pose proof (compare_0 y) as Cy.
  destruct (x ?= 0); destruct (y ?= 0);
    subst; try reflexivity; try (exfalso; qc_lra).
  - destruct (round_pos_nonneg Cy) as [-> | (q & -> & Hq & _)]; [reflexivity |].
    apply Qcleb_true, Hq.
  - assert (Hx : 0 < - x) by qc_lra.
    destruct (round_pos_nonneg Hx) as [-> | (q & -> & Hq & _)]; [reflexivity |].
    cbn. apply Qcleb_true. qc_lra.
  - apply nleb_opp, round_pos_mono; qc_lra.
  - assert (Hx : 0 < - x) by qc_lra.
    destruct (round_pos_nonneg Hx) as [-> | (q & -> & Hq & _)];
      destruct (round_pos_nonneg Cy) as [-> | (q' & -> & Hq' & _)];
      cbn; try reflexivity.
    apply Qcleb_true. qc_lra.
  - apply round_pos_mono; assumption.
Qed.

End Nearest.

(* ------------------------------------------------------------------ *)
(** ** The numbers of a binary format *)

Section Representable.

Open Scope Qc_scope.

Variables prec emax : Z.
Hypothesis prec_pos : (1 <= prec)%Z.
Hypothesis emax_large : (2 <= emax)%Z.

Lemma Qcabs'_pos (x : Qc) : 0 <= x -> Qcabs' x = x.
Proof. intros H. unfold Qcabs'. qc_cases; [exfalso; qc_lra | reflexivity]. Qed.

Lemma Qcabs'_neg (x : Qc) : x <= 0 -> Qcabs' x = - x.
Proof.
  intros H. unfold Qcabs'. qc_cases; [reflexivity |].
  apply Qc_eq_this. qc2q. lra.
Qed.

Lemma scaled_le_inv (e a b : Z) :
  ofZ a * Fp.pow2 e <= ofZ b * Fp.pow2 e -> (a <= b)%Z.
Proof.
  intros H. apply ofZ_le_inv.
  rewrite <- (multiple_div e a), <- (multiple_div e b).
  apply div_pow2_mono, H.
Qed.

Lemma scaled_pos (e m : Z) : 0 < ofZ m * Fp.pow2 e -> (0 < m)%Z.
Proof.
  intros H. destruct (Z_lt_le_dec 0 m) as [P | N]; [exact P | exfalso].
  assert (C : ofZ m * Fp.pow2 e <= ofZ 0 * Fp.pow2 e).
  { apply Qcmult_le_compat_r; [apply ofZ_le, N | apply Qclt_le_weak, pow2_pos]. }
  change (ofZ 0) with 0 in C. replace (0 * Fp.pow2 e) with 0 in C by ring.
  apply (Qclt_not_le _ _ H C).
Qed.

Lemma round_pos_exact (m e : Z) :
  (0 < m < 2 ^ prec)%Z -> (3 - emax - prec <= e)%Z ->
  ofZ m * Fp.pow2 e < Fp.pow2 emax ->
  Fp.round_pos prec emax (ofZ m * Fp.pow2 e) = Fin (ofZ m * Fp.pow2 e).
Proof.
  intros Hm He Hx. set (x := ofZ m * Fp.pow2 e) in *.
  destruct (@log2_bounds m) as [Lm Um]; [lia |].
  assert (El : Fp.ilog2 x = (Z.log2 m + e)%Z).
  { apply ilog2_unique; unfold x.
    - rewrite pow2_add. apply Qcmult_le_compat_r; [exact Lm |].
      apply Qclt_le_weak, pow2_pos.
    - replace (Z.log2 m + e + 1)%Z with (Z.log2 m + 1 + e)%Z by lia.
      rewrite pow2_add. apply Qcmult_lt_compat_r; [apply pow2_pos | exact Um]. }
  assert (Hl : (Z.log2 m < prec)%Z) by (apply Z.log2_lt_pow2; lia).
  set (s := Fp.spacing prec emax x).
  assert (Hs : (s <= e)%Z) by (unfold s, Fp.spacing; rewrite El; lia).
  assert (En : Fp.nearest s x = x).
  { unfold x at 1 2. rewrite (@pow2_multiple e s Hs), Qcmult_assoc, ofZ_mult.
    apply nearest_multiple. }
  unfold Fp.round_pos. cbv zeta. fold s. rewrite En.
  apply Qcleb_false in Hx. rewrite Hx. reflexivity.
Qed.

Lemma round_to_representable (x : Qc) :
  Fp.representable prec emax x -> Fp.round_to prec emax x = Fin x.
Proof.
  intros (m & e & E & Hm & He & Hb). unfold Fp.round_to.
  pose proof (compare_0 x) as C. destruct (x ?= 0).
  - subst x. rewrite C. reflexivity.
  - assert (Hx : 0 < - x) by qc_lra.
    assert (E' : - x = ofZ (- m) * Fp.pow2 e) by (rewrite E, ofZ_opp; ring).
    rewrite Qcabs'_neg in Hb by qc_lra.
    rewrite E' in Hx, Hb |- *. pose proof (scaled_pos Hx) as P.
    rewrite round_pos_exact by (auto; lia).
    cbn [nopp]. f_equal. rewrite <- E'. apply Qcopp_involutive.
  - rewrite Qcabs'_pos in Hb by qc_lra.
    rewrite E in C, Hb |- *. pose proof (scaled_pos C) as P.
    apply round_pos_exact; auto; lia.
Qed.

Lemma representable_0 : Fp.representable prec emax 0.
Proof.
  exists 0%Z, (3 - emax - prec)%Z. repeat split.
  - change (ofZ 0) with 0. ring.
  - cbn. apply Z.pow_pos_nonneg; lia.
  - lia.
  - change (Qcabs' 0) with 0. apply pow2_pos.
Qed.

Lemma representable_opp (x : Qc) :
  Fp.representable prec emax x -> Fp.representable prec emax (- x).
Proof.
  intros (m & e & E & Hm & He & Hb). exists (- m)%Z, e. repeat split.
  - rewrite E, ofZ_opp. ring.
  - lia.
  - exact He.
  - destruct (Qclt_le_dec x 0) as [N | P].
    + rewrite Qcabs'_pos by qc_lra. rewrite Qcabs'_neg in Hb by qc_lra. exact Hb.
    + rewrite Qcabs'_neg by qc_lra. rewrite Qcabs'_pos in Hb by exact P.
      rewrite Qcopp_involutive. exact Hb.
Qed.

Lemma round_pos_result (x q : Qc) :
  0 < x -> Fp.round_pos prec emax x = Fin q -> Fp.representable prec emax q.
Proof.
  intros Hx. unfold Fp.round_pos. cbv zeta.
  set (s := Fp.spacing prec emax x).
  destruct (Qcleb (Fp.pow2 emax) (Fp.nearest s x)) eqn:C; [discriminate |].
  intros H. inversion H; subst q; clear H. apply Qcleb_false in C.
  assert (N0 : 0 <= Fp.nearest s x) by (apply nearest_nonneg, Qclt_le_weak, Hx).
  set (M := pyround (x / Fp.pow2 s)).
  assert (HM0 : (0 <= M)%Z).
  { apply (@scaled_le_inv s). change (ofZ 0) with 0.
    replace (0 * Fp.pow2 s) with 0 by ring. exact N0. }
  assert (HM1 : (M <= 2 ^ prec)%Z).
  { apply (@scaled_le_inv s).
    change (ofZ M * Fp.pow2 s) with (Fp.nearest s x).
    rewrite <- (nearest_multiple s (2 ^ prec)). apply nearest_mono.
    rewrite <- pow2_ofZ by lia. rewrite <- pow2_add.
    destruct (ilog2_spec Hx) as [_ U].
    apply Qclt_le_weak, Qclt_le_trans with (1 := U).
    apply pow2_le. unfold s, Fp.spacing. lia. }
  destruct (Z.eq_dec M (2 ^ prec)) as [E | NE].
  - exists 1%Z, (prec + s)%Z. repeat split.
    + unfold Fp.nearest. fold M. rewrite E, <- pow2_ofZ by lia.
      rewrite <- pow2_add. change (ofZ 1) with 1. ring.
    + change (Z.abs 1) with (2 ^ 0)%Z. apply Z.pow_lt_mono_r; lia.
    + unfold s, Fp.spacing. lia.
    + rewrite Qcabs'_pos by exact N0. exact C.
  - exists M, s. repeat split.
    + lia.
    + unfold s, Fp.spacing. lia.
    + rewrite Qcabs'_pos by exact N0. exact C.
Qed.

Lemma round_to_result (x q : Qc) :
  Fp.round_to prec emax x = Fin q -> Fp.representable prec emax q.
Proof.
  unfold Fp.round_to. pose proof (compare_0 x) as C. destruct (x ?= 0).
  - intros H. inversion H. apply representable_0.
  - assert (Hx : 0 < - x) by qc_lra.
    destruct (Fp.round_pos prec emax (- x)) as [r | | |] eqn:E;
      cbn [nopp]; try discriminate.
    intros H. inversion H. apply representable_opp.
    apply (round_pos_result Hx E).
  - apply round_pos_result, C.
Qed.

Lemma round_to_idempotent (x q : Qc) :
  Fp.round_to prec emax x = Fin q -> Fp.round_to prec emax q = Fin q.
Proof. intros H. apply round_to_representable, (@round_to_result x q H). Qed.

Lemma representable_int (z : Z) :
  (Z.abs z < 2 ^ prec)%Z -> (prec <= emax)%Z ->
  Fp.representable prec emax (ofZ z).
Proof.
  intros Hz Hp. exists z, 0%Z. repeat split.
  - rewrite pow2_0. ring.
  - exact Hz.
  - lia.
  - rewrite (@pow2_ofZ emax) by lia.
    assert (H : (Z.abs z < 2 ^ emax)%Z).
    { apply Z.lt_le_trans with (1 := Hz). apply Z.pow_le_mono_r; lia. }
    destruct (Z_lt_le_dec z 0) as [N | P].
    + rewrite Qcabs'_neg by (change 0 with (ofZ 0); apply ofZ_le; lia).
      rewrite <- ofZ_opp. apply ofZ_lt. lia.
    + rewrite Qcabs'_pos by (change 0 with (ofZ 0); apply ofZ_le; lia).
      apply ofZ_lt. lia.
Qed.

Lemma ofZ_sub (a b : Z) : ofZ (a - b) = ofZ a - ofZ b.
Proof.
  apply Qc_eq_this. rewrite this_minus, !this_ofZ.
  unfold Z.sub. rewrite inject_Z_plus, inject_Z_opp. reflexivity.
Qed.

Lemma floor_nonneg (x : Qc) : 0 <= x -> (0 <= Qfloor x)%Z.
Proof.
  intros H. rewrite <- (Qfloor_Z 0). apply Qfloor_resp_le. exact H.
Qed.

(** The fractional part has the sign of its argument and is no larger in
    magnitude. *)
Lemma fmod1_nonneg (x : Qc) :
  0 <= x -> 0 <= fmod1 x /\ fmod1 x <= x /\ fmod1 x < 1.
Proof.
  intros H. destruct (fmod1_range H) as [L U]. repeat split; auto.
  unfold fmod1. rewrite (pyint_nonneg H).
  pose proof (ofZ_le (floor_nonneg H)) as F. change (ofZ 0) with 0 in F.
  set (f := ofZ (Qfloor x)) in *. clearbody f. qc_lra.
Qed.

Lemma fmod1_neg (x : Qc) :
  x < 0 -> x <= fmod1 x /\ fmod1 x <= 0 /\ - (1) < fmod1 x.
Proof.
  intros H. destruct (pyint_frac_neg H) as [L U]. repeat split; auto.
  unfold fmod1. rewrite (pyint_neg H), ofZ_opp.
  assert (N : 0 <= - x) by qc_lra.
  pose proof (ofZ_le (floor_nonneg N)) as F. change (ofZ 0) with 0 in F.
  set (f := ofZ (Qfloor (- x)%Qc)) in *. clearbody f. qc_lra.
Qed.

Lemma fmod1_abs (x : Qc) : Qcabs' (fmod1 x) <= Qcabs' x.
Proof.
  destruct (Qclt_le_dec x 0) as [N | P].
  - destruct (fmod1_neg N) as (A & B & _).
    rewrite !Qcabs'_neg by qc_lra. qc_lra.
  - destruct (fmod1_nonneg P) as (A & B & _).
    rewrite !Qcabs'_pos by assumption. exact B.
Qed.

Lemma fmod1_int (z : Z) : fmod1 (ofZ z) = 0.
Proof.
  unfold fmod1. rewrite <- ofZ_sub.
  assert (E : (z - pyint (ofZ z) = 0)%Z).
  { destruct (Qclt_le_dec (ofZ z) 0) as [N | P].
    - destruct (fmod1_neg N) as (_ & B & C). unfold fmod1 in B, C.
      rewrite <- ofZ_sub in B, C.
      change 0 with (ofZ 0) in B. apply ofZ_le_inv in B.
      change (- (1)) with (ofZ (- 1)) in C. apply ofZ_lt_inv in C. lia.
    - destruct (fmod1_nonneg P) as (A & _ & C). unfold fmod1 in A, C.
      rewrite <- ofZ_sub in A, C.
      change 0 with (ofZ 0) in A. apply ofZ_le_inv in A.
      change 1 with (ofZ 1) in C. apply ofZ_lt_inv in C. lia. }
  rewrite E. reflexivity.
Qed.

Lemma representable_fraction (x : Qc) :
  Fp.representable prec emax x -> Fp.representable prec emax (fmod1 x).
Proof.
  intros (m & e & E & Hm & He & Hb).
  destruct (Z_le_gt_dec 0 e) as [P | N].
  - rewrite E, (pow2_ofZ P), ofZ_mult, fmod1_int. apply representable_0.
  - set (i := pyint x). set (D := (2 ^ (- e))%Z).
    assert (ED : ofZ D * Fp.pow2 e = 1).
    { unfold D. rewrite <- pow2_ofZ by lia. rewrite Qcmult_comm. apply pow2_cancel. }
    assert (Ef : fmod1 x = ofZ (m - i * D) * Fp.pow2 e).
    { unfold fmod1. fold i. rewrite ofZ_sub, <- ofZ_mult. rewrite E at 1.
      transitivity (ofZ m * Fp.pow2 e - ofZ i * (ofZ D * Fp.pow2 e)); [| ring].
      rewrite ED. ring. }
    exists (m - i * D)%Z, e. repeat split; auto.
    + destruct (Qclt_le_dec x 0) as [Hn | Hp].
      * destruct (fmod1_neg Hn) as (A & B & _). rewrite Ef in A, B.
        rewrite E in A. apply scaled_le_inv in A.
        change 0 with (ofZ 0) in B.
        replace (ofZ 0) with (ofZ 0 * Fp.pow2 e) in B
          by (change (ofZ 0) with 0; ring).
        apply scaled_le_inv in B. lia.
      * destruct (fmod1_nonneg Hp) as (A & B & _). rewrite Ef in A, B.
        rewrite E in B. apply scaled_le_inv in B.
        change 0 with (ofZ 0) in A.
        replace (ofZ 0) with (ofZ 0 * Fp.pow2 e) in A
          by (change (ofZ 0) with 0; ring).
        apply scaled_le_inv in A. lia.
    + apply Qcle_lt_trans with (2 := Hb). apply fmod1_abs.
Qed.

Hypothesis prec_emax : (prec <= emax)%Z.
Hypothesis prec_two : (2 <= prec)%Z.

Lemma round_to_format : Fp.format (Fp.round_to prec emax).
Proof.
  constructor.
  - apply round_to_mono. exact prec_pos.
  - apply round_to_idempotent.
  - intros x H. apply round_to_representable, representable_fraction.
    apply (@round_to_result x x H).
  - reflexivity.
  - change 1 with (ofZ 1). apply round_to_representable, representable_int; auto.
    change (Z.abs 1) with (2 ^ 0)%Z. apply Z.pow_lt_mono_r; lia.
  - apply round_to_representable, representable_int; auto.
    change (Z.abs 2) with (2 ^ 1)%Z. apply Z.pow_lt_mono_r; lia.
Qed.

End Representable.

Lemma binary64_format : Fp.format Fp.binary64.
Proof. apply round_to_format; lia. Qed.

Lemma binary32_format : Fp.format Fp.binary32.
Proof. apply round_to_format; lia. Qed.

(* ------------------------------------------------------------------ *)
(** ** Rounded arithmetic *)

Section RoundedFacts.

Open Scope Qc_scope.

Variable rnd : Qc -> num.

Lemma fmul_1_l (x : num) : rnd 1 = Fin 1 -> Fp.fl rnd x = x ->
  Fp.fmul rnd (Fin 1) x = x.
Proof. intros _ H. unfold Fp.fmul. rewrite nmul_1_l. exact H. Qed.


Lemma fmul_0_l (x : num) :
  rnd 0 = Fin 0 -> isfinite x = true -> Fp.fmul rnd (Fin 0) x = Fin 0.
Proof.
  intros R0 H. destruct (isfinite_Fin _ H) as [q ->].
  unfold Fp.fmul. rewrite nmul_0_l_fin. exact R0.
Qed.

Lemma fadd_0_r (x : num) : Fp.fl rnd x = x -> Fp.fadd rnd x (Fin 0) = x.
Proof. intros H. unfold Fp.fadd. rewrite nadd_0_r. exact H. Qed.

Lemma fadd_0_l (x : num) : Fp.fl rnd x = x -> Fp.fadd rnd (Fin 0) x = x.
Proof. intros H. unfold Fp.fadd. rewrite nadd_0_l. exact H. Qed.



(** A monotone rounding keeps a result between two numbers of the format
    that enclose the exact value. *)
Lemma rounded_between (lo hi x : Qc) :
  (forall u v : Qc, u <= v -> nleb (rnd u) (rnd v) = true) ->
  rnd lo = Fin lo -> rnd hi = Fin hi -> lo <= x -> x <= hi ->
  exists q, rnd x = Fin q /\ lo <= q /\ q <= hi.
Proof.
  intros M Rl Rh L H.
  pose proof (M _ _ L) as A. pose proof (M _ _ H) as B.
  rewrite Rl in A. rewrite Rh in B.
  destruct (rnd x) as [q | | |]; cbn in A, B; try discriminate.
  exists q. split; [reflexivity |]. split; apply Qcleb_true; assumption.
Qed.

End RoundedFacts.

Section RoundedWeightedSum.

Open Scope Qc_scope.

Variables rnd rdt : Qc -> num.
Hypothesis rnd_0 : rnd 0 = Fin 0.
Hypothesis rnd_1 : rnd 1 = Fin 1.
Hypothesis rdt_0 : rdt 0 = Fin 0.
Hypothesis rdt_1 : rdt 1 = Fin 1.

Lemma rounded_weighted_sum_data (a b : tensor) (alpha : Qc) :
  data (Fp.weighted_sum rnd rdt a b alpha)
  = map2 (fun x y =>
            Fp.fadd rdt (Fp.fmul rdt (Fp.fl rdt (rnd (1 - alpha))) x)
                        (Fp.fmul rdt (rdt alpha) y))
         (data a) (data b).
Proof.
  unfold Fp.weighted_sum, tmap2, tmap. cbn [data].
  rewrite map2_map_l, map2_map_r. reflexivity.
Qed.

Lemma rounded_weighted_sum_alpha_0 (a b : tensor) :
  Fp.in_format rdt a -> finite_tensor b ->
  length (data a) = length (data b) ->
  Fp.weighted_sum rnd rdt a b 0 = a.
Proof.
  intros Ha Hb Hlen. apply tensor_eq; [reflexivity |].
  rewrite rounded_weighted_sum_data.
  rewrite <- (map2_fst (data a) (data b) Hlen) at 2.
  apply map2_ext_Forall with (P := fun x => Fp.fl rdt x = x)
                             (Q := fun y => isfinite y = true); auto.
  intros x y Hx Hy.
  replace (1 - 0) with 1 by ring. rewrite rnd_1. cbn [Fp.fl].
  rewrite rdt_1, rdt_0, (@fmul_1_l rdt x rdt_1 Hx), (@fmul_0_l rdt y rdt_0 Hy).
  apply (@fadd_0_r rdt x Hx).
Qed.

Lemma rounded_weighted_sum_alpha_1 (a b : tensor) :
  finite_tensor a -> Fp.in_format rdt b ->
  shape a = shape b -> length (data a) = length (data b) ->
  Fp.weighted_sum rnd rdt a b 1 = b.
Proof.
  intros Ha Hb Hs Hlen. apply tensor_eq; [exact Hs |].
  rewrite rounded_weighted_sum_data.
  rewrite <- (map2_snd (data a) (data b) Hlen) at 2.
  apply map2_ext_Forall with (P := fun x => isfinite x = true)
                             (Q := fun y => Fp.fl rdt y = y); auto.
  intros x y Hx Hy.
  replace (1 - 1) with 0 by ring. rewrite rnd_0. cbn [Fp.fl].
  rewrite rdt_0, rdt_1, (@fmul_0_l rdt x rdt_0 Hx), (@fmul_1_l rdt y rdt_1 Hy).
  apply (@fadd_0_l rdt y Hy).
Qed.

End RoundedWeightedSum.

(** C9, as amended.  In floating point, [weighted_sum a b alpha] is
    elementwise [(1 - alpha) * a + alpha * b] with every operation rounded:
    the difference in binary64, the products and the sum in the dtype of the
    tensors.  On tensors of one shape that hold numbers of their dtype,
    [weighted_sum a b 0 = a] when [b] is finite and
    [weighted_sum a b 1 = b] when [a] is finite. *)
Theorem weighted_sum_rounded_identities
        (rnd rdt : Qc -> num) (a b : tensor) (alpha : Qc) :
  rnd 0%Qc = Fin 0%Qc -> rnd 1%Qc = Fin 1%Qc ->
  rdt 0%Qc = Fin 0%Qc -> rdt 1%Qc = Fin 1%Qc ->
  Fp.in_format rdt a -> Fp.in_format rdt b ->
  shape a = shape b -> length (data a) = length (data b) ->
  data (Fp.weighted_sum rnd rdt a b alpha)
  = map2 (fun x y =>
            Fp.fadd rdt (Fp.fmul rdt (Fp.fl rdt (rnd (1 - alpha)%Qc)) x)
                        (Fp.fmul rdt (rdt alpha) y))
         (data a) (data b)
  /\ (finite_tensor b -> Fp.weighted_sum rnd rdt a b 0%Qc = a)
  /\ (finite_tensor a -> Fp.weighted_sum rnd rdt a b 1%Qc = b).
Proof.
  intros R0 R1 D0 D1 Ha Hb Hs Hl. split; [| split].
  - apply rounded_weighted_sum_data.
  - intros Fb. apply rounded_weighted_sum_alpha_0; auto.
  - intros Fa. apply rounded_weighted_sum_alpha_1; auto.
Qed.

Lemma weighted_sum_rounded_identities_witness :
  (Fp.in_format Fp.binary32 ws_a /\ Fp.in_format Fp.binary32 ws_b
   /\ finite_tensor ws_a /\ finite_tensor ws_b)
  /\ Fp.weighted_sum Fp.binary64 Fp.binary32 ws_a ws_b 0%Qc = ws_a
  /\ Fp.weighted_sum Fp.binary64 Fp.binary32 ws_a ws_b 1%Qc = ws_b.
Proof.
  assert (Ha : Fp.in_format Fp.binary32 ws_a)
    by (repeat constructor; apply num_eqb_eq; vm_compute; reflexivity).
  assert (Hb : Fp.in_format Fp.binary32 ws_b)
    by (repeat constructor; apply num_eqb_eq; vm_compute; reflexivity).
  assert (Fa : finite_tensor ws_a) by (repeat constructor).
  assert (Fb : finite_tensor ws_b) by (repeat constructor).
  split; [auto |].
  destruct (@weighted_sum_rounded_identities
              Fp.binary64 Fp.binary32 ws_a ws_b (Q2Qc (3 # 10))
              (Fp.rnd_0 binary64_format) (Fp.rnd_1 binary64_format)
              (Fp.rnd_0 binary32_format) (Fp.rnd_1 binary32_format)
              Ha Hb eq_refl eq_refl) as (_ & H0 & H1).
  split; [exact (H0 Fb) | exact (H1 Fa)].
Defined.

(** C9, as stated, fails twice.  With [a = b = 0.1] and [alpha = 0.3], all
    binary64, the blend [(1 - 0.3) * 0.1 + 0.3 * 0.1] rounds to the number
    below 0.1, so [weighted_sum a a alpha] is not [a]; and with [alpha = 0]
    an infinite element of [b] gives [0 * inf], which is NaN. *)
Lemma weighted_sum_rounding_counterexample :
  (Fp.in_format Fp.binary64 tenth /\ Fp.binary64 py_0_3 = Fin py_0_3)
  /\ nltb (at_ (Fp.weighted_sum Fp.binary64 Fp.binary64 tenth tenth py_0_3) 0)
          (at_ tenth 0) = true
  /\ Fp.weighted_sum Fp.binary64 Fp.binary64 tenth tenth py_0_3 <> tenth
  /\ Fp.weighted_sum Fp.binary64 Fp.binary64
                     (mkTensor [1%nat] [Fin 1%Qc]) (mkTensor [1%nat] [PInf]) 0%Qc
     = mkTensor [1%nat] [NaN].
Proof.
  split; [split | split; [| split]].
  - repeat constructor.
  - apply num_eqb_eq. vm_compute. reflexivity.
  - vm_compute. reflexivity.
  - intros H.
    apply (f_equal (fun t => tensor_eqb t tenth)) in H.
    vm_compute in H. discriminate H.
  - apply tensor_eqb_eq. vm_compute. reflexivity.
Qed.

(* ------------------------------------------------------------------ *)
(** ** Region masking in floating point *)

Section RoundedRegion.

Open Scope Qc_scope.

Variable rnd : Qc -> num.
Hypothesis F : Fp.format rnd.

Variable n : Z.
Hypothesis n_pos : (0 < n)%Z.
Hypothesis n_float : rnd (ofZ n) = Fin (ofZ n).

Lemma ofZ_n_pos : 0 < ofZ n.
Proof. apply ofZ_pos, n_pos. Qed.

(** A rounded product with [n] of a factor in [0, 1], then rounded to an
    integer, is an index in [0, n]. *)
Lemma scaled_index (x : Qc) :
  0 <= x -> x <= 1 ->
  exists q, Fp.fmul rnd (Fin x) (Fin (ofZ n)) = Fin q
            /\ 0 <= q /\ q <= ofZ n
            /\ (0 <= pyround q <= n)%Z.
Proof.
  intros H0 H1. unfold Fp.fmul. cbn [nmul Fp.fl].
  pose proof ofZ_n_pos as Hn.
  destruct (@rounded_between rnd 0 (ofZ n) (x * ofZ n)
              (Fp.rnd_monotone F) (Fp.rnd_0 F) n_float)
    as (q & E & L & U).
  { replace 0 with (0 * ofZ n) by ring.
    apply Qcmult_le_compat_r; [exact H0 | apply Qclt_le_weak, Hn]. }
  { replace (ofZ n) with (1 * ofZ n) at 2 by ring.
    apply Qcmult_le_compat_r; [exact H1 | apply Qclt_le_weak, Hn]. }
  exists q. repeat split; auto.
  - rewrite <- pyround_0. apply pyround_mono, L.
  - rewrite <- (pyround_ofZ n). apply pyround_mono, U.
Qed.

Lemma scaled_index_mono (x y qx qy : Qc) :
  x <= y ->
  Fp.fmul rnd (Fin x) (Fin (ofZ n)) = Fin qx ->
  Fp.fmul rnd (Fin y) (Fin (ofZ n)) = Fin qy ->
  (pyround qx <= pyround qy)%Z.
Proof.
  intros H Ex Ey. unfold Fp.fmul in *. cbn [nmul Fp.fl] in *.
  assert (M : nleb (rnd (x * ofZ n)) (rnd (y * ofZ n)) = true).
  { apply (Fp.rnd_monotone F).
    apply Qcmult_le_compat_r; [exact H | apply Qclt_le_weak, ofZ_n_pos]. }
  rewrite Ex, Ey in M. apply pyround_mono, Qcleb_true, M.
Qed.

(** The two branches, from a width in [0, 1] and an offset in [0, 1). *)
Lemma rounded_region (w o : Qc) :
  0 <= w -> w <= 1 -> 0 <= o -> o < 1 -> rnd o = Fin o ->
  exists (start end_ : Z) (inverted : bool),
    (nf <- Fp.float_of_int rnd n ;;
     let s := Fp.fadd rnd (Fin w) (Fin o) in
     if nleb s (Fin 1) then
       start <- Fp.round_of (Fp.fmul rnd (Fin o) nf) ;;
       end_ <- Fp.round_of (Fp.fmul rnd s nf) ;;
       Ok (start, end_, false)
     else
       start <- Fp.round_of (Fp.fmul rnd (Fp.fsub rnd s (Fin 1)) nf) ;;
       end_ <- Fp.round_of (Fp.fmul rnd (Fin o) nf) ;;
       Ok (start, end_, true))
    = Ok (start, end_, inverted)
    /\ (0 <= start <= n)%Z /\ (0 <= end_ <= n)%Z
    /\ (inverted = false -> (start <= end_)%Z).
Proof.
  intros W0 W1 O0 O1 Ro.
  unfold Fp.float_of_int. rewrite n_float. cbn [bind]. cbv zeta.
  assert (S : exists sv, Fp.fadd rnd (Fin w) (Fin o) = Fin sv
                         /\ o <= sv /\ sv <= ofZ 2).
  { unfold Fp.fadd. cbn [nadd Fp.fl].
    destruct (@rounded_between rnd o (ofZ 2) (w + o)
                (Fp.rnd_monotone F) Ro (Fp.rnd_2 F))
      as (sv & E & L & U).
    - qc_lra.
    - change (ofZ 2) with (1 + 1). qc_lra.
    - exists sv. auto. }
  destruct S as (sv & Es & Ls & Us). rewrite Es. cbn [nleb].
  destruct (@scaled_index o) as (qo & Eo & _ & _ & Bo); [exact O0 | qc_lra |].
  destruct (Qcleb sv 1) eqn:C.
  - apply Qcleb_true in C.
    destruct (@scaled_index sv) as (qs & Eq & _ & _ & Bs); [qc_lra | exact C |].
    rewrite Eo, Eq. cbn [Fp.round_of bind].
    do 3 eexists. split; [reflexivity |]. repeat split; try lia.
    intros _. exact (scaled_index_mono Ls Eo Eq).
  - apply Qcleb_false in C.
    assert (D : exists d, Fp.fsub rnd (Fin sv) (Fin 1) = Fin d /\ 0 <= d /\ d <= 1).
    { unfold Fp.fsub. cbn [nsub nopp nadd Fp.fl].
      destruct (@rounded_between rnd 0 1 (sv + - (1))
                  (Fp.rnd_monotone F) (Fp.rnd_0 F) (Fp.rnd_1 F))
        as (d & E & L & U).
      - qc_lra.
      - change (ofZ 2) with (1 + 1) in Us. qc_lra.
      - exists d. auto. }
    destruct D as (d & Ed & D0 & D1). rewrite Ed.
    destruct (@scaled_index d) as (qd & Eq & _ & _ & Bd); [exact D0 | exact D1 |].
    rewrite Eo, Eq. cbn [Fp.round_of bind].
    do 3 eexists. split; [reflexivity |]. repeat split; lia.
Qed.

Variable B : Qc.
Hypothesis B_lo : rnd (- B) = Fin (- B).
Hypothesis B_hi : rnd (1 + B) = Fin (1 + B).

(** The offset brought to a non-negative number of the format. *)
Lemma rounded_offset (o1 : Qc) :
  rnd o1 = Fin o1 -> - B <= o1 ->
  exists t,
    (if nltb (Fin o1) (Fin 0) then
       i <- Fp.int_of (Fin o1) ;;
       fi <- Fp.float_of_int rnd i ;;
       Ok (Fp.fsub rnd (Fp.fadd rnd (Fin 1) (Fin o1)) fi)
     else Ok (Fin o1))
    = Ok (Fin t)
    /\ 0 <= t /\ rnd t = Fin t.
Proof.
  intros Ro Lo. cbn [nltb].
  destruct (Qcltb o1 0) eqn:C.
  - apply Qcltb_true in C. cbn [Fp.int_of bind].
    destruct (fmod1_neg C) as (A1 & A2 & A3). unfold fmod1 in A1, A2, A3.
    set (i := pyint o1) in *.
    assert (I0 : ofZ i <= 0) by (clearbody i; qc_lra).
    assert (I1 : o1 <= ofZ i) by (clearbody i; qc_lra).
    destruct (@rounded_between rnd o1 0 (ofZ i)
                (Fp.rnd_monotone F) Ro (Fp.rnd_0 F) I1 I0)
      as (q & Eq & Lq & Uq).
    unfold Fp.float_of_int. rewrite Eq. cbn [bind].
    unfold Fp.fadd. cbn [nadd Fp.fl].
    destruct (@rounded_between rnd (- B) 1 (1 + o1)
                (Fp.rnd_monotone F) B_lo (Fp.rnd_1 F))
      as (t1 & E1 & L1 & U1); [qc_lra | qc_lra |].
    rewrite E1.
    assert (M : q <= t1).
    { assert (H : nleb (rnd (ofZ i)) (rnd (1 + o1)) = true).
      { apply (Fp.rnd_monotone F). clearbody i. qc_lra. }
      rewrite Eq, E1 in H. apply Qcleb_true, H. }
    unfold Fp.fsub. cbn [nsub nopp nadd Fp.fl].
    destruct (@rounded_between rnd 0 (1 + B) (t1 + - q)
                (Fp.rnd_monotone F) (Fp.rnd_0 F) B_hi)
      as (t & Et & Lt & Ut); [qc_lra | qc_lra |].
    exists t. rewrite Et. repeat split; auto.
    apply (Fp.rnd_idempotent F _ Et).
  - apply Qcltb_false in C. exists o1. auto.
Qed.

(** The sign fold of a negative width. *)
Lemma rounded_fold (width offset : Qc) :
  rnd offset = Fin offset -> - B <= offset -> - B <= offset + width ->
  exists o1 w1,
    (if Qcltb width 0
     then (Fp.fadd rnd (Fin offset) (Fin width), (- width)%Qc)
     else (Fin offset, width)) = (Fin o1, w1)
    /\ rnd o1 = Fin o1 /\ - B <= o1 /\ 0 <= w1.
Proof.
  intros Ro L1 L2. destruct (Qcltb width 0) eqn:C.
  - apply Qcltb_true in C. unfold Fp.fadd. cbn [nadd Fp.fl].
    destruct (@rounded_between rnd (- B) offset (offset + width)
                (Fp.rnd_monotone F) B_lo Ro)
      as (o1 & E & Lo & Uo); [exact L2 | qc_lra |].
    exists o1, (- width). rewrite E. repeat split; auto.
    + apply (Fp.rnd_idempotent F _ E).
    + qc_lra.
  - apply Qcltb_false in C. exists offset, width. auto.
Qed.

(** Both indices of the region are rows of the tensor. *)
Lemma ratio_to_region_rows (width offset : Qc) :
  rnd offset = Fin offset -> - B <= offset -> - B <= offset + width ->
  exists (s e : nat) (inverted : bool),
    Fp.ratio_to_region rnd width offset n = Ok (Z.of_nat s, Z.of_nat e, inverted)
    /\ (Z.of_nat s <= n)%Z /\ (Z.of_nat e <= n)%Z.
Proof.
  intros Ro L1 L2. unfold Fp.ratio_to_region.
  destruct (@rounded_fold width offset Ro L1 L2) as (o1 & w1 & -> & Ro1 & Lo1 & Hw1).
  destruct (rounded_offset Ro1 Lo1) as (t & -> & Ht & Rt).
  cbn [bind Fp.fmod_1].
  destruct (fmod1_range Ht) as [O0 O1].
  destruct (@rounded_region (Qcmin w1 1) (fmod1 t))
    as (start & end_ & inv & E & Bs & Be & _); auto.
  - unfold Qcmin. qc_cases; qc_lra.
  - unfold Qcmin. qc_cases; qc_lra.
  - apply (Fp.rnd_fraction F Rt).
  - exists (Z.to_nat start), (Z.to_nat end_), inv.
    rewrite !Z2Nat.id by lia. repeat split; [exact E | lia | lia].
Qed.

End RoundedRegion.

(** C10, as amended.  For a Python float [offset], every [width] and every
    positive [n] that is a float, with [offset] and [offset + width] above
    a bound [-B] that keeps the normalisation of the offset from
    overflowing, [ratio_to_region width offset n] returns integers [start]
    and [end] that both lie in [0, n], together with a boolean flag, and
    [start <= end] when the region is not inverted. *)
Theorem ratio_to_region_rounded_bounds
        (rnd : Qc -> num) (width offset B : Qc) (n : Z) :
  Fp.format rnd ->
  (0 < n)%Z -> rnd (ofZ n) = Fin (ofZ n) ->
  rnd offset = Fin offset ->
  rnd (- B)%Qc = Fin (- B)%Qc -> rnd (1 + B)%Qc = Fin (1 + B)%Qc ->
  (- B <= offset)%Qc -> (- B <= offset + width)%Qc ->
  exists (start end_ : Z) (inverted : bool),
    Fp.ratio_to_region rnd width offset n = Ok (start, end_, inverted)
    /\ (0 <= start <= n)%Z /\ (0 <= end_ <= n)%Z
    /\ (inverted = false -> (start <= end_)%Z).
Proof.
  intros F Hn Rn Ro Bl Bh L1 L2. unfold Fp.ratio_to_region.
  destruct (@rounded_fold rnd F B Bl width offset Ro L1 L2)
    as (o1 & w1 & -> & Ro1 & Lo1 & Hw1).
  destruct (@rounded_offset rnd F B Bl Bh o1 Ro1 Lo1) as (t & -> & Ht & Rt).
  cbn [bind Fp.fmod_1].
  destruct (fmod1_range Ht) as [O0 O1].
  apply (@rounded_region rnd F n Hn Rn (Qcmin w1 1) (fmod1 t)); auto.
  - unfold Qcmin. qc_cases; qc_lra.
  - unfold Qcmin. qc_cases; qc_lra.
  - apply (Fp.rnd_fraction F Rt).
Qed.

(** A negative width: the region of width 0.3 that ends at offset 0.1 wraps
    around the first of ten rows. *)
Lemma ratio_to_region_rounded_bounds_witness :
  ((0 < 10)%Z /\ Fp.binary64 py_0_1 = Fin py_0_1
   /\ (- (1) <= py_0_1)%Qc /\ (- (1) <= py_0_1 + - py_0_3)%Qc)
  /\ exists (start end_ : Z) (inverted : bool),
      Fp.ratio_to_region Fp.binary64 (- py_0_3)%Qc py_0_1 10
      = Ok (start, end_, inverted)
      /\ (0 <= start <= 10)%Z /\ (0 <= end_ <= 10)%Z
      /\ (inverted = false -> (start <= end_)%Z).
Proof.
  assert (H1 : (0 < 10)%Z) by lia.
  assert (H2 : Fp.binary64 py_0_1 = Fin py_0_1)
    by (apply num_eqb_eq; vm_compute; reflexivity).
  assert (H3 : (- (1) <= py_0_1)%Qc) by (unfold Qcle; vm_compute; discriminate).
  assert (H4 : (- (1) <= py_0_1 + - py_0_3)%Qc)
    by (unfold Qcle; vm_compute; discriminate).
  split; [auto |].
  apply (@ratio_to_region_rounded_bounds
           Fp.binary64 (- py_0_3)%Qc py_0_1 1%Qc 10 binary64_format H1); auto;
    apply num_eqb_eq; vm_compute; reflexivity.
Defined.

(** C10, as stated, fails: with width 1.0 at offset 0.1 over five rows, all
    binary64, [1.0 + 0.1 - 1] is above 0.1, its product with 5 rounds to 1
    and [0.1 * 5 = 0.5] rounds to 0, so the region is [(1, 0, True)] and
    [start] exceeds [end]. *)
Lemma ratio_to_region_start_above_end_counterexample :
  Fp.binary64 py_0_1 = Fin py_0_1
  /\ Fp.ratio_to_region Fp.binary64 1%Qc py_0_1 5 = Ok (1%Z, 0%Z, true)
  /\ ~ (1 <= 0)%Z.
Proof.
  split; [apply num_eqb_eq; vm_compute; reflexivity |].
  split; [vm_compute; reflexivity | lia].
Qed.

(* ------------------------------------------------------------------ *)
(** ** tensor_sum in floating point *)

(** X6.  On tensors [a] and [b] of one shape with at least one row,
    [tensor_sum] returns a tensor of that shape whose row [r] along the
    first axis is the row of [b] when [r] lies in the region
    [start <= r < end] of [ratio_to_region] (or outside it, when the region
    is inverted) and the row of [a] otherwise; this holds on both code
    paths, the one that writes into [a] and the one that writes into [b],
    and a region with [end <= start] holds no row. *)
Theorem tensor_sum_rows (rnd : Qc -> num) (a b : tensor) (width offset B : Qc)
        (size0 : nat) (rest : list nat) :
  Fp.format rnd ->
  shape a = size0 :: rest -> shape b = shape a ->
  wf_tensor a -> wf_tensor b ->
  (0 < size0)%nat -> rnd (ofnat size0) = Fin (ofnat size0) ->
  rnd offset = Fin offset ->
  rnd (- B)%Qc = Fin (- B)%Qc -> rnd (1 + B)%Qc = Fin (1 + B)%Qc ->
  (- B <= offset)%Qc -> (- B <= offset + width)%Qc ->
  exists (s e : nat) (inv : bool) (r : tensor),
    Fp.ratio_to_region rnd width offset (Z.of_nat size0)
    = Ok (Z.of_nat s, Z.of_nat e, inv)
    /\ (s <= size0)%nat /\ (e <= size0)%nat
    /\ Fp.tensor_sum rnd a b width offset = Ok r
    /\ shape r = shape a
    /\ numel r = numel a
    /\ forall i : nat, (i < numel a)%nat ->
         nth i (data r) NaN
         = if xorb inv ((s <=? i / row_numel (shape a))%nat
                        && (i / row_numel (shape a) <? e)%nat)
           then nth i (data b) NaN else nth i (data a) NaN.
Proof.
  intros F Hs Hss Hwa Hwb Hpos Rn Ro Bl Bh L1 L2.
  assert (Hn : (0 < Z.of_nat size0)%Z) by lia.
  destruct (@ratio_to_region_rows rnd F (Z.of_nat size0) Hn Rn B Bl Bh
              width offset Ro L1 L2) as (s & e & inv & HR & Bs & Be).
  assert (Hb : (0 <= Z.of_nat s <= Z.of_nat size0
                /\ 0 <= Z.of_nat e <= Z.of_nat size0)%Z) by lia.
  exists s, e, inv.
  unfold Fp.tensor_sum. rewrite Hs, HR. cbn [bind].
  assert (Hsb : shape b = size0 :: rest) by congruence.
  assert (Hsa : shape a = shape b) by congruence.
  assert (Hnum : numel b = numel a).
  { unfold numel, wf_tensor in *. rewrite Hwa, Hwb, Hss. reflexivity. }
  eexists. split; [reflexivity |]. split; [lia |]. split; [lia |].
  split; [reflexivity |].
  destruct inv; cbn [xorb].
  - split; [cbn [assign_rows shape]; congruence |].
    split; [unfold numel at 1; rewrite (assign_rows_length Hsb Hsa Hwb Hwa Hb);
            exact Hnum |].
    intros i Hi. rewrite <- Hnum in Hi.
    rewrite (assign_rows_nth Hsb Hsa Hwb Hwa Hb Hi).
    rewrite !Nat2Z.id. rewrite Hsb. rewrite <- Hs.
    destruct ((s <=? i / row_numel (shape a))%nat
              && (i / row_numel (shape a) <? e)%nat); reflexivity.
  - split; [cbn [assign_rows shape]; congruence |].
    split; [unfold numel at 1; rewrite (assign_rows_length Hs Hss Hwa Hwb Hb);
            reflexivity |].
    intros i Hi.
    rewrite (assign_rows_nth Hs Hss Hwa Hwb Hb Hi).
    rewrite !Nat2Z.id. rewrite <- Hs. reflexivity.
Qed.

Lemma tensor_sum_rows_witness :
  exists (s e : nat) (inv : bool) (r : tensor),
    Fp.ratio_to_region Fp.binary64 (Q2Qc (1 # 2)) (Q2Qc (3 # 4)) (Z.of_nat 4)
    = Ok (Z.of_nat s, Z.of_nat e, inv)
    /\ (s <= 4)%nat /\ (e <= 4)%nat
    /\ Fp.tensor_sum Fp.binary64 rows_a rows_b (Q2Qc (1 # 2)) (Q2Qc (3 # 4)) = Ok r
    /\ shape r = shape rows_a
    /\ numel r = numel rows_a
    /\ forall i : nat, (i < numel rows_a)%nat ->
         nth i (data r) NaN
         = if xorb inv ((s <=? i / row_numel (shape rows_a))%nat
                        && (i / row_numel (shape rows_a) <? e)%nat)
           then nth i (data rows_b) NaN else nth i (data rows_a) NaN.
Proof.
  apply (@tensor_sum_rows Fp.binary64 rows_a rows_b (Q2Qc (1 # 2)) (Q2Qc (3 # 4))
                          1%Qc 4 [2%nat] binary64_format);
    try reflexivity; try lia;
    try (apply num_eqb_eq; vm_compute; reflexivity);
    unfold Qcle; vm_compute; discriminate.
Defined.

(** The region of C10's failing input: with width 1.0 at offset 0.1 the
    region [(1, 0, True)] holds no row, so every row is the one of [b]. *)
Example tensor_sum_rounded_example :
  Fp.tensor_sum Fp.binary64
                (mkTensor [5%nat] (map (fun z => Fin (ofZ z)) [1; 2; 3; 4; 5]%Z))
                (mkTensor [5%nat] (map (fun z => Fin (ofZ z)) [10; 20; 30; 40; 50]%Z))
                1%Qc py_0_1
  = Ok (mkTensor [5%nat] (map (fun z => Fin (ofZ z)) [10; 20; 30; 40; 50]%Z)).
Proof. apply Ok_tensor_eqb. vm_compute. reflexivity. Qed.

(* ------------------------------------------------------------------ *)
(** ** TIES in floating point: the trim step *)

Section RoundedTrim.

Open Scope Qc_scope.

Variables rnd r32 : Qc -> num.
Hypothesis F : Fp.format rnd.
Hypothesis F32 : Fp.format r32.

Lemma rounded_not_nan (q : Qc) : isnan (r32 q) = false.
Proof.
  pose proof (Fp.rnd_monotone F32 (Qcle_refl q)) as H.
  destruct (r32 q); cbn in *; try reflexivity; discriminate.
Qed.

Lemma cast_isnan (x : num) : isnan (Fp.fl r32 (nabs x)) = isnan x.
Proof.
  destruct x as [q | | |]; cbn; try reflexivity. apply rounded_not_nan.
Qed.

Lemma cast_exact (a : tensor) :
  Forall (fun x => Fp.fl r32 (nabs x) = nabs x) (data a) ->
  map (fun x => Fp.fl r32 (nabs x)) (data a) = map nabs (data a).
Proof.
  intros H. apply map_ext_in. rewrite Forall_forall in H. exact H.
Qed.

Lemma rounded_le (x c q : Qc) :
  x <= c -> rnd x = Fin q -> rnd c = Fin c -> q <= c.
Proof.
  intros H E R. pose proof (Fp.rnd_monotone F H) as M.
  rewrite E, R in M. apply Qcleb_true, M.
Qed.

(** The rank, when the product [(1 - k) * numel] does not overflow. *)
Lemma rounded_rank (n : nat) (k : Qc) :
  rnd (ofnat n) = Fin (ofnat n) ->
  isfinite (Fp.fmul rnd (rnd (1 - k)) (Fin (ofnat n))) = true ->
  exists a b : Qc,
    rnd (1 - k) = Fin a
    /\ rnd (a * ofnat n) = Fin b
    /\ Fp.top_k_rank rnd n k = Ok (Z.max (pyint b) 1)
    /\ (0 <= k -> b <= ofnat n)
    /\ (1 <= k -> b <= 0).
Proof.
  intros Rn Hfin.
  assert (N0 : 0 <= ofnat n).
  { unfold ofnat. change 0 with (ofZ 0). apply ofZ_le. lia. }
  destruct (rnd (1 - k)) as [a | | |] eqn:Ea;
    try (exfalso; unfold Fp.fmul in Hfin; cbn [nmul] in Hfin;
         unfold scale_inf in Hfin;
         destruct (ofnat n ?= 0); discriminate Hfin).
  unfold Fp.fmul in Hfin. cbn [nmul Fp.fl] in Hfin.
  destruct (rnd (a * ofnat n)) as [b | | |] eqn:Eb; try discriminate Hfin.
  exists a, b. split; [reflexivity |]. split; [exact Eb |]. split.
  - unfold Fp.top_k_rank, Fp.float_of_int. fold (ofnat n). rewrite Rn.
    cbn [bind]. rewrite Ea. unfold Fp.fmul. cbn [nmul Fp.fl]. rewrite Eb.
    reflexivity.
  - split; intros Hk.
    + assert (A : a <= 1).
      { apply (@rounded_le (1 - k) 1 a); [qc_lra | exact Ea | apply (Fp.rnd_1 F)]. }
      apply (@rounded_le (a * ofnat n) (ofnat n) b); [| exact Eb | exact Rn].
      replace (ofnat n) with (1 * ofnat n) at 2 by ring.
      apply Qcmult_le_compat_r; assumption.
    + assert (A : a <= 0).
      { apply (@rounded_le (1 - k) 0 a); [qc_lra | exact Ea | apply (Fp.rnd_0 F)]. }
      apply (@rounded_le (a * ofnat n) 0 b); [| exact Eb | apply (Fp.rnd_0 F)].
      replace 0 with (0 * ofnat n) by ring.
      apply Qcmult_le_compat_r; assumption.
Qed.

Lemma rounded_rank_range (n : nat) (k : Qc) :
  (0 < n)%nat -> 0 <= k -> rnd (ofnat n) = Fin (ofnat n) ->
  isfinite (Fp.fmul rnd (rnd (1 - k)) (Fin (ofnat n))) = true ->
  exists r, Fp.top_k_rank rnd n k = Ok r /\ (1 <= r <= Z.of_nat n)%Z.
Proof.
  intros Hn Hk Rn Hfin.
  destruct (@rounded_rank n k Rn Hfin) as (a & b & _ & _ & E & U & _).
  eexists. split; [exact E |]. split; [lia |].
  apply Z.max_lub; [| lia]. apply pyint_le; [lia | exact (U Hk)].
Qed.

Lemma rounded_rank_1 (n : nat) (k : Qc) :
  1 <= k -> rnd (ofnat n) = Fin (ofnat n) ->
  isfinite (Fp.fmul rnd (rnd (1 - k)) (Fin (ofnat n))) = true ->
  Fp.top_k_rank rnd n k = Ok 1%Z.
Proof.
  intros Hk Rn Hfin.
  destruct (@rounded_rank n k Rn Hfin) as (a & b & _ & _ & E & _ & U).
  rewrite E. f_equal.
  assert (H : (pyint b <= 0)%Z) by (apply pyint_le; [lia | exact (U Hk)]).
  lia.
Qed.

(** What [filter_top_k] returns at rank [r]. *)
Lemma rounded_filter (a : tensor) (k : Qc) (r : Z) :
  nan_free a ->
  Fp.top_k_rank rnd (numel a) k = Ok r -> (1 <= r <= Z.of_nat (numel a))%Z ->
  exists t,
    kthvalue (map (fun x => Fp.fl r32 (nabs x)) (data a)) r = Ok t
    /\ Fp.filter_top_k rnd r32 a k
       = Ok (mkTensor (shape a)
                      (map (fun x => if ngeb (nabs x) t then x else Fin 0)
                           (data a)))
    /\ (Forall (fun x => Fp.fl r32 (nabs x) = nabs x) (data a) ->
        (Z.of_nat (numel a) - r + 1 <= Z.of_nat (kept_count a t))%Z).
Proof.
  intros Hnan Er Hr.
  destruct (@kthvalue_ok (map (fun x => Fp.fl r32 (nabs x)) (data a)) r)
    as (t & Ht & _).
  { rewrite length_map. exact Hr. }
  destruct (kthvalue_count _ _ Ht) as [Hin Hcount].
  assert (Htn : isnan t = false).
  { apply in_map_iff in Hin. destruct Hin as (x & <- & Hx).
    rewrite cast_isnan. unfold nan_free in Hnan.
    rewrite Forall_forall in Hnan. auto. }
  exists t. split; [exact Ht |]. split.
  - unfold Fp.filter_top_k. rewrite Er. cbn [bind]. rewrite Ht. cbn [bind].
    f_equal. unfold tmul, tmap2, tmap. cbn [shape data]. f_equal.
    rewrite map2_map_r, map2_same.
    apply map_ext_in. intros x Hx.
    assert (Hxn : isnan x = false).
    { unfold nan_free in Hnan. rewrite Forall_forall in Hnan. auto. }
    destruct (ngeb (nabs x) t) eqn:E; cbn [of_bool].
    + apply nmul_1_r.
    + exact (@nmul_dropped x t Hxn Htn E).
  - intros Hc. rewrite (cast_exact _ Hc) in Hcount.
    rewrite length_map in Hcount. unfold kept_count.
    rewrite filter_map_length in Hcount.
    erewrite filter_ext_in; [exact Hcount |].
    intros x Hx. cbn beta. symmetry. apply sort_leb_nleb; auto.
    rewrite nabs_isnan. unfold nan_free in Hnan.
    rewrite Forall_forall in Hnan. auto.
Qed.

End RoundedTrim.

(** C3, as amended.  In the TIES trim step every input delta (non-empty,
    without NaN, [k >= 0], a product [(1 - k) * numel] that does not
    overflow) is replaced by [filter_top_k]: with the rank
    [r = max(int((1 - k) * numel), 1)] computed in binary64, which lies in
    [1, numel], and [t] the [r]-th smallest of the magnitudes converted to
    float32, an element is kept iff its magnitude is [>= t] and is zeroed
    otherwise; so ties at the threshold survive, and on a delta whose
    magnitudes are float32 numbers at least [numel - r + 1] elements are
    kept. *)
Theorem trim_keeps_top_magnitudes
        (rnd r32 : Qc -> num) (models : list tensor) (k : Qc) :
  Fp.format rnd -> Fp.format r32 ->
  (0 <= k)%Qc ->
  Forall (fun m =>
            data m <> [] /\ nan_free m
            /\ rnd (ofnat (numel m)) = Fin (ofnat (numel m))
            /\ isfinite (Fp.fmul rnd (rnd (1 - k)%Qc) (Fin (ofnat (numel m))))
               = true)
         models ->
  exists deltas,
    Fp.trim rnd r32 models k = Ok deltas
    /\ Forall2
         (fun m d =>
            exists (r : Z) (t : num),
              Fp.top_k_rank rnd (numel m) k = Ok r
              /\ (1 <= r <= Z.of_nat (numel m))%Z
              /\ kthvalue (map (fun x => Fp.fl r32 (nabs x)) (data m)) r = Ok t
              /\ d = mkTensor (shape m)
                              (map (fun x => if ngeb (nabs x) t then x else Fin 0)
                                   (data m))
              /\ (Forall (fun x => Fp.fl r32 (nabs x) = nabs x) (data m) ->
                  (Z.of_nat (numel m) - r + 1 <= Z.of_nat (kept_count m t))%Z))
         models deltas.
Proof.
  intros F F32 Hk H. unfold Fp.trim.
  induction H as [| m ms (Hne & Hnan & Rn & Hfin) Hms IH].
  - exists []. split; [reflexivity | constructor].
  - destruct IH as (ds & Hds & HF).
    assert (Hn : (0 < numel m)%nat).
    { unfold numel. destruct (data m); [congruence | cbn; lia]. }
    destruct (@rounded_rank_range rnd F (numel m) k Hn Hk Rn Hfin) as (r & Er & Hr).
    destruct (@rounded_filter rnd r32 F32 m k r Hnan Er Hr) as (t & Ht & Hf & Hc).
    eexists (_ :: ds). split.
    + cbn [mapM]. rewrite Hf. cbn [bind]. rewrite Hds. reflexivity.
    + constructor; auto. exists r, t. auto.
Qed.

Lemma trim_keeps_top_magnitudes_witness :
  ((0 <= py_0_25)%Qc
   /\ Forall (fun m =>
                data m <> [] /\ nan_free m
                /\ Fp.binary64 (ofnat (numel m)) = Fin (ofnat (numel m))
                /\ isfinite (Fp.fmul Fp.binary64 (Fp.binary64 (1 - py_0_25)%Qc)
                                     (Fin (ofnat (numel m)))) = true)
             [trim_model])
  /\ exists deltas,
      Fp.trim Fp.binary64 Fp.binary32 [trim_model] py_0_25 = Ok deltas
      /\ Forall2
           (fun m d =>
              exists (r : Z) (t : num),
                Fp.top_k_rank Fp.binary64 (numel m) py_0_25 = Ok r
                /\ (1 <= r <= Z.of_nat (numel m))%Z
                /\ kthvalue (map (fun x => Fp.fl Fp.binary32 (nabs x)) (data m)) r
                   = Ok t
                /\ d = mkTensor (shape m)
                                (map (fun x => if ngeb (nabs x) t then x else Fin 0)
                                     (data m))
                /\ (Forall (fun x => Fp.fl Fp.binary32 (nabs x) = nabs x) (data m) ->
                    (Z.of_nat (numel m) - r + 1 <= Z.of_nat (kept_count m t))%Z))
           [trim_model] deltas.
Proof.
  assert (H1 : (0 <= py_0_25)%Qc) by (intros H; discriminate H).
  assert (H2 : Forall (fun m =>
                data m <> [] /\ nan_free m
                /\ Fp.binary64 (ofnat (numel m)) = Fin (ofnat (numel m))
                /\ isfinite (Fp.fmul Fp.binary64 (Fp.binary64 (1 - py_0_25)%Qc)
                                     (Fin (ofnat (numel m)))) = true)
             [trim_model]).
  { repeat constructor.
    - cbn. discriminate.
    - apply num_eqb_eq. vm_compute. reflexivity. }
  split; [auto |].
  exact (@trim_keeps_top_magnitudes Fp.binary64 Fp.binary32 [trim_model] py_0_25
           binary64_format binary32_format H1 H2).
Defined.

(** C3, as stated, fails twice.  On the float32 delta [[1, 2, 3, 4]] with
    [k = 0.25] the trim step keeps two elements: a fraction 1/2, not
    [1 - k = 3/4], and fewer than the nominal [(1 - k) * 4 = 3].  On the
    float64 delta [[0.1, 0.2, 0.3, 0.4]] the threshold is the float32
    number nearest to 0.3, which is above the float64 0.3, so only 0.4
    survives: one element for the rank 3 of 4. *)
Lemma trim_keeps_fraction_counterexample :
  Fp.trim Fp.binary64 Fp.binary32 [trim_model] py_0_25
  = Ok [mkTensor [4%nat] [Fin 0; Fin 0; Fin (ofZ 3); Fin (ofZ 4)]]
  /\ kept_count trim_model (Fin (ofZ 3)) = 2%nat
  /\ (ofnat 2 / ofnat 4 <> 1 - py_0_25)%Qc
  /\ Fp.top_k_rank Fp.binary64 4 py_0_25 = Ok 3%Z
  /\ Fp.in_format Fp.binary64 tenths
  /\ match Fp.trim Fp.binary64 Fp.binary32 [tenths] py_0_25 with
     | Ok [d] =>
         tensor_eqb d (mkTensor [4%nat] [Fin 0; Fin 0; Fin 0; at_ tenths 3])
     | _ => false
     end = true.
Proof.
  split; [| split; [| split; [| split; [| split]]]].
  - unfold Fp.trim. cbn [mapM].
    rewrite (@Ok_tensor_eqb
               (Fp.filter_top_k Fp.binary64 Fp.binary32 trim_model py_0_25)
               (mkTensor [4%nat] [Fin 0; Fin 0; Fin (ofZ 3); Fin (ofZ 4)]));
      [reflexivity | vm_compute; reflexivity].
  - vm_compute. reflexivity.
  - intros H. vm_compute in H. discriminate H.
  - vm_compute. reflexivity.
  - repeat constructor.
  - vm_compute. reflexivity.
Qed.

(** X18.  With [k >= 1] (and a product [(1 - k) * numel] that does not
    overflow) the rank is 1 and [filter_top_k] keeps every element of a
    non-empty tensor whose magnitudes are float32 numbers: it returns its
    input, whatever the elements are. *)
Theorem filter_top_k_keeps_all (rnd r32 : Qc -> num) (a : tensor) (k : Qc) :
  Fp.format rnd ->
  data a <> [] -> (1 <= k)%Qc ->
  rnd (ofnat (numel a)) = Fin (ofnat (numel a)) ->
  isfinite (Fp.fmul rnd (rnd (1 - k)%Qc) (Fin (ofnat (numel a)))) = true ->
  Forall (fun x => Fp.fl r32 (nabs x) = nabs x) (data a) ->
  Fp.filter_top_k rnd r32 a k = Ok a.
Proof.
  intros F Hne Hk Rn Hfin Hc. unfold Fp.filter_top_k.
  rewrite (@rounded_rank_1 rnd F (numel a) k Hk Rn Hfin). cbn [bind].
  rewrite (map_ext_in _ nabs) by (rewrite Forall_forall in Hc; exact Hc).
  destruct (@kthvalue_ok (map nabs (data a)) 1) as (t & Et & _).
  { rewrite length_map. destruct (data a); [congruence | cbn; lia]. }
  rewrite Et. cbn [bind]. f_equal.
  apply tensor_eq; [reflexivity |].
  unfold tmul, tmap2, tmap. cbn [data].
  rewrite map2_map_r, map2_same.
  apply map_id_Forall with (P := fun x => In x (data a)).
  - intros x Hx. apply keep_when_least.
    apply (kthvalue_1_least _ Et). apply in_map, Hx.
  - apply Forall_forall. auto.
Qed.

Lemma filter_top_k_keeps_all_witness :
  Fp.filter_top_k Fp.binary64 Fp.binary32 trim_model 1%Qc = Ok trim_model.
Proof.
  apply (@filter_top_k_keeps_all Fp.binary64 Fp.binary32 trim_model 1%Qc
                                 binary64_format).
  - discriminate.
  - discriminate.
  - apply num_eqb_eq. vm_compute. reflexivity.
  - vm_compute. reflexivity.
  - repeat apply Forall_cons; try apply Forall_nil;
      apply num_eqb_eq; vm_compute; reflexivity.
Defined.

(* ------------------------------------------------------------------ *)
(** ** The geometric median in floating point *)

Section RoundedMedian.

Open Scope Qc_scope.

Variable rdt : Qc -> num.
Variable l2norm : list num -> num.









(** *** A single input *)

Hypothesis l2norm_zero :
  forall xs, Forall (fun x => x = Fin 0) xs -> l2norm xs = Fin 0.
Hypothesis rdt_0 : rdt 0 = Fin 0.

Variable p : tensor.
Hypothesis p_finite : finite_tensor p.



Variables (eps ftol e : Qc).
Hypothesis eps_dtype : rdt eps = Fin e.
Hypothesis eps_pos : 0 < e.
Hypothesis scaling_exact :
  Forall (fun x =>
            Fp.fdiv rdt (Fp.fmul rdt x (Fp.fdiv rdt (Fin 1) (Fin e)))
                    (Fp.fdiv rdt (Fin 1) (Fin e)) = x)
         (data p).





End RoundedMedian.




(* ------------------------------------------------------------------ *)
(** ** clamp in floating point *)

(** X17.  For finite [a] and finite bounds of one shape that hold numbers
    of their dtype, and a stiffness of 0 or 1, [clamp] returns a tensor of
    the shape of [a] whose every element lies between the smallest and the
    largest of the bounds at that position; with stiffness 0 the element is
    exactly [a] clamped to that interval.  (At stiffness 1 the blend
    [0 * m + 1 * s] of two bounds is [s] without rounding; for a stiffness
    in between the blend is rounded and can leave the interval.) *)
Theorem clamp_within_envelope (rnd rdt : Qc -> num) (a b0 : tensor)
        (bounds : list tensor) (stiffness : Qc) :
  rnd 0%Qc = Fin 0%Qc ->
  rdt 0%Qc = Fin 0%Qc -> rdt 1%Qc = Fin 1%Qc ->
  stiffness = 0%Qc \/ stiffness = 1%Qc ->
  finite_tensor a -> Forall finite_tensor (b0 :: bounds) ->
  Forall (Fp.in_format rdt) (b0 :: bounds) ->
  Forall (fun t => shape t = shape a) (b0 :: bounds) ->
  all_numel (numel a) (b0 :: bounds) ->
  exists r : tensor,
    Fp.clamp rnd rdt a b0 bounds stiffness = Ok r
    /\ shape r = shape a /\ numel r = numel a
    /\ forall i : nat, (i < numel a)%nat ->
         exists x lo hi : Qc,
           at_ a i = Fin x
           /\ In (Fin lo) (column i (b0 :: bounds))
           /\ In (Fin hi) (column i (b0 :: bounds))
           /\ (forall q, In (Fin q) (column i (b0 :: bounds)) ->
                         (lo <= q)%Qc /\ (q <= hi)%Qc)
           /\ in_range lo hi (at_ r i)
           /\ (stiffness = 0%Qc -> at_ r i = Fin (Qcmin (Qcmax x lo) hi)).
Proof.
  intros R0 D0 D1 S01 Ha Hf Hfmt Hs Hn.
  unfold numel in *. set (N := length (data a)) in *.
  unfold Fp.clamp.
  rewrite (@stack_ok (b0 :: bounds) (shape a)) by (try discriminate; exact Hs).
  cbn [bind].
  set (maximums := Method.reduce Method.tmaximum b0 bounds).
  set (minimums := Method.reduce Method.tminimum b0 bounds).
  set (average := tmap _ (Fp.sum0 rdt (b0 :: bounds))).
  assert (Lb0 : length (data b0) = N) by (inversion Hn; auto).
  assert (Hnb : all_numel N bounds) by (inversion Hn; auto).
  assert (Lmax : length (data maximums) = N)
    by (apply fold_tmap2_length; auto).
  assert (Lmin : length (data minimums) = N)
    by (apply fold_tmap2_length; auto).
  assert (Lavg : length (data average) = N).
  { unfold average, tmap, Fp.sum0. cbn [data]. rewrite length_map.
    apply fold_tmap2_length; auto. }
  (* the interval of the bounds at one position *)
  assert (Col : forall i, (i < N)%nat ->
            exists lo hi : Qc,
              In (Fin lo) (column i (b0 :: bounds))
              /\ In (Fin hi) (column i (b0 :: bounds))
              /\ (forall q, In (Fin q) (column i (b0 :: bounds)) ->
                            (lo <= q)%Qc /\ (q <= hi)%Qc)
              /\ at_ maximums i = Fin hi /\ at_ minimums i = Fin lo).
  { intros i Hi.
    destruct (column_finite Hf Hn Hi) as [qs0 Eqs].
    destruct qs0 as [| q0 qs]; [discriminate |].
    assert (E0 : nth i (data b0) NaN = Fin q0) by (inversion Eqs; auto).
    assert (Ec : column i bounds = map Fin qs) by (inversion Eqs; auto).
    destruct (fold_Qcmax_spec qs q0) as [Hin Hub].
    destruct (fold_Qcmin_spec qs q0) as [Hin' Hlb].
    exists (fold_left Qcmin qs q0), (fold_left Qcmax qs q0).
    rewrite Eqs. repeat split.
    - apply in_map, Hin'.
    - apply in_map, Hin.
    - apply Hlb. apply in_map_iff in H. destruct H as (q' & Eq' & Hq').
      inversion Eq'; subst; exact Hq'.
    - apply Hub. apply in_map_iff in H. destruct H as (q' & Eq' & Hq').
      inversion Eq'; subst; exact Hq'.
    - unfold at_, maximums, Method.reduce, Method.tmaximum.
      rewrite (@fold_tmap2_nth nmax bounds b0 N i Lb0 Hnb Hi), E0, Ec.
      apply fold_nmax_Fin.
    - unfold at_, minimums, Method.reduce, Method.tminimum.
      rewrite (@fold_tmap2_nth nmin bounds b0 N i Lb0 Hnb Hi), E0, Ec.
      apply fold_nmin_Fin. }
  set (E := if negb (Qceqb stiffness 0)
            then let '(smallest_positive, largest_negative) :=
                   fold_left (Method.tighten average) (b0 :: bounds)
                             (maximums, minimums) in
                 (Fp.weighted_sum rnd rdt maximums smallest_positive stiffness,
                  Fp.weighted_sum rnd rdt minimums largest_negative stiffness)
            else (maximums, minimums)).
  assert (LE : length (data (fst E)) = N /\ length (data (snd E)) = N).
  { unfold E. destruct (Qceqb stiffness 0); cbn [negb].
    - cbn [fst snd]. auto.
    - pose proof (@tighten_fold_length average N (b0 :: bounds) Lavg Hn
                                       maximums minimums Lmax Lmin) as T.
      cbv zeta in T.
      destruct (fold_left (Method.tighten average) (b0 :: bounds)
                          (maximums, minimums)) as [sp ln].
      cbn [fst snd] in *. destruct T as [T1 T2].
      unfold Fp.weighted_sum, tmap2, tmap. cbn [data].
      rewrite !map2_length_min, !length_map. lia. }
  assert (RE : forall (i : nat) (lo hi : Qc), (i < N)%nat ->
            Forall (fun v => in_range lo hi v /\ Fp.fl rdt v = v)
                   (column i (b0 :: bounds)) ->
            at_ maximums i = Fin hi -> at_ minimums i = Fin lo ->
            rdt hi = Fin hi -> rdt lo = Fin lo ->
            (lo <= hi)%Qc ->
            in_range lo hi (at_ (fst E) i) /\ in_range lo hi (at_ (snd E) i)
            /\ (stiffness = 0%Qc ->
                at_ (fst E) i = Fin hi /\ at_ (snd E) i = Fin lo)).
  { intros i lo hi Hi HP Emax Emin Fhi Flo Hlh.
    assert (Pmax : in_range lo hi (at_ maximums i)
                   /\ Fp.fl rdt (at_ maximums i) = at_ maximums i).
    { rewrite Emax. split; [| exact Fhi].
      exists hi. repeat split; auto. apply Qcle_refl. }
    assert (Pmin : in_range lo hi (at_ minimums i)
                   /\ Fp.fl rdt (at_ minimums i) = at_ minimums i).
    { rewrite Emin. split; [| exact Flo].
      exists lo. repeat split; auto. apply Qcle_refl. }
    unfold E. destruct (Qceqb stiffness 0) eqn:Q; cbn [negb].
    - cbn [fst snd]. split; [apply Pmax |]. split; [apply Pmin |]. auto.
    - pose proof (@tighten_fold_inv
                    (fun v => in_range lo hi v /\ Fp.fl rdt v = v)
                    average N i (b0 :: bounds) Lavg Hi Hn HP
                    maximums minimums Lmax Lmin Pmax Pmin) as T.
      cbv zeta in T.
      destruct (fold_left (Method.tighten average) (b0 :: bounds)
                          (maximums, minimums)) as [sp ln].
      cbn [fst snd] in *. destruct T as (T1 & T2 & [T3 F3] & [T4 F4]).
      apply Qceqb_false in Q.
      destruct S01 as [S01 | S01]; [contradiction |]. subst stiffness.
      assert (W : forall m s : tensor,
                 length (data m) = N -> length (data s) = N ->
                 isfinite (at_ m i) = true -> Fp.fl rdt (at_ s i) = at_ s i ->
                 at_ (Fp.weighted_sum rnd rdt m s 1) i = at_ s i).
      { intros m s Lm Ls Fm Fs. unfold at_ in *.
        unfold Fp.weighted_sum, tmap2, tmap. cbn [data]. push_nth.
        replace (1 - 1)%Qc with 0%Qc by ring. rewrite R0. cbn [Fp.fl].
        rewrite D0, D1.
        rewrite (@fmul_0_l rdt _ D0 Fm), (@fmul_1_l rdt _ D1 Fs).
        apply (@fadd_0_l rdt _ Fs). }
      rewrite (W maximums sp), (W minimums ln); auto;
        try (rewrite ?Emax, ?Emin; reflexivity).
      split; [exact T3 |]. split; [exact T4 |].
      intros Z. discriminate Z. }
  clearbody E. destruct E as [max' min']. cbn [fst snd] in *.
  destruct LE as [L1 L2].
  eexists. split; [reflexivity |].
  split; [reflexivity |].
  split.
  { unfold Method.tminimum, Method.tmaximum, tmap2. cbn [data].
    rewrite !map2_length_min. fold N. lia. }
  intros i Hi.
  destruct (Col i Hi) as (lo & hi & Hlo & Hhi & Hb & Emax & Emin).
  destruct (@finite_nth a i Ha) as [x Ex]; [exact Hi |].
  assert (Hlh : (lo <= hi)%Qc) by (apply (Hb lo Hlo)).
  assert (Hfc : Forall (fun v => Fp.fl rdt v = v) (column i (b0 :: bounds))).
  { unfold column. apply Forall_map.
    apply Forall_forall. intros t Ht.
    assert (Ft : Fp.in_format rdt t)
      by (apply (proj1 (Forall_forall _ _) Hfmt _ Ht)).
    assert (Lt : length (data t) = N)
      by (apply (proj1 (Forall_forall _ _) Hn _ Ht)).
    apply (proj1 (Forall_forall _ _) Ft). apply nth_In. lia. }
  assert (HP : Forall (fun v => in_range lo hi v /\ Fp.fl rdt v = v)
                      (column i (b0 :: bounds))).
  { destruct (column_finite Hf Hn Hi) as [qs0 Eqs].
    apply Forall_forall. intros v Hv.
    split; [| apply (proj1 (Forall_forall _ _) Hfc _ Hv)].
    assert (Hv' := Hv). rewrite Eqs in Hv'. apply in_map_iff in Hv'.
    destruct Hv' as (q & <- & _).
    exists q. split; [reflexivity |]. apply Hb, Hv. }
  assert (Fhi : rdt hi = Fin hi)
    by (apply (proj1 (Forall_forall _ _) Hfc (Fin hi) Hhi)).
  assert (Flo : rdt lo = Fin lo)
    by (apply (proj1 (Forall_forall _ _) Hfc (Fin lo) Hlo)).
  destruct (RE i lo hi Hi HP Emax Emin Fhi Flo Hlh) as (R1 & R2 & R3).
  exists x, lo, hi.
  split; [exact Ex |]. split; [exact Hlo |]. split; [exact Hhi |].
  split; [exact Hb |].
  assert (At : forall lo' hi' : Qc,
             at_ max' i = Fin hi' -> at_ min' i = Fin lo' ->
             at_ (Method.tminimum (Method.tmaximum a min') max') i
             = Fin (Qcmin (Qcmax x lo') hi')).
  { intros lo' hi' Eh El. unfold at_ in *.
    unfold Method.tminimum, Method.tmaximum, tmap2. cbn [data].
    push_nth. rewrite Ex, Eh, El, nmax_Fin, nmin_Fin. reflexivity. }
  split.
  - destruct R1 as (hi' & Eh & H0 & H1). destruct R2 as (lo' & El & L0 & L1').
    rewrite (At lo' hi' Eh El).
    exists (Qcmin (Qcmax x lo') hi'). split; [reflexivity |].
    apply clamp_between; assumption.
  - intros Z. destruct (R3 Z) as [Eh El]. apply At; assumption.
Qed.

Lemma clamp_within_envelope_witness :
  exists r : tensor,
    Fp.clamp Fp.binary64 Fp.binary32 clamp_a clamp_b0 [clamp_b1; clamp_b2] 1%Qc
    = Ok r
    /\ shape r = shape clamp_a /\ numel r = numel clamp_a
    /\ forall i : nat, (i < numel clamp_a)%nat ->
         exists x lo hi : Qc,
           at_ clamp_a i = Fin x
           /\ In (Fin lo) (column i [clamp_b0; clamp_b1; clamp_b2])
           /\ In (Fin hi) (column i [clamp_b0; clamp_b1; clamp_b2])
           /\ (forall q, In (Fin q) (column i [clamp_b0; clamp_b1; clamp_b2]) ->
                         (lo <= q)%Qc /\ (q <= hi)%Qc)
           /\ in_range lo hi (at_ r i)
           /\ (1%Qc = 0%Qc -> at_ r i = Fin (Qcmin (Qcmax x lo) hi)).
Proof.
  apply (@clamp_within_envelope Fp.binary64 Fp.binary32 clamp_a clamp_b0
                                [clamp_b1; clamp_b2] 1%Qc);
    try (right; reflexivity);
    try (apply num_eqb_eq; vm_compute; reflexivity);
    repeat apply Forall_cons; try apply Forall_nil;
    try reflexivity; try (eexists; reflexivity);
    try (repeat apply Forall_cons; try apply Forall_nil;
         apply num_eqb_eq; vm_compute; reflexivity).
Defined.

(** A concrete evaluation in float32: with stiffness 1/2 the interval at
    each position is pulled half-way toward the bounds nearest to their
    mean. *)
Example clamp_example :
  match Fp.clamp Fp.binary64 Fp.binary32 clamp_a clamp_b0 [clamp_b1; clamp_b2]
                 (Q2Qc (1 # 2)),
        Fp.clamp Fp.binary64 Fp.binary32 clamp_a clamp_b0 [clamp_b1; clamp_b2] 0
  with
  | Ok r, Ok r0 =>
      tensor_eqb r (mkTensor [3%nat] [Fin (Q2Qc (3 # 2)); Fin (ofZ 5); Fin (ofZ 7)])
      && tensor_eqb r0 (mkTensor [3%nat] [Fin (ofZ 1); Fin (ofZ 5); Fin (ofZ 7)])
  | _, _ => false
  end = true.
Proof. vm_compute. reflexivity. Qed.

(** With a stiffness strictly between 0 and 1 the blend is rounded: with
    the single binary64 bound 0.1 and stiffness 0.3, [1.0] is clamped to the
    number below 0.1, outside the interval of the bounds. *)
Example clamp_blend_leaves_envelope :
  match Fp.clamp Fp.binary64 Fp.binary64 (mkTensor [1%nat] [Fin 1%Qc])
                 tenth [] py_0_3 with
  | Ok r => nltb (at_ r 0) (at_ tenth 0)
  | _ => false
  end = true.
Proof. vm_compute. reflexivity. Qed.
